(** * qtree: the live query tree of magellan (src/qtree/qtree.go)

    A shallow embedding of [QueryTreeNode] and of its methods
    [NewQueryTree], [ApplyTreeMutation], [AddChild], [removeChild],
    [removeSubscription], [SubscribeChanges], [nextUpdate] and [Dispose].

    Go pointers to nodes are addresses into a heap ([gmap] from addresses to
    node records); a nil pointer is [None].  A run-time panic (nil pointer
    dereference, assignment to an entry of a nil map) is the [Panic]
    outcome, which carries the heap as the panic found it. *)

From stdpp Require Import gmap strings list fin_maps.
From Stdlib Require Import ZArith.

Open Scope Z_scope.

(** ** The schema, as [graphql-go/language/ast] gives it *)

Module ast.

(** [ast.Type]: a named type or a list / non-null wrapper. *)
Inductive Type_ : Type :=
| Named (Name : string)
| List (Type' : Type_)
| NonNull (Type' : Type_).

Record FieldDefinition : Type := {
  Name : string;
  Type' : Type_
}.

(** [ast.TypeDefinition]: the interface; only [*ast.ObjectDefinition]
    passes the type assertion of [AddChild]. *)
Inductive TypeDefinition : Type :=
| ObjectDefinition (Name : string) (Fields : list FieldDefinition)
| InterfaceDefinition (Name : string) (Fields : list FieldDefinition)
| ScalarDefinition (Name : string)
| UnionDefinition (Name : string)
| EnumDefinition (Name : string)
| InputObjectDefinition (Name : string).

End ast.

(** ** The mutation message, as [rgraphql/pkg/proto] gives it *)

Module proto.

Record ASTVariable : Type := {
  Id : Z;
  Value : string
}.

Record FieldArgument : Type := {
  Name : string;
  VariableId : Z
}.

(** A node descriptor with its nested descriptors. *)
#[local] Unset Elimination Schemes.
Inductive RGQLQueryTreeNode : Type :=
| Build_RGQLQueryTreeNode
    (Id : Z) (FieldName : string) (Args : list FieldArgument)
    (Children : list RGQLQueryTreeNode).
#[local] Set Elimination Schemes.

Definition Id' (data : RGQLQueryTreeNode) : Z :=
  match data with Build_RGQLQueryTreeNode id _ _ _ => id end.
Definition FieldName (data : RGQLQueryTreeNode) : string :=
  match data with Build_RGQLQueryTreeNode _ fieldName _ _ => fieldName end.
Definition Args (data : RGQLQueryTreeNode) : list FieldArgument :=
  match data with Build_RGQLQueryTreeNode _ _ args _ => args end.
Definition Children (data : RGQLQueryTreeNode) : list RGQLQueryTreeNode :=
  match data with Build_RGQLQueryTreeNode _ _ _ children => children end.

(** The operation of a node mutation; a value of the wire enum that is
    neither of the two named ones is [SUBTREE_OTHER]. *)
Inductive SubtreeOperation : Type :=
| SUBTREE_ADD_CHILD
| SUBTREE_DELETE
| SUBTREE_OTHER (n : Z).

Record NodeMutation : Type := {
  NodeId : Z;
  Operation : SubtreeOperation;
  Node : RGQLQueryTreeNode
}.

Record RGQLTreeMutation : Type := {
  Variables : list ASTVariable;
  NodeMutation' : list NodeMutation
}.

End proto.

(** ** The Variable Store *)

(** A reference handed out by the store: the variable it refers to and the
    number the store gave to this reference. *)
Record VariableReference : Type := {
  vr_variable : Z;
  vr_id : nat
}.

Global Instance VariableReference_eq_dec : EqDecision VariableReference.
Proof. solve_decision. Defined.

Global Instance VariableReference_countable : Countable VariableReference.
Proof.
  refine (inj_countable' (λ r, (vr_variable r, vr_id r))
                         (λ p, {| vr_variable := p.1; vr_id := p.2 |}) _).
  by intros [].
Defined.

(** The calls the store has received, oldest first. *)
Inductive StoreCall : Type :=
| CallPut (variable : proto.ASTVariable)
| CallGet (id : Z) (found : option VariableReference)
| CallUnsubscribe (ref : VariableReference)
| CallGarbageCollect.

(** Modelled from the spec: the Variable Store ([VariableStore],
    [NewVariableStore], [Put], [Get], [VariableReference.Unsubscribe],
    [GarbageCollect]) is not in qtree.go.  The spec gives its contract:
    bindings keyed by an identifier, insertion, reference-counted lookup
    ([Get(id) -> VariableReference | not-found]), release of a reference,
    and a garbage collection that reclaims the bindings with zero
    outstanding references.  Every successful [Get] hands out a new
    reference, outstanding until it is released. *)
Record VariableStore : Type := {
  vs_variables : gmap Z string;
  vs_references : gset VariableReference;
  vs_refCtr : nat;
  vs_calls : list StoreCall
}.

(** Modelled from the spec: a new store has no binding. *)
Definition NewVariableStore : VariableStore :=
  {| vs_variables := ∅; vs_references := ∅; vs_refCtr := 0%nat;
     vs_calls := [] |}.

(** Modelled from the spec: [Put] installs a binding. *)
Definition vs_Put (vs : VariableStore) (variable : proto.ASTVariable)
  : VariableStore :=
  {| vs_variables :=
       <[proto.Id variable := proto.Value variable]> (vs_variables vs);
     vs_references := vs_references vs;
     vs_refCtr := vs_refCtr vs;
     vs_calls := vs_calls vs ++ [CallPut variable] |}.

(** Modelled from the spec: [Get] is the reference-counted lookup; it
    returns nil for an identifier with no binding. *)
Definition vs_Get (vs : VariableStore) (id : Z)
  : VariableStore * option VariableReference :=
  match vs_variables vs !! id with
  | None =>
      ({| vs_variables := vs_variables vs;
          vs_references := vs_references vs;
          vs_refCtr := vs_refCtr vs;
          vs_calls := vs_calls vs ++ [CallGet id None] |}, None)
  | Some _ =>
      let ref := {| vr_variable := id; vr_id := vs_refCtr vs |} in
      ({| vs_variables := vs_variables vs;
          vs_references := {[ref]} ∪ vs_references vs;
          vs_refCtr := S (vs_refCtr vs);
          vs_calls := vs_calls vs ++ [CallGet id (Some ref)] |}, Some ref)
  end.

(** Modelled from the spec: releasing a reference. *)
Definition vs_Unsubscribe (vs : VariableStore) (ref : VariableReference)
  : VariableStore :=
  {| vs_variables := vs_variables vs;
     vs_references := vs_references vs ∖ {[ref]};
     vs_refCtr := vs_refCtr vs;
     vs_calls := vs_calls vs ++ [CallUnsubscribe ref] |}.

(** The number of outstanding references to a variable. *)
Definition vs_refcount (vs : VariableStore) (id : Z) : nat :=
  size (filter (λ r, vr_variable r = id) (vs_references vs)).

(** Modelled from the spec: the sweep reclaims the bindings with zero
    outstanding references. *)
Definition vs_GarbageCollect (vs : VariableStore) : VariableStore :=
  {| vs_variables :=
       filter (λ kv, vs_refcount vs kv.1 ≠ 0%nat) (vs_variables vs);
     vs_references := vs_references vs;
     vs_refCtr := vs_refCtr vs;
     vs_calls := vs_calls vs ++ [CallGarbageCollect] |}.

(** ** Tree nodes and the heap *)

(** The address of a [QueryTreeNode]; [*QueryTreeNode] is [option addr]. *)
Abbreviation addr := nat (only parsing).

Inductive UpdateOperation : Type :=
| Operation_AddChild
| Operation_DelChild
| Operation_Delete.

(** [QTNodeUpdate]: the change a subscriber is told about. *)
Record QTNodeUpdate : Type := {
  Operation : UpdateOperation;
  Child : option addr
}.

(** [QueryTreeNode].  [SchemaResolver] and [VariableStore] are the same
    object on every node of a tree ([AddChild] copies the pointers of the
    parent); they are kept once, beside the heap.  [subscribers] maps a
    subscription id to the updates that [nextChange] has delivered to that
    subscription, oldest first. *)
Record QueryTreeNode : Type := {
  Id : Z;
  idCounter : Z;
  Root : option addr;
  Parent : option addr;
  Children : list addr;
  RootNodeMap : option (gmap Z addr);
  FieldName : string;
  AST : option ast.TypeDefinition;
  IsPrimitive : bool;
  PrimitiveName : string;
  Arguments : option (gmap string VariableReference);
  subCtr : Z;
  subscribers : gmap Z (list QTNodeUpdate)
}.

(** The errors of [AddChild], one constructor per [fmt.Errorf]. *)
Inductive error : Type :=
| ErrInvalidNodeID (id : Z)
| ErrNotSelectable (id : Z) (parentAST : option ast.TypeDefinition)
| ErrInvalidField (fieldName : string) (on : string)
| ErrUnresolvedNamed (name : string)
| ErrUnresolvedType (selectedType : ast.Type_)
| ErrVariableNotFound (variableId : Z) (argName : string).

(** The kinds of the spec's error taxonomy. *)
Inductive ErrorKind : Type :=
| DuplicateNodeId
| NotSelectable
| UnknownField
| UnresolvedType
| UnknownVariable.

Definition error_kind (e : error) : ErrorKind :=
  match e with
  | ErrInvalidNodeID _ => DuplicateNodeId
  | ErrNotSelectable _ _ => NotSelectable
  | ErrInvalidField _ _ => UnknownField
  | ErrUnresolvedNamed _ | ErrUnresolvedType _ => UnresolvedType
  | ErrVariableNotFound _ _ => UnknownVariable
  end.

(** The program state: the nodes, the tree's Variable Store, and what
    [fmt.Printf] has written. *)
Record State : Type := {
  heap : gmap addr QueryTreeNode;
  store : VariableStore;
  stdout : list error
}.

Inductive outcome (A : Type) : Type :=
| Done (a : A) (s : State)
| Panic (s : State)
| OutOfFuel.
Arguments Done {A} a s.
Arguments Panic {A} s.
Arguments OutOfFuel {A}.

(** The state a call leaves behind, by return or by panic. *)
Definition final {A} (o : outcome A) : option State :=
  match o with
  | Done _ s | Panic s => Some s
  | OutOfFuel => None
  end.

Definition set_heap (s : State) (h : gmap addr QueryTreeNode) : State :=
  {| heap := h; store := store s; stdout := stdout s |}.

Definition set_store (s : State) (vs : VariableStore) : State :=
  {| heap := heap s; store := vs; stdout := stdout s |}.

Definition print_error (s : State) (e : error) : State :=
  {| heap := heap s; store := store s; stdout := stdout s ++ [e] |}.

(** Field updates of a node. *)
Definition with_Children (cs : list addr) (n : QueryTreeNode) : QueryTreeNode :=
  {| Id := Id n; idCounter := idCounter n; Root := Root n; Parent := Parent n;
     Children := cs; RootNodeMap := RootNodeMap n; FieldName := FieldName n;
     AST := AST n; IsPrimitive := IsPrimitive n;
     PrimitiveName := PrimitiveName n; Arguments := Arguments n;
     subCtr := subCtr n; subscribers := subscribers n |}.

Definition with_RootNodeMap (m : option (gmap Z addr)) (n : QueryTreeNode)
  : QueryTreeNode :=
  {| Id := Id n; idCounter := idCounter n; Root := Root n; Parent := Parent n;
     Children := Children n; RootNodeMap := m; FieldName := FieldName n;
     AST := AST n; IsPrimitive := IsPrimitive n;
     PrimitiveName := PrimitiveName n; Arguments := Arguments n;
     subCtr := subCtr n; subscribers := subscribers n |}.

Definition with_Arguments (a : option (gmap string VariableReference))
  (n : QueryTreeNode) : QueryTreeNode :=
  {| Id := Id n; idCounter := idCounter n; Root := Root n; Parent := Parent n;
     Children := Children n; RootNodeMap := RootNodeMap n;
     FieldName := FieldName n; AST := AST n; IsPrimitive := IsPrimitive n;
     PrimitiveName := PrimitiveName n; Arguments := a;
     subCtr := subCtr n; subscribers := subscribers n |}.

Definition with_subscribers (c : Z) (subs : gmap Z (list QTNodeUpdate))
  (n : QueryTreeNode) : QueryTreeNode :=
  {| Id := Id n; idCounter := idCounter n; Root := Root n; Parent := Parent n;
     Children := Children n; RootNodeMap := RootNodeMap n;
     FieldName := FieldName n; AST := AST n; IsPrimitive := IsPrimitive n;
     PrimitiveName := PrimitiveName n; Arguments := Arguments n;
     subCtr := c; subscribers := subs |}.

(** Writing through a pointer; an address with no node is left alone (Go
    has no such pointer: every address the program holds was allocated). *)
Definition update_node (s : State) (p : addr)
  (f : QueryTreeNode → QueryTreeNode) : State :=
  set_heap s (alter f p (heap s)).

(** The root index as [qt.Root.RootNodeMap] reads it; a nil map has no
    entry. *)
Definition root_index (s : State) (root : addr) : gmap Z addr :=
  match heap s !! root with
  | Some r => default ∅ (RootNodeMap r)
  | None => ∅
  end.

(** ** The Notification Hub: lines 214-240 *)

(** Modelled from the spec: [qtNodeSubscription.nextChange] is not in
    qtree.go; delivery hands the update to the subscription, here by
    appending it to what the subscription has received. *)
Definition nextChange (received : list QTNodeUpdate) (update : QTNodeUpdate)
  : list QTNodeUpdate :=
  received ++ [update].

(** [nextUpdate]: every subscription of [qt] is told. *)
Definition nextUpdate (s : State) (qt : addr) (update : QTNodeUpdate) : State :=
  update_node s qt
    (λ n, with_subscribers (subCtr n)
            ((λ sub, nextChange sub update) <$> subscribers n) n).

(** [SubscribeChanges]: the new subscription takes the counter as its id
    ([qt.subCtr++] wraps at 32 bits); the handle is the node with the id. *)
Definition SubscribeChanges (s : State) (qt : addr) : State * (addr * Z) :=
  match heap s !! qt with
  | None => (s, (qt, 0))
  | Some n =>
      let id := subCtr n in
      (update_node s qt
         (with_subscribers ((id + 1) mod 2 ^ 32) (<[id := []]> (subscribers n))),
       (qt, id))
  end.

(** [removeSubscription] *)
Definition removeSubscription (s : State) (qt : addr) (id : Z) : State :=
  update_node s qt
    (λ n, with_subscribers (subCtr n) (delete id (subscribers n)) n).

(** ** [removeChild]: lines 198-212 *)

(** The first cell that holds [nod] is cut out of the slice and the
    subscribers of [qt] are told; with no such cell nothing happens. *)
Definition removeChild (s : State) (qt : addr) (nod : addr) : State :=
  match heap s !! qt with
  | None => s
  | Some n =>
      match list_find (λ item, item = nod) (Children n) with
      | None => s
      | Some (i, item) =>
          nextUpdate
            (update_node s qt (with_Children (delete i (Children n))))
            qt {| Operation := Operation_DelChild; Child := Some item |}
      end
  end.

(** ** [NewQueryTree]: lines 35-47 *)

(** [rootQuery] is an [*ast.ObjectDefinition]: its name and its fields. *)
Definition NewQueryTree (rootName : string)
  (rootFields : list ast.FieldDefinition) : State * addr :=
  let nqt : addr := fresh (∅ : gset addr) in
  ({| heap :=
        {[ nqt :=
             {| Id := 0; idCounter := 0; Root := Some nqt; Parent := None;
                Children := []; RootNodeMap := Some {[ 0 := nqt ]};
                FieldName := "";
                AST := Some (ast.ObjectDefinition rootName rootFields);
                IsPrimitive := false;
                PrimitiveName := ""; Arguments := None; subCtr := 0;
                subscribers := ∅ |} ]};
      store := NewVariableStore;
      stdout := [] |}, nqt).

Section QTree.

(** [types.IsPrimitive] of magellan's [types] package: whether a type
    name is one of the schema's primitives. *)
Variable types_IsPrimitive : string → bool.

(** [SchemaResolver.LookupType] of the resolver handed to [NewQueryTree];
    [None] is the nil definition. *)
Variable LookupType : ast.Type_ → option ast.TypeDefinition.

(** *** [AddChild]: lines 82-195 *)

(** Lines 98-105: the first field of the parent's definition that has
    the name. *)
Definition selectField (fields : list ast.FieldDefinition)
  (fieldName : string) : option ast.FieldDefinition :=
  find (λ field, String.eqb (ast.Name field) fieldName) fields.

(** Lines 111-114 and 121-123: one list wrapper, then one non-null
    wrapper. *)
Definition unwrapList (t : ast.Type_) : ast.Type_ :=
  match t with ast.List t' => t' | _ => t end.

Definition unwrapNonNull (t : ast.Type_) : ast.Type_ :=
  match t with ast.NonNull t' => t' | _ => t end.

(** What lines 111-141 compute for the new node: [AST], [IsPrimitive]
    and [PrimitiveName]. *)
Record Classified : Type := {
  selectedTypeDef : option ast.TypeDefinition;
  isPrimitive : bool;
  primitiveName : string
}.

Definition classify (selectedField : ast.FieldDefinition)
  : error + Classified :=
  let selectedType := unwrapNonNull (unwrapList (ast.Type' selectedField)) in
  match selectedType with
  | ast.Named name =>
      if types_IsPrimitive name
      then inr {| selectedTypeDef := None; isPrimitive := true;
                  primitiveName := name |}
      else
        match LookupType selectedType with
        | None => inl (ErrUnresolvedNamed name)
        | Some def => inr {| selectedTypeDef := Some def;
                             isPrimitive := false; primitiveName := "" |}
        end
  | _ =>
      match LookupType selectedType with
      | None => inl (ErrUnresolvedType selectedType)
      | Some def => inr {| selectedTypeDef := Some def;
                           isPrimitive := false; primitiveName := "" |}
      end
  end.

(** Lines 148-150: every reference of the map is released (in the order
    of [map_to_list]; Go leaves the order of a map range open). *)
Definition unsubscribeAll (vs : VariableStore)
  (argMap : gmap string VariableReference) : VariableStore :=
  foldl vs_Unsubscribe vs (map_to_list argMap).*2.

(** Lines 143-154: the arguments are looked up one by one. *)
Fixpoint resolveArgs (vs : VariableStore)
  (argMap : gmap string VariableReference)
  (args : list proto.FieldArgument)
  : VariableStore * (error + gmap string VariableReference) :=
  match args with
  | [] => (vs, inr argMap)
  | arg :: rest =>
      match vs_Get vs (proto.VariableId arg) with
      | (vs', None) =>
          (unsubscribeAll vs' argMap,
           inl (ErrVariableNotFound (proto.VariableId arg) (proto.Name arg)))
      | (vs', Some vref) =>
          resolveArgs vs' (<[proto.Name arg := vref]> argMap) rest
      end
  end.

(** Lines 88-154: the checks, in the order of the code.  The first one
    reads the [RootNodeMap] field of [qt] itself. *)
Definition validate (s : State) (n : QueryTreeNode)
  (data : proto.RGQLQueryTreeNode)
  : State * (error + (Classified * gmap string VariableReference)) :=
  match default ∅ (RootNodeMap n) !! proto.Id' data with
  | Some _ => (s, inl (ErrInvalidNodeID (proto.Id' data)))
  | None =>
      match AST n with
      | Some (ast.ObjectDefinition odName odFields) =>
          match selectField odFields (proto.FieldName data) with
          | None => (s, inl (ErrInvalidField (proto.FieldName data) odName))
          | Some selectedField =>
              match classify selectedField with
              | inl err => (s, inl err)
              | inr c =>
                  match resolveArgs (store s) ∅ (proto.Args data) with
                  | (vs, inl err) => (set_store s vs, inl err)
                  | (vs, inr argMap) => (set_store s vs, inr (c, argMap))
                  end
              end
          end
      | _ => (s, inl (ErrNotSelectable (proto.Id' data) (AST n)))
      end
  end.

(** Lines 156-172: the node is allocated, appended to the children of
    [qt] and entered in [qt.Root.RootNodeMap]. *)
Definition mint (s : State) (qt : addr) (n : QueryTreeNode)
  (data : proto.RGQLQueryTreeNode) (c : Classified)
  (argMap : gmap string VariableReference) : outcome addr :=
  let nnod : addr := fresh (dom (heap s)) in
  let s1 :=
    set_heap s
      (<[ nnod :=
            {| Id := proto.Id' data; idCounter := 0; Root := Root n;
               Parent := Some qt; Children := []; RootNodeMap := None;
               FieldName := proto.FieldName data;
               AST := selectedTypeDef c; IsPrimitive := isPrimitive c;
               PrimitiveName := primitiveName c; Arguments := Some argMap;
               subCtr := 0; subscribers := ∅ |} ]> (heap s)) in
  let s2 := update_node s1 qt (λ q, with_Children (Children q ++ [nnod]) q) in
  match Root n with
  | None => Panic s2
  | Some root =>
      match heap s2 !! root with
      | None => Panic s2
      | Some r =>
          match RootNodeMap r with
          | None => Panic s2
          | Some m =>
              Done nnod
                (update_node s2 root
                   (with_RootNodeMap (Some (<[ proto.Id' data := nnod ]> m))))
          end
      end
  end.

(** Lines 88-172 together: an error of the checks, or the new node. *)
Definition mintChild (s : State) (qt : addr)
  (data : proto.RGQLQueryTreeNode) : outcome (error + addr) :=
  match heap s !! qt with
  | None => Panic s
  | Some n =>
      match validate s n data with
      | (s', inl err) => Done (inl err) s'
      | (s', inr (c, argMap)) =>
          match mint s' qt n data c argMap with
          | Done nnod s'' => Done (inr nnod) s''
          | Panic s'' => Panic s''
          | OutOfFuel => OutOfFuel
          end
      end
  end.

(** Lines 175-180, the deferred cleanup when [addChildErr] is not nil:
    [qt.removeChild(nnod)], then [delete(qt.Root.RootNodeMap, nnod.Id)]. *)
Definition rollback (s : State) (qt : addr) (nnod : addr) : outcome unit :=
  let s1 := removeChild s qt nnod in
  match heap s1 !! qt, heap s1 !! nnod with
  | Some q, Some nn =>
      match Root q with
      | None => Panic s1
      | Some root =>
          Done tt
            (update_node s1 root
               (λ r, with_RootNodeMap (delete (Id nn) <$> RootNodeMap r) r))
      end
  | _, _ => Panic s1
  end.

(** [AddChild] returns the error ([None] is the nil error). *)
Fixpoint AddChild (s : State) (qt : addr) (data : proto.RGQLQueryTreeNode)
  {struct data} : outcome (option error) :=
  match data with
  | proto.Build_RGQLQueryTreeNode _ _ _ children =>
      match mintChild s qt data with
      | Done (inl err) s' => Done (Some err) s'
      | Done (inr nnod) s1 =>
          let applyChildren :=
            fix applyChildren (s : State)
                (children : list proto.RGQLQueryTreeNode)
                : outcome (option error) :=
              match children with
              | [] => Done None s
              | child :: rest =>
                  match AddChild s nnod child with
                  | Done None s' => applyChildren s' rest
                  | r => r
                  end
              end in
          match applyChildren s1 children with
          | Done None s2 =>
              Done None
                (nextUpdate s2 qt
                   {| Operation := Operation_AddChild; Child := Some nnod |})
          | Done (Some err) s2 =>
              match rollback s2 qt nnod with
              | Done _ s3 => Done (Some err) s3
              | Panic s3 => Panic s3
              | OutOfFuel => OutOfFuel
              end
          | Panic s2 => Panic s2
          | OutOfFuel => OutOfFuel
          end
      | Panic s' => Panic s'
      | OutOfFuel => OutOfFuel
      end
  end.

(** Lines 183-187 by themselves: the nested descriptors are applied to
    the new node in order, up to the first error. *)
Fixpoint applyChildren (s : State) (nnod : addr)
  (children : list proto.RGQLQueryTreeNode) : outcome (option error) :=
  match children with
  | [] => Done None s
  | child :: rest =>
      match AddChild s nnod child with
      | Done None s' => applyChildren s' nnod rest
      | r => r
      end
  end.

(** *** [Dispose]: lines 243-263 *)

(** The [range qt.Children] of line 247.  The slice is read once, so the
    number of rounds is the length at the start; round [i] reads cell [i]
    of the backing array as it is by then.  [removeChild] on [qt] moves
    the later cells down in place and sets the last one to nil, so the
    cell is the [i]-th child still listed, or nil past the end of the
    list. *)
Fixpoint rangeChildren (body : State → option addr → outcome unit)
  (qt : addr) (rounds : nat) (i : nat) (s : State) : outcome unit :=
  match rounds with
  | O => Done tt s
  | S rounds' =>
      let child := heap s !! qt ≫= λ q, Children q !! i in
      match body s child with
      | Done _ s' => rangeChildren body qt rounds' (S i) s'
      | r => r
      end
  end.

(** Lines 251-253: the id leaves the root index (a nil root or a nil
    map is skipped). *)
Definition deleteFromRootIndex (s : State) (qt : addr) : State :=
  match heap s !! qt with
  | None => s
  | Some q =>
      match Root q with
      | None => s
      | Some root =>
          update_node s root
            (λ r, with_RootNodeMap (delete (Id q) <$> RootNodeMap r) r)
      end
  end.

(** Lines 254-256 *)
Definition removeFromParent (s : State) (qt : addr) : State :=
  match heap s !! qt with
  | None => s
  | Some q =>
      match Parent q with
      | None => s
      | Some parent => removeChild s parent qt
      end
  end.

(** Lines 257-262 *)
Definition releaseArguments (s : State) (qt : addr) : State :=
  match heap s !! qt with
  | None => s
  | Some q =>
      match Arguments q with
      | None => s
      | Some args =>
          update_node (set_store s (unsubscribeAll (store s) args)) qt
            (with_Arguments None)
      end
  end.

(** [Dispose] on a nil receiver panics in [nextUpdate], which locks the
    mutex of the node.  The recursion follows the heap, so it is bounded
    by [fuel]. *)
Fixpoint Dispose (fuel : nat) (s : State) (qt : option addr)
  : outcome unit :=
  match qt with
  | None => Panic s
  | Some p =>
      match fuel with
      | O => OutOfFuel
      | S fuel' =>
          match heap s !! p with
          | None => Panic s
          | Some q =>
              let s1 :=
                nextUpdate s p
                  {| Operation := Operation_Delete; Child := None |} in
              match rangeChildren (Dispose fuel') p (length (Children q))
                      0%nat s1 with
              | Done _ s2 =>
                  let s3 := update_node s2 p (with_Children []) in
                  let s4 := deleteFromRootIndex s3 p in
                  let s5 := removeFromParent s4 p in
                  Done tt (releaseArguments s5 p)
              | r => r
              end
          end
      end
  end.

(** *** [ApplyTreeMutation]: lines 50-79 *)

(** Lines 52-54 *)
Definition putVariables (s : State) (variables : list proto.ASTVariable)
  : State :=
  foldl (λ s variable, set_store s (vs_Put (store s) variable)) s variables.

(** Lines 57-74: one round of the loop over [mutation.NodeMutation]. *)
Definition applyNodeMutation (fuel : nat) (s : State) (qt : addr)
  (aqn : proto.NodeMutation) : outcome unit :=
  match heap s !! qt ≫= Root with
  | None => Panic s
  | Some root =>
      match heap s !! root with
      | None => Panic s
      | Some r =>
          match default ∅ (RootNodeMap r) !! proto.NodeId aqn with
          | None => Done tt s
          | Some nod =>
              match proto.Operation aqn with
              | proto.SUBTREE_ADD_CHILD =>
                  match AddChild s nod (proto.Node aqn) with
                  | Done (Some err) s' => Done tt (print_error s' err)
                  | Done None s' => Done tt s'
                  | Panic s' => Panic s'
                  | OutOfFuel => OutOfFuel
                  end
              | proto.SUBTREE_DELETE =>
                  if bool_decide (proto.NodeId aqn ≠ 0)
                     && bool_decide (nod ≠ root)
                  then Dispose fuel s (Some nod)
                  else Done tt s
              | proto.SUBTREE_OTHER _ => Done tt s
              end
          end
      end
  end.

(** Lines 56-75 *)
Fixpoint applyNodeMutations (fuel : nat) (s : State) (qt : addr)
  (ops : list proto.NodeMutation) : outcome unit :=
  match ops with
  | [] => Done tt s
  | aqn :: rest =>
      match applyNodeMutation fuel s qt aqn with
      | Done _ s' => applyNodeMutations fuel s' qt rest
      | r => r
      end
  end.

Definition ApplyTreeMutation (fuel : nat) (s : State) (qt : addr)
  (mutation : proto.RGQLTreeMutation) : outcome unit :=
  match heap s !! qt with
  | None => Panic s
  | Some _ =>
      let s1 := putVariables s (proto.Variables mutation) in
      match applyNodeMutations fuel s1 qt (proto.NodeMutation' mutation) with
      | Done _ s2 => Done tt (set_store s2 (vs_GarbageCollect (store s2)))
      | r => r
      end
  end.

(** *** The states of a tree *)

(** One call of an exported method, on any node, with any argument. *)
Inductive step : State → State → Prop :=
| step_ApplyTreeMutation fuel s qt mutation s' :
    final (ApplyTreeMutation fuel s qt mutation)
    = Some s' →
    step s s'
| step_AddChild s qt data s' :
    final (AddChild s qt data) = Some s' →
    step s s'
| step_Dispose fuel s qt s' :
    final (Dispose fuel s (Some qt)) = Some s' → step s s'
| step_SubscribeChanges s qt : step s (SubscribeChanges s qt).1
| step_removeSubscription s qt id : step s (removeSubscription s qt id).

(** The states of a tree made by [NewQueryTree]. *)
Definition reachable (s : State) : Prop :=
  ∃ rootName rootFields, rtc step (NewQueryTree rootName rootFields).1 s.

End QTree.

(** ** Observations *)


Definition children_of (s : State) (p : addr) : list addr :=
  default [] (Children <$> heap s !! p).

Definition subscriptions (s : State) (p : addr) : gmap Z (list QTNodeUpdate) :=
  default ∅ (subscribers <$> heap s !! p).

Definition id_of (s : State) (p : addr) : option Z := Id <$> heap s !! p.

Definition tell (update : QTNodeUpdate) (subs : gmap Z (list QTNodeUpdate))
  : gmap Z (list QTNodeUpdate) :=
  (λ sub, nextChange sub update) <$> subs.

(** ** The vocabulary of the properties *)

(** The calls that node operations make on the store. *)
Definition node_call (c : StoreCall) : Prop :=
  match c with
  | CallGet _ _ | CallUnsubscribe _ => True
  | CallPut _ | CallGarbageCollect => False
  end.

(** The store has received further calls, all of them made by node
    operations. *)
Definition calls_extend (s s' : State) : Prop :=
  ∃ mid, vs_calls (store s') = vs_calls (store s) ++ mid ∧ Forall node_call mid.

(** What the code never changes on a node once it is allocated. *)
Definition same_identity (n n' : QueryTreeNode) : Prop :=
  Id n' = Id n ∧ Root n' = Root n ∧ Parent n' = Parent n
  ∧ FieldName n' = FieldName n ∧ AST n' = AST n
  ∧ IsPrimitive n' = IsPrimitive n ∧ PrimitiveName n' = PrimitiveName n.

(** Every node of [s] is still there in [s'], with the same identity. *)
Definition persists (s s' : State) : Prop :=
  ∀ p n, heap s !! p = Some n →
    ∃ n', heap s' !! p = Some n' ∧ same_identity n n'.

(** A primitive leaf has no definition to select from, no index of its
    own and no children. *)
Definition leaf_ok (n : QueryTreeNode) : Prop :=
  IsPrimitive n = true →
  AST n = None ∧ RootNodeMap n = None ∧ Children n = [].

Definition leaves_ok (s : State) : Prop :=
  ∀ p n, heap s !! p = Some n → leaf_ok n.

(** A property of states that a call keeps. *)
Definition keeps (P : State → Prop) (s s' : State) : Prop := P s → P s'.

(** Every subscription has received [updates] more. *)
Definition told (updates : list QTNodeUpdate)
  (subs : gmap Z (list QTNodeUpdate)) : gmap Z (list QTNodeUpdate) :=
  (λ sub, sub ++ updates) <$> subs.

(** What a call on the node [qt] leaves alone: no node disappears, the
    subscriptions of the other nodes have received nothing, the children of
    the other nodes that were there are the same, and the subscriptions of
    [qt] are the same ones, with what they have received since. *)
Definition frame_at (qt : addr) (s s' : State) : Prop :=
  dom (heap s) ⊆ dom (heap s')
  ∧ (∀ p, p ≠ qt → subscriptions s' p = subscriptions s p)
  ∧ (∀ p, p ≠ qt → p ∈ dom (heap s) → children_of s' p = children_of s p)
  ∧ ∃ updates, subscriptions s' qt = told updates (subscriptions s qt).

(** The references a map of arguments holds. *)
Definition held (argMap : gmap string VariableReference)
  : gset VariableReference :=
  list_to_set (map_to_list argMap).*2.

(** Children are allocated after their parent and below [bound]: the
    heap is a forest, which bounds the depth of [Dispose]. *)
Definition ranked (bound : nat) (s : State) : Prop :=
  ∀ p n c, heap s !! p = Some n → c ∈ Children n → (p < c < bound)%nat.

Definition forest (s : State) : Prop := ∃ bound, ranked bound s.

(** What an update of a node does when it is not one of the two of lines
    170 and 172: the identity stays, children and index entries are taken
    away at most. *)
Definition shrinks (n n' : QueryTreeNode) : Prop :=
  same_identity n n'
  ∧ sublist (Children n') (Children n)
  ∧ match RootNodeMap n, RootNodeMap n' with
    | Some m, Some m' => m' ⊆ m
    | None, None => True
    | _, _ => False
    end.

(** The children lists and the parent pointers agree: a node is listed
    once at most, and a listed node is there and points back to the node
    that lists it. *)
Definition linked (s : State) : Prop :=
  ∀ p n, heap s !! p = Some n →
    NoDup (Children n)
    ∧ ∀ c, c ∈ Children n →
        ∃ cn, heap s !! c = Some cn ∧ Parent cn = Some p.

(** Every node points to [root], which is there, and [root] alone has an
    index. *)
Definition rooted (root : addr) (s : State) : Prop :=
  is_Some (heap s !! root)
  ∧ ∀ p n, heap s !! p = Some n →
      Root n = Some root ∧ (is_Some (RootNodeMap n) ↔ p = root).

(** An entry of an index leads to a node that has the id of the entry. *)
Definition index_sound (s : State) : Prop :=
  ∀ r rn m id p, heap s !! r = Some rn → RootNodeMap rn = Some m →
    m !! id = Some p → id_of s p = Some id.

(** Every subscription of [s] is one of [s'], with further updates
    received, the same for the subscriptions of one node; [s'] has no
    other subscriptions. *)
Definition delivers (s s' : State) : Prop :=
  ∀ p, ∃ updates, subscriptions s' p = told updates (subscriptions s p).

(** Nothing was printed. *)
Definition quiet (s s' : State) : Prop := stdout s' = stdout s.

Global Instance SubtreeOperation_eq_dec : EqDecision proto.SubtreeOperation.
Proof. solve_decision. Defined.

(** The tree at [p] has the shape of the descriptor [data]: the node is
    at an address outside [old], it has the id and the field name of the
    descriptor and [parent] as its parent, and its children are, in order,
    trees of the shape of the nested descriptors. *)
Fixpoint mirrors (old : gset addr) (s : State) (parent p : addr)
  (data : proto.RGQLQueryTreeNode) {struct data} : Prop :=
  match data with
  | proto.Build_RGQLQueryTreeNode id fieldName _ children =>
      (p ∉ old)
      ∧ ∃ n, heap s !! p = Some n
          ∧ Id n = id ∧ FieldName n = fieldName ∧ Parent n = Some parent
          ∧ (fix all (cs : list addr) (ds : list proto.RGQLQueryTreeNode)
                 {struct ds} : Prop :=
               match ds, cs with
               | [], [] => True
               | d :: ds', c :: cs' => mirrors old s p c d ∧ all cs' ds'
               | _, _ => False
               end) (Children n) children
  end.

(** Every node of [s] is still there in [s'], with the same value of the
    field [proj]. *)
Definition preserves {A} (proj : QueryTreeNode → A) (s s' : State) : Prop :=
  ∀ p n, heap s !! p = Some n →
    ∃ n', heap s' !! p = Some n' ∧ proj n' = proj n.

(** From [s] to [s'] nodes have only lost: the same nodes are there,
    each with its identity, with children and index entries of before at
    most, and without arguments if it had none. *)
Definition wanes (s s' : State) : Prop :=
  dom (heap s') = dom (heap s)
  ∧ ∀ x n, heap s !! x = Some n →
      ∃ n', heap s' !! x = Some n' ∧ shrinks n n'
            ∧ (Arguments n = None → Arguments n' = None).

(** The node at [x] has been disposed of: it lists no children, holds no
    arguments, and the index of its root has no entry for its id. *)
Definition disposed (s : State) (x : addr) : Prop :=
  ∃ n, heap s !! x = Some n ∧ Children n = [] ∧ Arguments n = None
       ∧ ∀ root, Root n = Some root → root_index s root !! Id n = None.

(** The subscriptions of [p] are those of before and have received
    further updates, none of which tells of the deletion of [p]. *)
Definition spared (p : addr) (s s' : State) : Prop :=
  ∃ updates, subscriptions s' p = told updates (subscriptions s p)
             ∧ Forall (λ update, Operation update ≠ Operation_Delete) updates.

(** ** Induction on descriptors *)

Fixpoint RGQLQueryTreeNode_ind (P : proto.RGQLQueryTreeNode → Prop)
  (step : ∀ id fieldName args children,
      Forall P children →
      P (proto.Build_RGQLQueryTreeNode id fieldName args children))
  (data : proto.RGQLQueryTreeNode) : P data :=
  match data with
  | proto.Build_RGQLQueryTreeNode id fieldName args children =>
      step id fieldName args children
        ((fix all (l : list proto.RGQLQueryTreeNode) : Forall P l :=
            match l with
            | [] => @List.Forall_nil _ P
            | child :: rest =>
                @List.Forall_cons _ P child rest (RGQLQueryTreeNode_ind P step child)
                  (all rest)
            end) children)
  end.

(** ** A schema to run the code on *)

Module Example.

Definition Query : list ast.FieldDefinition :=
  [ {| ast.Name := "user"; ast.Type' := ast.Named "User" |};
    {| ast.Name := "count"; ast.Type' := ast.Named "Int" |} ].

Definition User : list ast.FieldDefinition :=
  [ {| ast.Name := "name"; ast.Type' := ast.NonNull (ast.Named "String") |};
    {| ast.Name := "email"; ast.Type' := ast.Named "String" |};
    {| ast.Name := "friends";
       ast.Type' := ast.List (ast.NonNull (ast.Named "User")) |} ].

(** The GraphQL scalars. *)
Definition types_IsPrimitive (name : string) : bool :=
  bool_decide (name ∈ ["Int"; "Float"; "String"; "Boolean"; "ID"]).

Definition LookupType (t : ast.Type_) : option ast.TypeDefinition :=
  match t with
  | ast.Named "User" => Some (ast.ObjectDefinition "User" User)
  | ast.Named "Query" => Some (ast.ObjectDefinition "Query" Query)
  | _ => None
  end.

Definition tree : State := (NewQueryTree "Query" Query).1.
Definition root : addr := (NewQueryTree "Query" Query).2.

Definition descriptor (id : Z) (fieldName : string)
  (args : list proto.FieldArgument)
  (children : list proto.RGQLQueryTreeNode) : proto.RGQLQueryTreeNode :=
  proto.Build_RGQLQueryTreeNode id fieldName args children.

Definition add (nodeId : Z) (node : proto.RGQLQueryTreeNode)
  : proto.NodeMutation :=
  {| proto.NodeId := nodeId; proto.Operation := proto.SUBTREE_ADD_CHILD;
     proto.Node := node |}.

Definition del (nodeId : Z) : proto.NodeMutation :=
  {| proto.NodeId := nodeId; proto.Operation := proto.SUBTREE_DELETE;
     proto.Node := descriptor 0 "" [] [] |}.

Definition arg (name : string) (variableId : Z) : proto.FieldArgument :=
  {| proto.Name := name; proto.VariableId := variableId |}.

Definition batch (variables : list proto.ASTVariable)
  (ops : list proto.NodeMutation) : proto.RGQLTreeMutation :=
  {| proto.Variables := variables; proto.NodeMutation' := ops |}.

Definition apply (fuel : nat) (s : State) (m : proto.RGQLTreeMutation) :=
  ApplyTreeMutation types_IsPrimitive LookupType fuel s root m.

(** The state a call leaves, by return or by panic. *)
Definition after {A} (o : outcome A) : State :=
  match o with Done _ s | Panic s => s | OutOfFuel => tree end.

Definition alice : proto.ASTVariable :=
  {| proto.Id := 1; proto.Value := "alice" |}.
Definition bob : proto.ASTVariable :=
  {| proto.Id := 2; proto.Value := "bob" |}.

(** The tree with the variables 1 and 2 in its store: the state in which
    [ApplyTreeMutation], given these variables, starts on the node
    operations. *)
Definition tree_vars : State := putVariables tree [alice; bob].

(** Node 1 selects [count], an [Int], under the root. *)
Definition tree_count : State :=
  after (apply 1 tree (batch [] [add 0 (descriptor 1 "count" [] [])])).

(** Node 1 selects [user] under the root. *)
Definition tree_user : State :=
  after (apply 1 tree (batch [] [add 0 (descriptor 1 "user" [] [])])).

(** Node 1 selects [user]; under it node 2 selects [name] and node 3
    selects [email] with an argument bound to variable 1. *)
Definition tree_user2 : State :=
  after (apply 1 tree
           (batch [alice]
              [add 0 (descriptor 1 "user" []
                        [descriptor 2 "name" [] [];
                         descriptor 3 "email" [arg "a" 1] []])])).

(** [tree_user] with one subscription on the root and one on node 1. *)
Definition watched : State :=
  (SubscribeChanges (SubscribeChanges tree_user root).1 1%nat).1.

Definition name2 : proto.RGQLQueryTreeNode := descriptor 2 "name" [] [].

(** [watched] after node 2 ([name]) is added under node 1. *)
Definition added : State :=
  after (AddChild types_IsPrimitive LookupType watched 1%nat name2).

Definition friends2 : proto.RGQLQueryTreeNode :=
  descriptor 2 "friends" [] [descriptor 3 "nope" [] []].

(** [watched] after the node for [friends2] is made under node 1, and
    after the whole call, which fails on the nested descriptor. *)
Definition minted : State :=
  after (mintChild types_IsPrimitive LookupType watched 1%nat friends2).
Definition rolled_back : State :=
  after (AddChild types_IsPrimitive LookupType watched 1%nat friends2).

(** The node at an address of a state, for the addresses that hold one. *)
Definition node_at (s : State) (p : addr) : QueryTreeNode :=
  default
    {| Id := 0; idCounter := 0; Root := None; Parent := None; Children := [];
       RootNodeMap := None; FieldName := ""; AST := None;
       IsPrimitive := false; PrimitiveName := ""; Arguments := None;
       subCtr := 0; subscribers := ∅ |}
    (heap s !! p).

(** Node 1 selects [user] and node 2, under it, selects [name]: a chain. *)
Definition user_name : proto.RGQLQueryTreeNode :=
  descriptor 1 "user" [] [descriptor 2 "name" [] []].

Definition tree_chain : State :=
  after (apply 1 tree (batch [] [add 0 user_name])).

(** The new tree after [AddChild] with [user_name] on the root. *)
Definition tree_grown : State :=
  after (AddChild types_IsPrimitive LookupType tree root user_name).

(** A root whose subscription counter has come to the largest 32-bit
    number while subscription 0 is still there. *)
Definition crowded : State :=
  update_node tree root
    (with_subscribers (2 ^ 32 - 1)
       {[ 0 := [{| Operation := Operation_AddChild; Child := Some 1%nat |}] ]}).

Definition flat_unknown : proto.RGQLQueryTreeNode :=
  descriptor 5 "user" [arg "a" 99] [].

Definition one_failing_add : proto.RGQLTreeMutation :=
  batch [] [add 0 (descriptor 5 "nope" [] []); del 7].

End Example.

(** ** Properties of the code *)

Section Properties.

Variable types_IsPrimitive : string → bool.
Variable LookupType : ast.Type_ → option ast.TypeDefinition.

#[local] Abbreviation AddChild := (AddChild types_IsPrimitive LookupType).
#[local] Abbreviation applyChildren := (applyChildren types_IsPrimitive LookupType).
#[local] Abbreviation mintChild := (mintChild types_IsPrimitive LookupType).
#[local] Abbreviation validate := (validate types_IsPrimitive LookupType).
#[local] Abbreviation applyNodeMutation := (applyNodeMutation types_IsPrimitive LookupType).
#[local] Abbreviation applyNodeMutations := (applyNodeMutations types_IsPrimitive LookupType).
#[local] Abbreviation ApplyTreeMutation := (ApplyTreeMutation types_IsPrimitive LookupType).
#[local] Abbreviation step := (step types_IsPrimitive LookupType).
#[local] Abbreviation reachable := (reachable types_IsPrimitive LookupType).

(** [AddChild], one level unfolded. *)
Lemma AddChild_unfold s qt data :
  AddChild s qt data =
  match mintChild s qt data with
  | Done (inl err) s' => Done (Some err) s'
  | Done (inr nnod) s1 =>
      match applyChildren s1 nnod (proto.Children data) with
      | Done None s2 =>
          Done None
            (nextUpdate s2 qt
               {| Operation := Operation_AddChild; Child := Some nnod |})
      | Done (Some err) s2 =>
          match rollback s2 qt nnod with
          | Done _ s3 => Done (Some err) s3
          | Panic s3 => Panic s3
          | OutOfFuel => OutOfFuel
          end
      | Panic s2 => Panic s2
      | OutOfFuel => OutOfFuel
      end
  | Panic s' => Panic s'
  | OutOfFuel => OutOfFuel
  end.
Proof.
  destruct data as [id fieldName args children]. cbn [AddChild].
  destruct (mintChild s qt _) as [[err|nnod] s1|s1|]; try reflexivity.
  cbn [proto.Children].
  match goal with
  | |- match ?f s1 children with _ => _ end = _ =>
      assert (Heq : ∀ l s0, f s0 l = applyChildren s0 nnod l)
  end.
  { induction l as [|child rest IH]; intros s0; [reflexivity|].
    cbn [applyChildren].
    destruct (AddChild s0 nnod child) as [[e|] s'|s'|]; try reflexivity.
    apply IH. }
  rewrite Heq. reflexivity.
Qed.


(** *** Properties that every step of the code keeps *)

Section Steps.

Variable R : State → State → Prop.
Context `{!PreOrder R}.

Hypothesis R_mintChild : ∀ s qt data s',
  final (mintChild s qt data) = Some s' → R s s'.
Hypothesis R_rollback : ∀ s qt nnod s',
  final (rollback s qt nnod) = Some s' → R s s'.
Hypothesis R_nextUpdate : ∀ s qt update, R s (nextUpdate s qt update).

Lemma applyChildren_steps nnod children :
  Forall (λ data, ∀ s qt s', final (AddChild s qt data) = Some s' → R s s')
    children →
  ∀ s s', final (applyChildren s nnod children) = Some s' → R s s'.
Proof.
  induction 1 as [|child rest Hchild _ IH]; intros s s'; cbn.
  - intros [= <-]. reflexivity.
  - destruct (AddChild s nnod child) as [[e|] s1|s1|] eqn:Hc; cbn;
      try (intros [= <-]; eapply Hchild; by rewrite Hc); try done.
    intros Hrest. transitivity s1; [eapply Hchild; by rewrite Hc | by apply IH].
Qed.

Lemma AddChild_steps data :
  ∀ s qt s', final (AddChild s qt data) = Some s' → R s s'.
Proof.
  induction data as [id fieldName args children IH]
    using RGQLQueryTreeNode_ind.
  intros s qt s'. rewrite AddChild_unfold.
  pose proof (R_mintChild s qt
                (proto.Build_RGQLQueryTreeNode id fieldName args children))
    as Hmint.
  destruct (mintChild s qt _) as [[err|nnod] s1|s1|]; cbn in *;
    try (intros [= <-]; by apply Hmint); try done.
  pose proof (applyChildren_steps nnod children IH s1) as Hloop.
  destruct (applyChildren s1 nnod children) as [[e|] s2|s2|]; cbn in *;
    try done.
  - pose proof (R_rollback s2 qt nnod) as Hroll.
    destruct (rollback s2 qt nnod) as [[] s3|s3|]; cbn in *; try done;
      intros [= <-]; (transitivity s1; [by apply Hmint|]);
      (transitivity s2; [by apply Hloop | by apply Hroll]).
  - intros [= <-]. transitivity s1; [by apply Hmint|].
    transitivity s2; [by apply Hloop | apply R_nextUpdate].
  - intros [= <-]. transitivity s1; [by apply Hmint | by apply Hloop].
Qed.

Hypothesis R_clearChildren : ∀ s p, R s (update_node s p (with_Children [])).
Hypothesis R_deleteFromRootIndex : ∀ s p, R s (deleteFromRootIndex s p).
Hypothesis R_removeFromParent : ∀ s p, R s (removeFromParent s p).
Hypothesis R_releaseArguments : ∀ s p, R s (releaseArguments s p).

Lemma rangeChildren_steps body qt :
  (∀ s child s', final (body s child) = Some s' → R s s') →
  ∀ rounds i s s',
    final (rangeChildren body qt rounds i s) = Some s' → R s s'.
Proof.
  intros Hbody. induction rounds as [|rounds IH]; intros i s s'; cbn.
  - intros [= <-]. reflexivity.
  - pose proof (Hbody s (heap s !! qt ≫= λ q, Children q !! i)) as Hb.
    destruct (body s _) as [[] s1|s1|]; cbn in *; try done.
    + intros Hrest. transitivity s1; [by apply Hb | by eapply IH].
    + intros [= <-]. by apply Hb.
Qed.

Lemma Dispose_steps fuel :
  ∀ s qt s', final (Dispose fuel s qt) = Some s' → R s s'.
Proof.
  induction fuel as [|fuel IH]; intros s [p|] s'; cbn;
    try done; try (intros [= <-]; reflexivity).
  destruct (heap s !! p) as [q|]; [|intros [= <-]; reflexivity].
  pose proof (rangeChildren_steps (Dispose fuel) p IH (length (Children q))
                0%nat (nextUpdate s p
                         {| Operation := Operation_Delete; Child := None |}))
    as Hloop.
  destruct (rangeChildren _ _ _ _ _) as [[] s2|s2|]; cbn in *; try done.
  - intros [= <-]. etransitivity; [apply R_nextUpdate|].
    etransitivity; [by apply Hloop|].
    etransitivity; [apply R_clearChildren|].
    etransitivity; [apply R_deleteFromRootIndex|].
    etransitivity; [apply R_removeFromParent|].
    apply R_releaseArguments.
  - intros [= <-]. etransitivity; [apply R_nextUpdate | by apply Hloop].
Qed.

Hypothesis R_print_error : ∀ s err, R s (print_error s err).

Lemma applyNodeMutation_steps fuel s qt aqn s' :
  final (applyNodeMutation fuel s qt aqn) = Some s' → R s s'.
Proof.
  unfold applyNodeMutation.
  destruct (heap s !! qt ≫= Root) as [root|]; [|intros [= <-]; reflexivity].
  destruct (heap s !! root) as [r|]; [|intros [= <-]; reflexivity].
  destruct (default ∅ (RootNodeMap r) !! proto.NodeId aqn) as [nod|];
    [|intros [= <-]; reflexivity].
  destruct (proto.Operation aqn).
  - pose proof (AddChild_steps (proto.Node aqn) s nod) as Hadd.
    destruct (AddChild s nod _) as [[e|] s1|s1|]; cbn in *; try done;
      intros [= <-]; try by apply Hadd.
    etransitivity; [by apply Hadd | apply R_print_error].
  - destruct (_ && _); [apply Dispose_steps | intros [= <-]; reflexivity].
  - intros [= <-]. reflexivity.
Qed.

Lemma applyNodeMutations_steps fuel qt ops :
  ∀ s s', final (applyNodeMutations fuel s qt ops) = Some s' → R s s'.
Proof.
  induction ops as [|aqn rest IH]; intros s s'; cbn.
  - intros [= <-]. reflexivity.
  - pose proof (applyNodeMutation_steps fuel s qt aqn) as Hop.
    destruct (applyNodeMutation fuel s qt aqn) as [[] s1|s1|]; cbn in *;
      try done.
    + intros Hrest. transitivity s1; [by apply Hop | by apply IH].
    + intros [= <-]. by apply Hop.
Qed.

End Steps.


(** *** The calls on the Variable Store *)

#[local] Instance calls_extend_preorder : PreOrder calls_extend.
Proof.
  split.
  - intros s. exists []. by rewrite app_nil_r.
  - intros s1 s2 s3 (m1 & E1 & F1) (m2 & E2 & F2). exists (m1 ++ m2).
    rewrite E2, E1, <- app_assoc. split; [done | by apply Forall_app].
Qed.


Lemma store_update_node s p f : store (update_node s p f) = store s.
Proof. reflexivity. Qed.

Lemma store_nextUpdate s qt update : store (nextUpdate s qt update) = store s.
Proof. reflexivity. Qed.

Lemma store_removeChild s qt nod : store (removeChild s qt nod) = store s.
Proof.
  unfold removeChild. destruct (heap s !! qt) as [n|]; [|done].
  by destruct (list_find _ _) as [[i item]|].
Qed.








Lemma deleteFromRootIndex_store s p : store (deleteFromRootIndex s p) = store s.
Proof.
  unfold deleteFromRootIndex. destruct (heap s !! p) as [q|]; [|done].
  by destruct (Root q).
Qed.

Lemma removeFromParent_store s p : store (removeFromParent s p) = store s.
Proof.
  unfold removeFromParent. destruct (heap s !! p) as [q|]; [|done].
  destruct (Parent q); [apply store_removeChild | done].
Qed.



Lemma putVariables_heap variables : ∀ s, heap (putVariables s variables) = heap s.
Proof.
  unfold putVariables. induction variables as [|v l IH]; intros s; cbn; [done|].
  by rewrite IH.
Qed.







(** *** What stays of a node *)

Lemma same_identity_refl n : same_identity n n.
Proof. by repeat split. Qed.

#[local] Instance persists_preorder : PreOrder persists.
Proof.
  split.
  - intros s p n Hp. exists n. split; [done | apply same_identity_refl].
  - intros s1 s2 s3 H12 H23 p n Hp.
    destruct (H12 p n Hp) as (n2 & Hp2 & I2).
    destruct (H23 p n2 Hp2) as (n3 & Hp3 & I3).
    exists n3. split; [done|]. unfold same_identity in *.
    destruct_and!. repeat split; congruence.
Qed.

Lemma persists_heap s s' : heap s' = heap s → persists s s'.
Proof.
  intros E p n Hp. exists n. rewrite E. split; [done | apply same_identity_refl].
Qed.

Lemma persists_update_node s p f :
  (∀ n, same_identity n (f n)) → persists s (update_node s p f).
Proof.
  intros Hf p' n Hp. cbn. destruct (decide (p = p')) as [->|Hne].
  - exists (f n). by rewrite lookup_alter_eq, Hp.
  - exists n. rewrite lookup_alter_ne by done.
    split; [done | apply same_identity_refl].
Qed.

Lemma persists_nextUpdate s qt update : persists s (nextUpdate s qt update).
Proof. apply persists_update_node. intros n. by repeat split. Qed.

Lemma persists_removeChild s qt nod : persists s (removeChild s qt nod).
Proof.
  unfold removeChild. destruct (heap s !! qt) as [n|]; [|reflexivity].
  destruct (list_find _ _) as [[i item]|]; [|reflexivity].
  etransitivity; [|apply persists_nextUpdate].
  apply persists_update_node. intros ?. by repeat split.
Qed.

Lemma validate_heap s n data s' r :
  validate s n data = (s', r) → heap s' = heap s.
Proof.
  unfold validate.
  destruct (default ∅ (RootNodeMap n) !! _); [by intros [= <- _]|].
  destruct (AST n) as [[odName odFields| | | | |]|]; try by intros [= <- _].
  destruct (selectField _ _); [|by intros [= <- _]].
  destruct (classify _ _ _); [by intros [= <- _]|].
  destruct (resolveArgs _ _ _) as [vs [err|argMap]]; by intros [= <- _].
Qed.

Lemma persists_mint s qt n data c argMap s' :
  final (mint s qt n data c argMap) = Some s' → persists s s'.
Proof.
  unfold mint. set (nnod := fresh (dom (heap s))).
  assert (Hfresh : heap s !! nnod = None)
    by apply not_elem_of_dom, is_fresh.
  match goal with
  | |- final (match Root n with Some _ => _ | None => Panic ?s2 end) = _ → _ =>
      assert (H2 : persists s s2)
  end.
  { etransitivity; [|apply persists_update_node; intros ?; by repeat split].
    intros p m Hp. exists m. cbn. rewrite lookup_insert_ne by congruence.
    split; [done | apply same_identity_refl]. }
  destruct (Root n) as [root|]; [|by intros [= <-]].
  destruct (heap _ !! root) as [r|]; [|by intros [= <-]].
  destruct (RootNodeMap r); intros [= <-]; [|done].
  etransitivity; [exact H2|]. apply persists_update_node.
  intros ?. by repeat split.
Qed.

Lemma persists_mintChild s qt data s' :
  final (mintChild s qt data) = Some s' → persists s s'.
Proof.
  unfold mintChild.
  destruct (heap s !! qt) as [n|]; [|intros [= <-]; reflexivity].
  destruct (validate s n data) as [s1 [err|[c argMap]]] eqn:Hv;
    apply validate_heap in Hv.
  - intros [= <-]. by apply persists_heap.
  - pose proof (persists_mint s1 qt n data c argMap) as Hm.
    destruct (mint _ _ _ _ _ _) as [nnod s2|s2|]; cbn in *; try done;
      intros [= <-]; (etransitivity; [by apply persists_heap|]); by apply Hm.
Qed.

Lemma persists_rollback s qt nnod s' :
  final (rollback s qt nnod) = Some s' → persists s s'.
Proof.
  unfold rollback. pose proof (persists_removeChild s qt nnod) as H1.
  destruct (heap _ !! qt) as [q|]; [|by intros [= <-]].
  destruct (heap _ !! nnod) as [nn|]; [|by intros [= <-]].
  destruct (Root q); intros [= <-]; [|done].
  etransitivity; [exact H1|]. apply persists_update_node.
  intros ?. by repeat split.
Qed.

Lemma persists_deleteFromRootIndex s p : persists s (deleteFromRootIndex s p).
Proof.
  unfold deleteFromRootIndex. destruct (heap s !! p) as [q|]; [|reflexivity].
  destruct (Root q); [|reflexivity].
  apply persists_update_node. intros ?. by repeat split.
Qed.

Lemma persists_removeFromParent s p : persists s (removeFromParent s p).
Proof.
  unfold removeFromParent. destruct (heap s !! p) as [q|]; [|reflexivity].
  destruct (Parent q); [apply persists_removeChild | reflexivity].
Qed.

Lemma persists_releaseArguments s p : persists s (releaseArguments s p).
Proof.
  unfold releaseArguments. destruct (heap s !! p) as [q|]; [|reflexivity].
  destruct (Arguments q); [|reflexivity].
  etransitivity; [|apply persists_update_node; intros ?; by repeat split].
  by apply persists_heap.
Qed.

Lemma persists_AddChild s qt data s' :
  final (AddChild s qt data) = Some s' → persists s s'.
Proof.
  apply (AddChild_steps persists).
  - apply persists_mintChild.
  - apply persists_rollback.
  - apply persists_nextUpdate.
Qed.

Lemma persists_Dispose fuel s qt s' :
  final (Dispose fuel s qt) = Some s' → persists s s'.
Proof.
  apply (Dispose_steps persists).
  - apply persists_nextUpdate.
  - intros. apply persists_update_node. intros ?. by repeat split.
  - apply persists_deleteFromRootIndex.
  - apply persists_removeFromParent.
  - apply persists_releaseArguments.
Qed.

Lemma persists_applyNodeMutations fuel qt ops s s' :
  final (applyNodeMutations fuel s qt ops) = Some s' → persists s s'.
Proof.
  apply (applyNodeMutations_steps persists).
  - apply persists_mintChild.
  - apply persists_rollback.
  - apply persists_nextUpdate.
  - intros. apply persists_update_node. intros ?. by repeat split.
  - apply persists_deleteFromRootIndex.
  - apply persists_removeFromParent.
  - apply persists_releaseArguments.
  - intros. by apply persists_heap.
Qed.

Lemma persists_ApplyTreeMutation fuel s qt mutation s' :
  final (ApplyTreeMutation fuel s qt mutation) = Some s' → persists s s'.
Proof.
  unfold ApplyTreeMutation.
  destruct (heap s !! qt); [|intros [= <-]; reflexivity].
  pose proof (persists_applyNodeMutations fuel qt
                (proto.NodeMutation' mutation)
                (putVariables s (proto.Variables mutation))) as Hops.
  assert (Hput : persists s (putVariables s (proto.Variables mutation)))
    by apply persists_heap, putVariables_heap.
  destruct (applyNodeMutations _ _ _ _) as [[] s2|s2|]; cbn in *; try done;
    intros [= <-]; (etransitivity; [exact Hput|]).
  - etransitivity; [by apply Hops | by apply persists_heap].
  - by apply Hops.
Qed.

Lemma persists_step s s' : step s s' → persists s s'.
Proof.
  destruct 1 as [fuel s qt mutation s' H|s qt data s' H|fuel s qt s' H|s qt|s qt id].
  - by apply persists_ApplyTreeMutation in H.
  - by apply persists_AddChild in H.
  - by apply persists_Dispose in H.
  - unfold SubscribeChanges. destruct (heap s !! qt); [|reflexivity].
    apply persists_update_node. intros ?. by repeat split.
  - apply persists_update_node. intros ?. by repeat split.
Qed.

Lemma persists_rtc s s' : rtc step s s' → persists s s'.
Proof.
  induction 1 as [|s1 s2 s3 H12 _ IH]; [reflexivity|].
  etransitivity; [by apply persists_step | exact IH].
Qed.


(** *** Primitive leaves *)

#[local] Instance keeps_preorder P : PreOrder (keeps P).
Proof.
  split.
  - intros s H. exact H.
  - intros s1 s2 s3 H12 H23 H. apply H23, H12, H.
Qed.

Lemma keeps_heap P s s' :
  (∀ s1 s2, heap s2 = heap s1 → P s1 → P s2) → heap s' = heap s → keeps P s s'.
Proof. intros HP E H. by apply (HP s). Qed.

Lemma leaves_ok_heap s s' : heap s' = heap s → leaves_ok s → leaves_ok s'.
Proof. intros E H p n. rewrite E. apply H. Qed.

Lemma leaves_ok_update_node s p f :
  (∀ n, heap s !! p = Some n → leaf_ok n → leaf_ok (f n)) →
  keeps leaves_ok s (update_node s p f).
Proof.
  intros Hf H p' n'. cbn. destruct (decide (p = p')) as [->|Hne].
  - rewrite lookup_alter_eq. destruct (heap s !! p') as [n|] eqn:Hp; [|done].
    intros [= <-]. apply Hf; [done | by apply (H p')].
  - rewrite lookup_alter_ne by done. apply H.
Qed.

Lemma leaves_ok_nextUpdate s qt update :
  keeps leaves_ok s (nextUpdate s qt update).
Proof. apply leaves_ok_update_node. intros n _ H. exact H. Qed.

Lemma leaf_ok_delete_child i n :
  leaf_ok n → leaf_ok (with_Children (delete i (Children n)) n).
Proof.
  intros H Hp. destruct (H Hp) as (? & ? & E). cbn. by rewrite E.
Qed.

Lemma leaves_ok_removeChild s qt nod : keeps leaves_ok s (removeChild s qt nod).
Proof.
  unfold removeChild. destruct (heap s !! qt) as [n|] eqn:Hq; [|reflexivity].
  destruct (list_find _ _) as [[i item]|]; [|reflexivity].
  etransitivity; [|apply leaves_ok_nextUpdate].
  apply leaves_ok_update_node. intros n' Hn'. rewrite Hq in Hn'.
  injection Hn' as <-. intros Hok Hp. destruct (Hok Hp) as (? & ? & E).
  cbn. by rewrite E.
Qed.

Lemma leaf_ok_index_delete id n :
  leaf_ok n → leaf_ok (with_RootNodeMap (delete id <$> RootNodeMap n) n).
Proof.
  intros H Hp. destruct (H Hp) as (? & E & ?). cbn. by rewrite E.
Qed.

Lemma classify_primitive selectedField c :
  classify types_IsPrimitive LookupType selectedField = inr c →
  isPrimitive c = true → selectedTypeDef c = None.
Proof.
  unfold classify. destruct (unwrapNonNull _) as [name|t|t].
  - destruct (types_IsPrimitive name); [by intros [= <-]|].
    destruct (LookupType _); [|done]. by intros [= <-].
  - destruct (LookupType _); [|done]. by intros [= <-].
  - destruct (LookupType _); [|done]. by intros [= <-].
Qed.

Lemma validate_inr s n data s' c argMap :
  validate s n data = (s', inr (c, argMap)) →
  default ∅ (RootNodeMap n) !! proto.Id' data = None
  ∧ ∃ odName odFields selectedField,
      AST n = Some (ast.ObjectDefinition odName odFields)
      ∧ selectField odFields (proto.FieldName data) = Some selectedField
      ∧ classify types_IsPrimitive LookupType selectedField = inr c.
Proof.
  unfold validate.
  destruct (default ∅ (RootNodeMap n) !! _); [done|].
  destruct (AST n) as [[odName odFields| | | | |]|]; try done.
  destruct (selectField _ _) as [sf|] eqn:Hsf; [|done].
  destruct (classify _ _ _) as [|c'] eqn:Hc; [done|].
  destruct (resolveArgs _ _ _) as [vs [err|argMap']]; [done|].
  intros [= _ <- _]. split; [done|]. by exists odName, odFields, sf.
Qed.

Lemma leaves_ok_mint s qt n data c argMap s' :
  heap s !! qt = Some n → ¬ IsPrimitive n = true →
  (isPrimitive c = true → selectedTypeDef c = None) →
  final (mint s qt n data c argMap) = Some s' → keeps leaves_ok s s'.
Proof.
  intros Hq Hn Hc Hfin Hok. revert Hfin.
  unfold mint. set (nnod := fresh (dom (heap s))).
  assert (Hfresh : nnod ≠ qt).
  { intros E. apply (is_fresh (dom (heap s))). fold nnod. rewrite E.
    apply elem_of_dom. by eexists. }
  match goal with
  | |- final (match Root n with Some _ => _ | None => Panic ?s2 end) = _ → _ =>
      assert (H2 : leaves_ok s2)
  end.
  { apply leaves_ok_update_node.
    - intros q. cbn. rewrite lookup_insert_ne by done. rewrite Hq.
      intros [= <-] _ Hp. done.
    - intros p m. cbn. destruct (decide (nnod = p)) as [<-|Hne].
      + rewrite lookup_insert_eq. intros [= <-] Hp. cbn in *.
        split; [by apply Hc | done].
      + rewrite lookup_insert_ne by done. apply Hok. }
  destruct (Root n) as [root|]; [|by intros [= <-]].
  destruct (heap _ !! root) as [r|] eqn:Hr; [|by intros [= <-]].
  destruct (RootNodeMap r) as [m|] eqn:Hm; intros [= <-]; [|done].
  apply leaves_ok_update_node; [|done].
  intros r' Hr'. rewrite Hr in Hr'. injection Hr' as <-.
  intros Hokr Hp. destruct (Hokr Hp) as (_ & E & _). congruence.
Qed.

Lemma leaves_ok_mintChild s qt data s' :
  final (mintChild s qt data) = Some s' → keeps leaves_ok s s'.
Proof.
  unfold mintChild.
  destruct (heap s !! qt) as [n|] eqn:Hq; [|intros [= <-]; reflexivity].
  destruct (validate s n data) as [s1 [err|[c argMap]]] eqn:Hv.
  { intros [= <-]. apply validate_heap in Hv. intros H.
    by apply (leaves_ok_heap s). }
  pose proof (validate_heap _ _ _ _ _ Hv) as Hheap.
  apply validate_inr in Hv as (_ & odName & odFields & sf & HAST & _ & Hc).
  intros Hfin Hok. assert (Hok1 : leaves_ok s1) by by apply (leaves_ok_heap s).
  assert (Hn : ¬ IsPrimitive n = true).
  { intros Hp. destruct (Hok qt n Hq Hp) as (E & _). congruence. }
  assert (Hq1 : heap s1 !! qt = Some n) by by rewrite Hheap.
  pose proof (leaves_ok_mint s1 qt n data c argMap) as Hm.
  destruct (mint _ _ _ _ _ _) as [nnod s2|s2|]; cbn in *; try done;
    injection Hfin as <-;
    (apply Hm; [done | done | by apply (classify_primitive sf) | done | done]).
Qed.

Lemma leaves_ok_rollback s qt nnod s' :
  final (rollback s qt nnod) = Some s' → keeps leaves_ok s s'.
Proof.
  unfold rollback. pose proof (leaves_ok_removeChild s qt nnod) as H1.
  destruct (heap _ !! qt) as [q|]; [|by intros [= <-]].
  destruct (heap _ !! nnod) as [nn|]; [|by intros [= <-]].
  destruct (Root q); intros [= <-]; [|done].
  etransitivity; [exact H1|]. apply leaves_ok_update_node.
  intros r _. apply leaf_ok_index_delete.
Qed.

Lemma leaves_ok_deleteFromRootIndex s p :
  keeps leaves_ok s (deleteFromRootIndex s p).
Proof.
  unfold deleteFromRootIndex. destruct (heap s !! p) as [q|]; [|reflexivity].
  destruct (Root q); [|reflexivity].
  apply leaves_ok_update_node. intros r _. apply leaf_ok_index_delete.
Qed.

Lemma leaves_ok_removeFromParent s p : keeps leaves_ok s (removeFromParent s p).
Proof.
  unfold removeFromParent. destruct (heap s !! p) as [q|]; [|reflexivity].
  destruct (Parent q); [apply leaves_ok_removeChild | reflexivity].
Qed.

Lemma leaves_ok_releaseArguments s p :
  keeps leaves_ok s (releaseArguments s p).
Proof.
  unfold releaseArguments. destruct (heap s !! p) as [q|]; [|reflexivity].
  destruct (Arguments q); [|reflexivity].
  etransitivity; [|apply leaves_ok_update_node; intros n _ H; exact H].
  intros H. by apply (leaves_ok_heap s).
Qed.

Lemma leaves_ok_clearChildren s p :
  keeps leaves_ok s (update_node s p (with_Children [])).
Proof.
  apply leaves_ok_update_node. intros n _ H Hp.
  destruct (H Hp) as (? & ? & _). done.
Qed.

Lemma leaves_ok_step s s' : step s s' → keeps leaves_ok s s'.
Proof.
  destruct 1 as [fuel s qt mutation s' H|s qt data s' H|fuel s qt s' H|s qt|s qt id].
  - revert H. unfold ApplyTreeMutation.
    destruct (heap s !! qt); [|intros [= <-]; reflexivity].
    set (s1 := putVariables s (proto.Variables mutation)).
    assert (Hput : keeps leaves_ok s s1).
    { intros H. apply (leaves_ok_heap s); [apply putVariables_heap | done]. }
    assert (Hops : ∀ s2, final (applyNodeMutations fuel s1 qt
                                  (proto.NodeMutation' mutation)) = Some s2 →
                         keeps leaves_ok s1 s2).
    { intros s2. apply (applyNodeMutations_steps (keeps leaves_ok)).
      - apply leaves_ok_mintChild.
      - apply leaves_ok_rollback.
      - apply leaves_ok_nextUpdate.
      - apply leaves_ok_clearChildren.
      - apply leaves_ok_deleteFromRootIndex.
      - apply leaves_ok_removeFromParent.
      - apply leaves_ok_releaseArguments.
      - intros s0 err H. by apply (leaves_ok_heap s0). }
    destruct (applyNodeMutations _ _ _ _) as [[] s2|s2|]; cbn in *; try done;
      intros [= <-]; (etransitivity; [exact Hput|]).
    + etransitivity; [by apply Hops|]. intros H. by apply (leaves_ok_heap s2).
    + by apply Hops.
  - revert H. apply (AddChild_steps (keeps leaves_ok)).
    + apply leaves_ok_mintChild.
    + apply leaves_ok_rollback.
    + apply leaves_ok_nextUpdate.
  - revert H. apply (Dispose_steps (keeps leaves_ok)).
    + apply leaves_ok_nextUpdate.
    + apply leaves_ok_clearChildren.
    + apply leaves_ok_deleteFromRootIndex.
    + apply leaves_ok_removeFromParent.
    + apply leaves_ok_releaseArguments.
  - unfold SubscribeChanges. destruct (heap s !! qt); [|reflexivity].
    apply leaves_ok_update_node. intros n _ H. exact H.
  - apply leaves_ok_update_node. intros n _ H. exact H.
Qed.

Lemma leaves_ok_NewQueryTree rootName rootFields :
  leaves_ok (NewQueryTree rootName rootFields).1.
Proof.
  intros p n. cbn. intros H. apply lookup_singleton_Some in H as [_ <-].
  intros Hp. done.
Qed.

Lemma leaves_ok_rtc s s' : rtc step s s' → keeps leaves_ok s s'.
Proof.
  induction 1 as [|s1 s2 s3 H12 _ IH]; [reflexivity|].
  etransitivity; [by apply leaves_ok_step | exact IH].
Qed.

Lemma reachable_leaves_ok s : reachable s → leaves_ok s.
Proof.
  intros (rootName & rootFields & H).
  by apply (leaves_ok_rtc _ _ H), leaves_ok_NewQueryTree.
Qed.

Lemma reachable_rtc s s' : reachable s → rtc step s s' → reachable s'.
Proof.
  intros (rootName & rootFields & H) H'. exists rootName, rootFields.
  by etransitivity.
Qed.



(** *** The loop over the node operations *)





(** *** Who is told what *)

Lemma told_nil subs : told [] subs = subs.
Proof.
  apply map_eq. intros i. unfold told. rewrite lookup_fmap.
  destruct (subs !! i); cbn; [by rewrite app_nil_r | done].
Qed.

Lemma told_told us1 us2 subs : told us2 (told us1 subs) = told (us1 ++ us2) subs.
Proof.
  apply map_eq. intros i. unfold told. rewrite !lookup_fmap.
  destruct (subs !! i); cbn; [by rewrite app_assoc | done].
Qed.

Lemma told_empty us : told us ∅ = ∅.
Proof. apply fmap_empty. Qed.

Lemma tell_told update subs : tell update subs = told [update] subs.
Proof. reflexivity. Qed.

#[local] Instance frame_at_preorder qt : PreOrder (frame_at qt).
Proof.
  split.
  - intros s. repeat split; try done. exists []. by rewrite told_nil.
  - intros s1 s2 s3 (D12 & S12 & C12 & us1 & T12) (D23 & S23 & C23 & us2 & T23).
    split; [by transitivity (dom (heap s2))|]. split; [|split].
    + intros p Hp. by rewrite S23, S12.
    + intros p Hp Hin. rewrite C23, C12; [done..|]. by apply D12.
    + exists (us1 ++ us2). by rewrite T23, T12, told_told.
Qed.

Lemma frame_at_heap qt s s' : heap s' = heap s → frame_at qt s s'.
Proof.
  intros E. unfold frame_at, subscriptions, children_of. rewrite E.
  repeat split; try done. exists []. by rewrite told_nil.
Qed.

Lemma dom_update_node s p f : dom (heap (update_node s p f)) = dom (heap s).
Proof. cbn. apply dom_alter_L. Qed.

Lemma subscriptions_update_node s p f p' :
  (∀ n, subscribers (f n) = subscribers n) →
  subscriptions (update_node s p f) p' = subscriptions s p'.
Proof.
  intros Hf. unfold subscriptions. cbn.
  destruct (decide (p = p')) as [->|Hne].
  - rewrite lookup_alter_eq. destruct (heap s !! p'); cbn; [by rewrite Hf|done].
  - by rewrite lookup_alter_ne.
Qed.

Lemma children_of_update_node s p f p' :
  (∀ n, Children (f n) = Children n) →
  children_of (update_node s p f) p' = children_of s p'.
Proof.
  intros Hf. unfold children_of. cbn.
  destruct (decide (p = p')) as [->|Hne].
  - rewrite lookup_alter_eq. destruct (heap s !! p'); cbn; [by rewrite Hf|done].
  - by rewrite lookup_alter_ne.
Qed.

Lemma children_of_update_node_ne s p f p' :
  p ≠ p' → children_of (update_node s p f) p' = children_of s p'.
Proof. intros Hne. unfold children_of. cbn. by rewrite lookup_alter_ne. Qed.

Lemma subscriptions_nextUpdate s qt update p :
  subscriptions (nextUpdate s qt update) p
  = if decide (p = qt) then tell update (subscriptions s qt)
    else subscriptions s p.
Proof.
  unfold subscriptions, nextUpdate. cbn. case_decide as Hp.
  - subst p. rewrite lookup_alter_eq.
    destruct (heap s !! qt); cbn; [done | symmetry; apply fmap_empty].
  - by rewrite lookup_alter_ne.
Qed.

Lemma children_of_nextUpdate s qt update p :
  children_of (nextUpdate s qt update) p = children_of s p.
Proof. by apply children_of_update_node. Qed.

Lemma dom_nextUpdate s qt update :
  dom (heap (nextUpdate s qt update)) = dom (heap s).
Proof. apply dom_update_node. Qed.

Lemma frame_at_nextUpdate s qt update :
  frame_at qt s (nextUpdate s qt update).
Proof.
  split; [by rewrite dom_nextUpdate|]. split; [|split].
  - intros p Hp. rewrite subscriptions_nextUpdate. by case_decide.
  - intros p _ _. apply children_of_nextUpdate.
  - exists [update]. rewrite subscriptions_nextUpdate. by case_decide.
Qed.

(** [removeChild] tells the subscribers of [qt] when [nod] is among its
    children, and nobody otherwise. *)
Lemma removeChild_frame s qt nod :
  dom (heap (removeChild s qt nod)) = dom (heap s)
  ∧ (∀ p, p ≠ qt → subscriptions (removeChild s qt nod) p = subscriptions s p)
  ∧ (∀ p, p ≠ qt → children_of (removeChild s qt nod) p = children_of s p)
  ∧ subscriptions (removeChild s qt nod) qt
    = if decide (nod ∈ children_of s qt)
      then tell {| Operation := Operation_DelChild; Child := Some nod |}
             (subscriptions s qt)
      else subscriptions s qt.
Proof.
  unfold removeChild. destruct (heap s !! qt) as [n|] eqn:Hq.
  2: { assert (Hc : children_of s qt = [])
         by (unfold children_of; by rewrite Hq).
       rewrite Hc. repeat split; done. }
  assert (Hc : children_of s qt = Children n)
    by (unfold children_of; by rewrite Hq).
  rewrite Hc. destruct (list_find _ _) as [[i item]|] eqn:Hfind.
  - apply list_find_Some in Hfind as (Hi & -> & _).
    split; [by rewrite dom_nextUpdate, dom_update_node|]. split; [|split].
    + intros p Hp. rewrite subscriptions_nextUpdate. case_decide; [done|].
      by apply subscriptions_update_node.
    + intros p Hp. rewrite children_of_nextUpdate.
      by apply children_of_update_node_ne.
    + rewrite subscriptions_nextUpdate. case_decide; [|done].
      rewrite subscriptions_update_node by done.
      case_decide as Hin; [done|]. exfalso. apply Hin.
      by eapply list_elem_of_lookup_2.
  - repeat split; try done. case_decide as Hin; [|done]. exfalso.
    apply list_find_None in Hfind. rewrite Forall_forall in Hfind.
    by apply (Hfind nod).
Qed.

Lemma frame_at_removeChild s qt nod : frame_at qt s (removeChild s qt nod).
Proof.
  destruct (removeChild_frame s qt nod) as (D & S & C & T).
  split; [by rewrite D|]. split; [done|]. split; [intros p Hp _; by apply C|].
  rewrite T. case_decide; [by eexists [_] | exists []; by rewrite told_nil].
Qed.

Lemma frame_at_index s qt root f :
  (∀ n, subscribers (f n) = subscribers n) →
  (∀ n, Children (f n) = Children n) →
  frame_at qt s (update_node s root f).
Proof.
  intros Hs Hc. split; [by rewrite dom_update_node|]. split; [|split].
  - intros p _. by apply subscriptions_update_node.
  - intros p _ _. by apply children_of_update_node.
  - exists []. rewrite told_nil. by apply subscriptions_update_node.
Qed.


Lemma subscriptions_fresh s p : p ∉ dom (heap s) → subscriptions s p = ∅.
Proof.
  intros H. apply not_elem_of_dom in H. unfold subscriptions. by rewrite H.
Qed.

Lemma children_of_lookup s p n : heap s !! p = Some n → children_of s p = Children n.
Proof. intros H. unfold children_of. by rewrite H. Qed.

(** What lines 156-172 do to the tree. *)
Lemma mint_Done s qt n data c argMap nnod s' :
  heap s !! qt = Some n →
  mint s qt n data c argMap = Done nnod s' →
  nnod = fresh (dom (heap s))
  ∧ dom (heap s') = {[nnod]} ∪ dom (heap s)
  ∧ (∀ p, subscriptions s' p = subscriptions s p)
  ∧ children_of s' qt = children_of s qt ++ [nnod]
  ∧ (∀ p, p ≠ qt → p ∈ dom (heap s) → children_of s' p = children_of s p)
  ∧ ∃ nn, heap s' !! nnod = Some nn ∧ Id nn = proto.Id' data
          ∧ Parent nn = Some qt.
Proof.
  intros Hq. unfold mint. set (a := fresh (dom (heap s))).
  assert (Ha : a ∉ dom (heap s)) by apply is_fresh.
  assert (Haq : a ≠ qt).
  { intros E. apply Ha. rewrite E. apply elem_of_dom. by eexists. }
  set (new := {| Id := proto.Id' data; idCounter := 0; Root := Root n;
                 Parent := Some qt; Children := []; RootNodeMap := None;
                 FieldName := proto.FieldName data;
                 AST := selectedTypeDef c; IsPrimitive := isPrimitive c;
                 PrimitiveName := primitiveName c; Arguments := Some argMap;
                 subCtr := 0; subscribers := ∅ |}).
  set (s1 := set_heap s (<[a := new]> (heap s))).
  set (s2 := update_node s1 qt (λ q, with_Children (Children q ++ [a]) q)).
  assert (S1 : ∀ p, subscriptions s1 p = subscriptions s p).
  { intros p. unfold subscriptions at 1. cbn.
    destruct (decide (a = p)) as [<-|Hne].
    - rewrite lookup_insert_eq. cbn. by rewrite subscriptions_fresh.
    - by rewrite lookup_insert_ne. }
  assert (C1 : ∀ p, p ≠ a → children_of s1 p = children_of s p).
  { intros p Hp. unfold children_of. cbn. by rewrite lookup_insert_ne. }
  assert (S2 : ∀ p, subscriptions s2 p = subscriptions s p).
  { intros p. unfold s2. by rewrite subscriptions_update_node. }
  assert (C2 : children_of s2 qt = children_of s qt ++ [a]).
  { unfold s2, children_of at 1. cbn. rewrite lookup_alter_eq.
    rewrite lookup_insert_ne, Hq by done. cbn.
    by rewrite (children_of_lookup s qt n). }
  assert (C2' : ∀ p, p ≠ qt → p ∈ dom (heap s) →
                     children_of s2 p = children_of s p).
  { intros p Hp Hin. unfold s2. rewrite children_of_update_node_ne by done.
    apply C1. intros ->. done. }
  assert (N2 : heap s2 !! a = Some new).
  { unfold s2. cbn. rewrite lookup_alter_ne by done. apply lookup_insert_eq. }
  assert (D2 : dom (heap s2) = {[a]} ∪ dom (heap s)).
  { unfold s2. rewrite dom_update_node. cbn. apply dom_insert_L. }
  destruct (Root n) as [root|]; [|done].
  destruct (heap s2 !! root) as [r|] eqn:Hr; [|done].
  destruct (RootNodeMap r) as [m|] eqn:Hm; [|done].
  intros [= <- <-]. split; [done|].
  split; [by rewrite dom_update_node|].
  split; [intros p; by rewrite subscriptions_update_node|].
  split; [by rewrite children_of_update_node|].
  split; [intros p Hp Hin; rewrite children_of_update_node by done;
          by apply C2'|].
  destruct (persists_update_node s2 root
              (with_RootNodeMap (Some (<[proto.Id' data := a]> m)))
              ltac:(intros ?; by repeat split) a new N2)
    as (nn & Hnn & I).
  exists nn. split; [done|]. unfold same_identity in I. subst new.
  cbn in I. by destruct_and!.
Qed.

Lemma mintChild_inr s qt data nnod s1 :
  mintChild s qt data = Done (inr nnod) s1 →
  nnod = fresh (dom (heap s))
  ∧ qt ∈ dom (heap s)
  ∧ dom (heap s1) = {[nnod]} ∪ dom (heap s)
  ∧ (∀ p, subscriptions s1 p = subscriptions s p)
  ∧ children_of s1 qt = children_of s qt ++ [nnod]
  ∧ (∀ p, p ≠ qt → p ∈ dom (heap s) → children_of s1 p = children_of s p)
  ∧ ∃ nn, heap s1 !! nnod = Some nn ∧ Id nn = proto.Id' data
          ∧ Parent nn = Some qt.
Proof.
  unfold mintChild. destruct (heap s !! qt) as [n|] eqn:Hq; [|done].
  destruct (validate s n data) as [s0 [err|[c argMap]]] eqn:Hv; [done|].
  apply validate_heap in Hv.
  destruct (mint _ _ _ _ _ _) as [a s2|s2|] eqn:Hm; try done.
  intros [= <- <-]. apply mint_Done in Hm; [|by rewrite Hv].
  unfold subscriptions, children_of in *. rewrite Hv in Hm.
  destruct Hm as (? & ? & ? & ? & ? & ?). repeat split; try done.
  apply elem_of_dom. by eexists.
Qed.

Lemma mintChild_inl s qt data err s' :
  mintChild s qt data = Done (inl err) s' → heap s' = heap s.
Proof.
  unfold mintChild. destruct (heap s !! qt) as [n|]; [|done].
  destruct (validate s n data) as [s0 [e|[c argMap]]] eqn:Hv.
  - intros [= _ <-]. by apply validate_heap in Hv.
  - by destruct (mint _ _ _ _ _ _).
Qed.

(** What the deferred cleanup does to the tree. *)
Lemma rollback_Done s qt nnod s' :
  rollback s qt nnod = Done tt s' →
  dom (heap s') = dom (heap s)
  ∧ (∀ p, p ≠ qt → subscriptions s' p = subscriptions s p)
  ∧ (∀ p, p ≠ qt → children_of s' p = children_of s p)
  ∧ subscriptions s' qt
    = if decide (nnod ∈ children_of s qt)
      then tell {| Operation := Operation_DelChild; Child := Some nnod |}
             (subscriptions s qt)
      else subscriptions s qt.
Proof.
  unfold rollback. destruct (removeChild_frame s qt nnod) as (D & S & C & T).
  destruct (heap _ !! qt) as [q|]; [|done].
  destruct (heap _ !! nnod) as [nn|]; [|done].
  destruct (Root q) as [root|]; [|done]. intros [= <-].
  split; [by rewrite dom_update_node|].
  split; [intros p Hp; rewrite subscriptions_update_node by done; by apply S|].
  split; [intros p Hp; rewrite children_of_update_node by done; by apply C|].
  by rewrite subscriptions_update_node.
Qed.

Lemma elem_of_snoc (l : list nat) (x : nat) : x ∈ l ++ [x].
Proof. apply elem_of_app. right. by apply list_elem_of_singleton. Qed.

Lemma elem_of_dom_grown (X X' : gset nat) (a p : nat) :
  X' = {[a]} ∪ X → p ∈ X → p ∈ X'.
Proof. intros -> H. apply elem_of_union. by right. Qed.

Lemma subseteq_dom_grown (X X1 X2 : gset nat) (a : nat) :
  X1 = {[a]} ∪ X → X1 ⊆ X2 → X ⊆ X2.
Proof.
  intros -> H p Hp. apply H, elem_of_union. by right.
Qed.

Lemma applyChildren_frame nnod children :
  Forall (λ data, ∀ s qt r s', AddChild s qt data = Done r s' →
                               frame_at qt s s') children →
  ∀ s r s', applyChildren s nnod children = Done r s' → frame_at nnod s s'.
Proof.
  induction 1 as [|child rest Hchild _ IH]; intros s r s'; cbn.
  - intros [= _ <-]. reflexivity.
  - destruct (AddChild s nnod child) as [[e|] s1|s1|] eqn:Hc; try done.
    + intros [= _ <-]. by eapply Hchild.
    + intros Hrest. transitivity s1; [by eapply Hchild | by eapply IH].
Qed.

(** [AddChild] on [qt] tells the subscriptions of [qt] about the new node,
    once, and tells no other subscription anything: that the node was added
    when the call succeeds, that it was removed when the call fails after
    the node was made. *)
Lemma AddChild_frame data : ∀ s qt r s',
  AddChild s qt data = Done r s' →
  frame_at qt s s'
  ∧ match mintChild s qt data with
    | Done (inr nnod) _ =>
        subscriptions s' qt
        = tell {| Operation := match r with
                               | None => Operation_AddChild
                               | Some _ => Operation_DelChild
                               end;
                  Child := Some nnod |} (subscriptions s qt)
        ∧ (r = None → nnod ∈ children_of s' qt)
    | Done (inl _) _ => heap s' = heap s
    | _ => False
    end.
Proof.
  induction data as [id fieldName args children IH]
    using RGQLQueryTreeNode_ind.
  assert (IH' : Forall (λ data, ∀ s qt r s', AddChild s qt data = Done r s' →
                                             frame_at qt s s') children).
  { eapply Forall_impl; [exact IH|]. intros d Hd s qt r s' H.
    by destruct (Hd s qt r s' H). }
  intros s qt r s'. rewrite AddChild_unfold.
  destruct (mintChild s qt _) as [[err|nnod] s1|s1|] eqn:Hmint; try done.
  { intros [= _ <-]. apply mintChild_inl in Hmint.
    split; [by apply frame_at_heap | done]. }
  apply mintChild_inr in Hmint as (Hnn & Hqt & D1 & S1 & C1 & C1' & _).
  assert (Hfresh : nnod ∉ dom (heap s)) by (rewrite Hnn; apply is_fresh).
  assert (Hne : qt ≠ nnod) by (intros ->; done).
  cbn [proto.Children].
  destruct (applyChildren s1 nnod children) as [[e|] s2|s2|] eqn:Hloop;
    try done;
    apply (applyChildren_frame nnod children IH') in Hloop
      as (D2 & S2 & C2 & us & T2).
  - (* a nested descriptor failed *)
    destruct (rollback s2 qt nnod) as [[] s3|s3|] eqn:Hroll; try done.
    intros [= <- <-]. apply rollback_Done in Hroll as (D3 & S3 & C3 & T3).
    assert (Hc2 : children_of s2 qt = children_of s qt ++ [nnod]).
    { rewrite C2, C1; [done..|]. by apply (elem_of_dom_grown _ _ _ _ D1). }
    rewrite decide_True in T3 by (rewrite Hc2; apply elem_of_snoc).
    assert (Hs2 : subscriptions s2 qt = subscriptions s qt)
      by by rewrite S2, S1.
    rewrite Hs2 in T3. split; [|done].
    split; [rewrite D3; by apply (subseteq_dom_grown _ _ _ _ D1)|].
    split; [|split].
    + intros p Hp. rewrite S3 by done.
      destruct (decide (p = nnod)) as [->|Hpn].
      * rewrite T2, S1, (subscriptions_fresh s nnod) by done. apply told_empty.
      * by rewrite S2, S1.
    + intros p Hp Hin. rewrite C3 by done.
      rewrite C2; [by apply C1'| |].
      * intros ->. done.
      * by apply (elem_of_dom_grown _ _ _ _ D1).
    + eexists [_]. exact T3.
  - (* every nested descriptor was applied *)
    intros [= <- <-].
    assert (Hs2 : subscriptions s2 qt = subscriptions s qt)
      by by rewrite S2, S1.
    assert (T3 : subscriptions (nextUpdate s2 qt
                   {| Operation := Operation_AddChild; Child := Some nnod |}) qt
                 = tell {| Operation := Operation_AddChild;
                           Child := Some nnod |} (subscriptions s qt)).
    { rewrite subscriptions_nextUpdate, decide_True by done. by rewrite Hs2. }
    split; [|split; [done|]].
    + split; [rewrite dom_nextUpdate; by apply (subseteq_dom_grown _ _ _ _ D1)|].
      split; [|split].
      * intros p Hp. rewrite subscriptions_nextUpdate, decide_False by done.
        destruct (decide (p = nnod)) as [->|Hpn].
        -- rewrite T2, S1, (subscriptions_fresh s nnod) by done.
           apply told_empty.
        -- by rewrite S2, S1.
      * intros p Hp Hin. rewrite children_of_nextUpdate.
        rewrite C2; [by apply C1'| |].
        -- intros ->. done.
        -- by apply (elem_of_dom_grown _ _ _ _ D1).
      * eexists [_]. exact T3.
    + intros _. rewrite children_of_nextUpdate, C2, C1;
        [apply elem_of_snoc | done | by apply (elem_of_dom_grown _ _ _ _ D1)].
Qed.


Lemma persists_applyChildren nnod children s s' :
  final (applyChildren s nnod children) = Some s' → persists s s'.
Proof.
  apply (applyChildren_steps persists).
  rewrite Forall_forall. intros data _ s0 qt s0'. apply persists_AddChild.
Qed.

(** A call that returns no error has made its node: the node is still in
    the heap when the call returns, with the id of the descriptor and [qt]
    as its parent. *)
Lemma AddChild_success_node s qt data s' :
  AddChild s qt data = Done None s' →
  ∃ nn, heap s' !! fresh (dom (heap s)) = Some nn
        ∧ Id nn = proto.Id' data ∧ Parent nn = Some qt.
Proof.
  rewrite AddChild_unfold.
  destruct (mintChild s qt data) as [[err|nnod] s1|s1|] eqn:Hmint; try done.
  apply mintChild_inr in Hmint
    as (Hfresh & _ & _ & _ & _ & _ & nn & Hnn & Hid & Hpar).
  rewrite <- Hfresh.
  pose proof (persists_applyChildren nnod (proto.Children data) s1) as Hloop.
  destruct (applyChildren s1 nnod _) as [[e|] s2|s2|]; try done.
  - by destruct (rollback s2 qt nnod) as [[] s3|s3|].
  - intros [= <-].
    destruct (Hloop s2 eq_refl _ nn Hnn) as (n2 & Hn2 & I2).
    destruct (persists_nextUpdate s2 qt
                {| Operation := Operation_AddChild; Child := Some nnod |}
                _ n2 Hn2) as (n3 & Hn3 & I3).
    exists n3. split; [done|]. unfold same_identity in *. destruct_and!.
    split; congruence.
Qed.






(** *** Fuel *)

Lemma foldr_max_gt (l : list nat) (x : nat) :
  x ∈ l → (x < foldr (Nat.max ∘ S) 0 l)%nat.
Proof.
  induction l as [|y l IH]; [by intros ?%elem_of_nil|].
  intros [->|Hin]%elem_of_cons; cbn; [lia|]. specialize (IH Hin). lia.
Qed.

(** The allocator hands out an address above every address in use. *)
Lemma fresh_gt (X : gset nat) (x : nat) : x ∈ X → (x < fresh X)%nat.
Proof. intros Hin. apply foldr_max_gt. by apply elem_of_elements. Qed.

Lemma ranked_le bound bound' s :
  (bound ≤ bound')%nat → ranked bound s → ranked bound' s.
Proof. intros Hle H p n c Hp Hc. specialize (H p n c Hp Hc). lia. Qed.

Lemma ranked_heap bound s s' : heap s' = heap s → ranked bound s → ranked bound s'.
Proof. intros E H p n c. rewrite E. apply H. Qed.

Lemma ranked_update_node bound s p f :
  (∀ n, Children (f n) ⊆ Children n) →
  keeps (ranked bound) s (update_node s p f).
Proof.
  intros Hf H p' n' c. cbn. destruct (decide (p = p')) as [->|Hne].
  - rewrite lookup_alter_eq. destruct (heap s !! p') as [n|] eqn:Hp; [|done].
    intros [= <-] Hc. apply (H p' n c Hp). by apply Hf.
  - rewrite lookup_alter_ne by done. apply H.
Qed.

Lemma ranked_nextUpdate bound s qt update :
  keeps (ranked bound) s (nextUpdate s qt update).
Proof. by apply ranked_update_node. Qed.

Lemma ranked_removeChild bound s qt nod :
  keeps (ranked bound) s (removeChild s qt nod).
Proof.
  unfold removeChild. destruct (heap s !! qt) as [n|] eqn:Hq; [|reflexivity].
  destruct (list_find _ _) as [[i item]|]; [|reflexivity].
  etransitivity; [|apply ranked_nextUpdate].
  intros H p' n' c. cbn. destruct (decide (qt = p')) as [<-|Hne].
  - rewrite lookup_alter_eq, Hq. intros [= <-]. cbn. intros Hc.
    apply (H qt n c Hq). by eapply list_elem_of_delete_inv.
  - rewrite lookup_alter_ne by done. apply H.
Qed.

Lemma ranked_rollback bound s qt nnod s' :
  final (rollback s qt nnod) = Some s' → keeps (ranked bound) s s'.
Proof.
  unfold rollback. pose proof (ranked_removeChild bound s qt nnod) as H1.
  destruct (heap _ !! qt) as [q|]; [|by intros [= <-]].
  destruct (heap _ !! nnod) as [nn|]; [|by intros [= <-]].
  destruct (Root q); intros [= <-]; [|done].
  etransitivity; [exact H1|]. by apply ranked_update_node.
Qed.

Lemma ranked_deleteFromRootIndex bound s p :
  keeps (ranked bound) s (deleteFromRootIndex s p).
Proof.
  unfold deleteFromRootIndex. destruct (heap s !! p) as [q|]; [|reflexivity].
  destruct (Root q); [|reflexivity]. by apply ranked_update_node.
Qed.

Lemma ranked_removeFromParent bound s p :
  keeps (ranked bound) s (removeFromParent s p).
Proof.
  unfold removeFromParent. destruct (heap s !! p) as [q|]; [|reflexivity].
  destruct (Parent q); [apply ranked_removeChild | reflexivity].
Qed.

Lemma ranked_releaseArguments bound s p :
  keeps (ranked bound) s (releaseArguments s p).
Proof.
  unfold releaseArguments. destruct (heap s !! p) as [q|]; [|reflexivity].
  destruct (Arguments q); [|reflexivity].
  etransitivity; [|by apply ranked_update_node].
  intros H. by apply (ranked_heap bound s).
Qed.

Lemma ranked_clearChildren bound s p :
  keeps (ranked bound) s (update_node s p (with_Children [])).
Proof. apply ranked_update_node. intros n c Hc. by apply elem_of_nil in Hc. Qed.

(** [Dispose] only takes children away. *)
Lemma ranked_Dispose bound fuel s qt s' :
  final (Dispose fuel s qt) = Some s' → keeps (ranked bound) s s'.
Proof.
  apply (Dispose_steps (keeps (ranked bound))).
  - apply ranked_nextUpdate.
  - apply ranked_clearChildren.
  - apply ranked_deleteFromRootIndex.
  - apply ranked_removeFromParent.
  - apply ranked_releaseArguments.
Qed.

Lemma forest_keeps_ranked s s' :
  (∀ bound, keeps (ranked bound) s s') → keeps forest s s'.
Proof. intros H [bound Hb]. exists bound. by apply H. Qed.

Lemma forest_mint s qt n data c argMap s' :
  heap s !! qt = Some n →
  final (mint s qt n data c argMap) = Some s' → keeps forest s s'.
Proof.
  intros Hq Hfin [bound Hb]. exists (Nat.max bound (S (fresh (dom (heap s))))).
  revert Hfin. unfold mint. set (a := fresh (dom (heap s))).
  assert (Hqa : (qt < a)%nat).
  { apply fresh_gt, elem_of_dom. by eexists. }
  match goal with
  | |- final (match Root n with Some _ => _ | None => Panic ?s2 end) = _ → _ =>
      assert (H2 : ranked (Nat.max bound (S a)) s2)
  end.
  { intros p m c'. cbn. destruct (decide (qt = p)) as [<-|Hne].
    - rewrite lookup_alter_eq, lookup_insert_ne, Hq by lia. intros [= <-].
      cbn. intros [Hc| ->%list_elem_of_singleton]%elem_of_app; [|lia].
      specialize (Hb qt n c' Hq Hc). lia.
    - rewrite lookup_alter_ne by done.
      destruct (decide (a = p)) as [<-|Hne'].
      + rewrite lookup_insert_eq. intros [= <-]. cbn.
        by intros ?%elem_of_nil.
      + rewrite lookup_insert_ne by done. intros Hp Hc.
        specialize (Hb p m c' Hp Hc). lia. }
  destruct (Root n) as [root|]; [|by intros [= <-]].
  destruct (heap _ !! root) as [r|]; [|by intros [= <-]].
  destruct (RootNodeMap r); intros [= <-]; [|done].
  by apply ranked_update_node.
Qed.

Lemma forest_mintChild s qt data s' :
  final (mintChild s qt data) = Some s' → keeps forest s s'.
Proof.
  unfold mintChild.
  destruct (heap s !! qt) as [n|] eqn:Hq; [|intros [= <-]; reflexivity].
  destruct (validate s n data) as [s1 [err|[c argMap]]] eqn:Hv;
    apply validate_heap in Hv.
  { intros [= <-] [bound Hb]. exists bound. by apply (ranked_heap bound s). }
  assert (H1 : keeps forest s s1).
  { intros [bound Hb]. exists bound. by apply (ranked_heap bound s). }
  assert (Hq1 : heap s1 !! qt = Some n) by by rewrite Hv.
  pose proof (forest_mint s1 qt n data c argMap) as Hm.
  destruct (mint _ _ _ _ _ _) as [nnod s2|s2|]; cbn in *; try done;
    intros [= <-]; (etransitivity; [exact H1 | by apply Hm]).
Qed.

Lemma forest_applyNodeMutation fuel s qt aqn s' :
  final (applyNodeMutation fuel s qt aqn) = Some s' → keeps forest s s'.
Proof.
  apply (applyNodeMutation_steps (keeps forest)).
  - apply forest_mintChild.
  - intros s0 q0 nnod s0' H. apply forest_keeps_ranked. intros bound.
    by apply (ranked_rollback bound s0 q0 nnod).
  - intros. apply forest_keeps_ranked. intros. apply ranked_nextUpdate.
  - intros. apply forest_keeps_ranked. intros. apply ranked_clearChildren.
  - intros. apply forest_keeps_ranked. intros.
    apply ranked_deleteFromRootIndex.
  - intros. apply forest_keeps_ranked. intros. apply ranked_removeFromParent.
  - intros. apply forest_keeps_ranked. intros. apply ranked_releaseArguments.
  - intros s0 err. apply forest_keeps_ranked. intros bound H.
    by apply (ranked_heap bound s0).
Qed.


Lemma rangeChildren_more_fuel body body' qt :
  (∀ s child o, body s child = o → o ≠ OutOfFuel → body' s child = o) →
  ∀ rounds i s o,
    rangeChildren body qt rounds i s = o → o ≠ OutOfFuel →
    rangeChildren body' qt rounds i s = o.
Proof.
  intros Hbody. induction rounds as [|rounds IH]; intros i s o; cbn; [done|].
  destruct (body s _) as [[] s1|s1|] eqn:Hb.
  - apply Hbody in Hb; [|done]. rewrite Hb. apply IH.
  - apply Hbody in Hb; [|done]. by rewrite Hb.
  - by intros <-.
Qed.

Lemma Dispose_nil fuel s : Dispose fuel s None = Panic s.
Proof. by destruct fuel. Qed.

Lemma Dispose_S fuel s p :
  Dispose (S fuel) s (Some p)
  = match heap s !! p with
    | None => Panic s
    | Some q =>
        match rangeChildren (Dispose fuel) p (length (Children q)) 0%nat
                (nextUpdate s p
                   {| Operation := Operation_Delete; Child := None |}) with
        | Done _ s2 =>
            Done tt
              (releaseArguments
                 (removeFromParent
                    (deleteFromRootIndex
                       (update_node s2 p (with_Children [])) p) p) p)
        | r => r
        end
    end.
Proof. reflexivity. Qed.

(** A call that did not run out of fuel does the same with more. *)
Lemma Dispose_more_fuel fuel : ∀ s qt o,
  Dispose fuel s qt = o → o ≠ OutOfFuel → Dispose (S fuel) s qt = o.
Proof.
  induction fuel as [|fuel IH]; intros s qt o.
  - destruct qt as [p|]; cbn; [by intros <- | done].
  - destruct qt as [p|]; [|done]. rewrite (Dispose_S (S fuel)), Dispose_S.
    destruct (heap s !! p) as [q|]; [|done].
    destruct (rangeChildren (Dispose fuel) _ _ _ _) as [[] s2|s2|] eqn:Hloop.
    + apply (rangeChildren_more_fuel _ (Dispose (S fuel)) p IH) in Hloop;
        [|done]. by rewrite Hloop.
    + apply (rangeChildren_more_fuel _ (Dispose (S fuel)) p IH) in Hloop;
        [|done]. by rewrite Hloop.
    + by intros <-.
Qed.

Lemma Dispose_fuel_le fuel fuel' s qt o :
  (fuel ≤ fuel')%nat →
  Dispose fuel s qt = o → o ≠ OutOfFuel → Dispose fuel' s qt = o.
Proof.
  induction 1 as [|fuel' _ IH]; [done|].
  intros H Ho. apply Dispose_more_fuel; [by apply IH | done].
Qed.

Lemma rangeChildren_enough_fuel bound fuel qt :
  (bound - qt ≤ fuel)%nat →
  (∀ s c, ranked bound s → (bound - c < fuel)%nat →
          Dispose fuel s (Some c) ≠ OutOfFuel) →
  ∀ rounds i s, ranked bound s →
    rangeChildren (Dispose fuel) qt rounds i s ≠ OutOfFuel.
Proof.
  intros Hfuel IHfuel. induction rounds as [|rounds IH]; intros i s Hr; cbn;
    [done|].
  destruct (heap s !! qt) as [q|] eqn:Hq; cbn; [|by rewrite Dispose_nil].
  destruct (Children q !! i) as [c|] eqn:Hc; [|by rewrite Dispose_nil].
  assert (Hlt : (qt < c < bound)%nat).
  { apply (Hr qt q c Hq). by eapply list_elem_of_lookup_2. }
  pose proof (IHfuel s c Hr ltac:(lia)) as Hd.
  pose proof (ranked_Dispose bound fuel s (Some c)) as Hk.
  destruct (Dispose fuel s (Some c)) as [[] s1|s1|]; try done.
  apply IH. by apply (Hk s1).
Qed.

(** In a forest [Dispose] comes to an end: fuel above the distance from
    the node to the bound of the addresses is enough. *)
Lemma Dispose_enough_fuel bound : ∀ fuel s p,
  ranked bound s → (bound - p < fuel)%nat →
  Dispose fuel s (Some p) ≠ OutOfFuel.
Proof.
  induction fuel as [|fuel IH]; intros s p Hr Hfuel; [lia|].
  rewrite Dispose_S. destruct (heap s !! p) as [q|]; [|done].
  pose proof (rangeChildren_enough_fuel bound fuel p ltac:(lia) IH
                (length (Children q)) 0%nat
                (nextUpdate s p
                   {| Operation := Operation_Delete; Child := None |})
                ltac:(by apply ranked_nextUpdate)) as Hloop.
  by destruct (rangeChildren _ _ _ _ _) as [[] s2|s2|].
Qed.






Lemma forest_step s s' : step s s' → keeps forest s s'.
Proof.
  destruct 1 as [fuel s qt mutation s' H|s qt data s' H|fuel s qt s' H|s qt|s qt id].
  - revert H. unfold ApplyTreeMutation.
    destruct (heap s !! qt); [|intros [= <-]; reflexivity].
    set (s1 := putVariables s (proto.Variables mutation)).
    assert (Hput : keeps forest s s1).
    { intros [bound Hb]. exists bound.
      apply (ranked_heap bound s); [apply putVariables_heap | done]. }
    assert (Hops : ∀ s2, final (applyNodeMutations fuel s1 qt
                                  (proto.NodeMutation' mutation)) = Some s2 →
                         keeps forest s1 s2).
    { intros s2. apply (applyNodeMutations_steps (keeps forest)).
      - apply forest_mintChild.
      - intros s0 q0 nnod s0' H. apply forest_keeps_ranked. intros bound.
        by apply (ranked_rollback bound s0 q0 nnod).
      - intros. apply forest_keeps_ranked. intros. apply ranked_nextUpdate.
      - intros. apply forest_keeps_ranked. intros. apply ranked_clearChildren.
      - intros. apply forest_keeps_ranked. intros.
        apply ranked_deleteFromRootIndex.
      - intros. apply forest_keeps_ranked. intros.
        apply ranked_removeFromParent.
      - intros. apply forest_keeps_ranked. intros.
        apply ranked_releaseArguments.
      - intros s0 err. apply forest_keeps_ranked. intros bound H.
        by apply (ranked_heap bound s0). }
    destruct (applyNodeMutations _ _ _ _) as [[] s2|s2|]; cbn in *; try done;
      intros [= <-]; (etransitivity; [exact Hput|]).
    + etransitivity; [by apply Hops|]. intros [bound Hb]. exists bound.
      by apply (ranked_heap bound s2).
    + by apply Hops.
  - revert H. apply (AddChild_steps (keeps forest)).
    + apply forest_mintChild.
    + intros s0 q0 nnod s0' H. apply forest_keeps_ranked. intros bound.
      by apply (ranked_rollback bound s0 q0 nnod).
    + intros. apply forest_keeps_ranked. intros. apply ranked_nextUpdate.
  - apply forest_keeps_ranked. intros bound.
    by apply (ranked_Dispose bound fuel s (Some qt)).
  - unfold SubscribeChanges. destruct (heap s !! qt); [|reflexivity].
    apply forest_keeps_ranked. intros. by apply ranked_update_node.
  - apply forest_keeps_ranked. intros. by apply ranked_update_node.
Qed.

Lemma reachable_forest s : reachable s → forest s.
Proof.
  intros (rootName & rootFields & H).
  assert (H0 : forest (NewQueryTree rootName rootFields).1).
  { exists 0%nat. intros p n c. cbn.
    intros [_ <-]%lookup_singleton_Some. cbn. by intros ?%elem_of_nil. }
  revert H0. induction H as [|s1 s2 s3 H12 _ IH]; [done|].
  intros H1. by apply IH, (forest_step s1).
Qed.


(** *** What the checks do get right *)

(** On a node that has an index of its own, which is the root, an id that
    the index holds is refused and nothing changes. *)
Lemma AddChild_duplicate_id_refused s qt n index data :
  heap s !! qt = Some n → RootNodeMap n = Some index →
  is_Some (index !! proto.Id' data) →
  AddChild s qt data = Done (Some (ErrInvalidNodeID (proto.Id' data))) s.
Proof.
  intros Hq Hmap [nod Hnod]. rewrite AddChild_unfold.
  unfold mintChild, validate.
  rewrite Hq, Hmap. cbn. by rewrite Hnod.
Qed.

Lemma unsubscribeAll_references vs argMap :
  vs_references (unsubscribeAll vs argMap) = vs_references vs ∖ held argMap.
Proof.
  unfold unsubscribeAll, held. generalize ((map_to_list argMap).*2).
  intros l. revert vs. induction l as [|ref l IH]; intros vs; cbn.
  - by rewrite difference_empty_L.
  - rewrite IH. cbn. by rewrite difference_difference_l_L.
Qed.

Lemma held_insert argMap name ref :
  argMap !! name = None → held (<[name := ref]> argMap) = {[ref]} ∪ held argMap.
Proof.
  intros Hnone. unfold held. apply set_eq. intros r.
  rewrite elem_of_list_to_set, elem_of_union, elem_of_singleton,
    elem_of_list_to_set.
  rewrite !list_elem_of_fmap. split.
  - intros ([k v] & -> & Hin). apply elem_of_map_to_list in Hin.
    apply lookup_insert_Some in Hin as [[_ <-]|[Hne Hk]]; [by left|].
    right. exists (k, v). split; [done|]. by apply elem_of_map_to_list.
  - intros [->|([k v] & -> & Hin)].
    + exists (name, ref). split; [done|]. apply elem_of_map_to_list.
      apply lookup_insert_eq.
    + exists (k, v). split; [done|]. apply elem_of_map_to_list.
      apply elem_of_map_to_list in Hin. rewrite lookup_insert_ne; [done|].
      intros ->. congruence.
Qed.

(** X9: when the references that are outstanding were all handed
    out by the store and no argument name is repeated, the cleanup of lines
    148-150 releases every reference that the loop of lines 144-154 has
    acquired before it fails: the outstanding references are those of
    before without the ones that [argMap] held at the start, none in
    [AddChild]. *)
Lemma resolveArgs_failure_releases args : ∀ vs argMap vs' err,
  (∀ ref, ref ∈ vs_references vs → (vr_id ref < vs_refCtr vs)%nat) →
  NoDup (proto.Name <$> args) →
  (∀ arg, arg ∈ args → argMap !! proto.Name arg = None) →
  resolveArgs vs argMap args = (vs', inl err) →
  vs_references vs' = vs_references vs ∖ held argMap.
Proof.
  induction args as [|arg rest IH]; intros vs argMap vs' err Hok Hnd Hfree;
    cbn; [done|].
  apply NoDup_cons in Hnd as [Hhead Hnd].
  unfold vs_Get. destruct (vs_variables vs !! proto.VariableId arg).
  - intros H.
    assert (Hnew : {| vr_variable := proto.VariableId arg;
                      vr_id := vs_refCtr vs |} ∉ vs_references vs).
    { intros Hin. apply Hok in Hin. cbn in Hin. lia. }
    apply IH in H.
    + rewrite H. cbn.
      rewrite held_insert by (apply Hfree, elem_of_cons; by left).
      apply set_eq. intros x.
      rewrite !elem_of_difference, !elem_of_union, !elem_of_singleton.
      split.
      * intros [[->|Hx] Hn]; [exfalso; apply Hn; by left|].
        split; [done|]. intros Hh. apply Hn. by right.
      * intros [Hx Hn]. split; [by right|]. intros [->|Hh]; done.
    + cbn. intros ref [->%elem_of_singleton|Hin]%elem_of_union; cbn; [lia|].
      apply Hok in Hin. lia.
    + done.
    + intros a Ha. rewrite lookup_insert_ne;
        [apply Hfree, elem_of_cons; by right|].
      intros E. apply Hhead. rewrite E. apply list_elem_of_fmap. by exists a.
  - intros [= <- _]. by rewrite unsubscribeAll_references.
Qed.

(** *** The claims *)

(** C5: in a state of the tree, [AddChild] on a node classified as a
    primitive leaf fails with the not-selectable error, whatever the
    descriptor, and leaves the state as it was; and whatever is called
    afterwards, the node is still a primitive leaf without children. *)
Theorem AddChild_primitive_not_selectable s qt n data :
  reachable s → heap s !! qt = Some n → IsPrimitive n = true →
  AddChild s qt data
  = Done (Some (ErrNotSelectable (proto.Id' data) None)) s
  ∧ error_kind (ErrNotSelectable (proto.Id' data) None) = NotSelectable
  ∧ ∀ s', rtc step s s' →
      ∃ n', heap s' !! qt = Some n' ∧ IsPrimitive n' = true
            ∧ Children n' = [].
Proof.
  intros Hreach Hq Hp. split; [|split; [done|]].
  - destruct (reachable_leaves_ok s Hreach qt n Hq Hp) as (HAST & Hmap & _).
    rewrite AddChild_unfold. unfold mintChild, validate.
    rewrite Hq, Hmap, HAST. cbn. by rewrite lookup_empty.
  - intros s' Hs'. destruct (persists_rtc s s' Hs' qt n Hq) as (n' & Hq' & I).
    exists n'. split; [done|]. unfold same_identity in I. destruct_and!.
    assert (Hp' : IsPrimitive n' = true) by congruence. split; [done|].
    assert (Hreach' : reachable s') by by apply (reachable_rtc s).
    by destruct (reachable_leaves_ok s' Hreach' qt n' Hq' Hp') as (_ & _ & ?).
Qed.



(** C9: when [AddChild] on [qt] returns no error, the node it made (at an
    address that held no node before, now a child of [qt] with the id of
    the descriptor) is announced to every subscription of [qt] by one
    add-child update, the only update the subscription receives during the
    call; no subscription of any other node receives anything. *)
Theorem AddChild_success_tells_parent_once s qt data s' :
  AddChild s qt data = Done None s' →
  let nnod := fresh (dom (heap s)) in
  heap s !! nnod = None
  ∧ (∃ nn, heap s' !! nnod = Some nn ∧ Id nn = proto.Id' data
           ∧ Parent nn = Some qt)
  ∧ nnod ∈ children_of s' qt
  ∧ subscriptions s' qt
    = tell {| Operation := Operation_AddChild; Child := Some nnod |}
        (subscriptions s qt)
  ∧ ∀ p, p ≠ qt → subscriptions s' p = subscriptions s p.
Proof.
  intros Hadd nnod.
  split; [apply not_elem_of_dom, is_fresh|].
  split; [by apply AddChild_success_node|].
  destruct (AddChild_frame data s qt None s' Hadd) as ((_ & S & _ & _) & H).
  destruct (mintChild s qt data) as [[err|a] s1|s1|] eqn:Hmint; try done.
  - (* the checks cannot have failed: the call would have returned the error *)
    rewrite AddChild_unfold, Hmint in Hadd. done.
  - apply mintChild_inr in Hmint as (-> & _). destruct H as (T & Hin).
    split; [by apply Hin|]. split; [exact T | exact S].
Qed.

(** C10: when [AddChild] on [qt] has made its node and then fails on a
    nested descriptor, every subscription of [qt] receives one update
    during the call, and it is the del-child update for that node, which
    held no node before the call: the removal is announced, the addition
    never was.  No subscription of any other node receives anything. *)
Theorem AddChild_rollback_tells_parent_of_removal s qt data nnod s1 err s' :
  mintChild s qt data = Done (inr nnod) s1 →
  AddChild s qt data = Done (Some err) s' →
  heap s !! nnod = None
  ∧ subscriptions s' qt
    = tell {| Operation := Operation_DelChild; Child := Some nnod |}
        (subscriptions s qt)
  ∧ (∀ p, p ≠ qt → subscriptions s' p = subscriptions s p)
  ∧ (∀ p, p ≠ qt → p ∈ dom (heap s) → children_of s' p = children_of s p).
Proof.
  intros Hmint Hadd.
  destruct (AddChild_frame data s qt (Some err) s' Hadd)
    as ((_ & S & C & _) & H).
  rewrite Hmint in H. destruct H as (T & _).
  apply mintChild_inr in Hmint as (-> & _).
  split; [apply not_elem_of_dom, is_fresh|]. done.
Qed.

(** *** Further properties of the code *)

#[local] Abbreviation classify := (classify types_IsPrimitive LookupType).

(** X1: a field is classified as a primitive leaf exactly when
    its type is the name of a primitive under at most one list wrapper and,
    inside it, at most one non-null wrapper; the new node then has no
    definition and carries the name.  A non-null list of a primitive is not
    such a type. *)
Theorem classify_primitive_iff selectedField name :
  classify selectedField
  = inr {| selectedTypeDef := None; isPrimitive := true;
           primitiveName := name |}
  ↔ types_IsPrimitive name = true
    ∧ ast.Type' selectedField
      ∈ [ast.Named name; ast.List (ast.Named name);
         ast.NonNull (ast.Named name);
         ast.List (ast.NonNull (ast.Named name))].
Proof.
  unfold classify. split.
  - destruct (ast.Type' selectedField) as [x|[x|t|[x|t|t]]|[x|t|t]]; cbn;
      repeat match goal with
             | |- context [types_IsPrimitive ?x] =>
                 destruct (types_IsPrimitive x) eqn:?
             | |- context [LookupType ?t] => destruct (LookupType t)
             end; intros [=]; subst; try congruence;
      (split; [done|]); rewrite !elem_of_cons; tauto.
  - intros [Hp Hin]. rewrite !elem_of_cons, elem_of_nil in Hin.
    destruct Hin as [->|[->|[->|[->|[]]]]]; cbn; by rewrite Hp.
Qed.

(** *** Every exported method *)

Section Methods.

Variable R : State → State → Prop.
Context `{!PreOrder R}.

Hypothesis R_mintChild : ∀ s qt data s',
  final (mintChild s qt data) = Some s' → R s s'.
Hypothesis R_rollback : ∀ s qt nnod s',
  final (rollback s qt nnod) = Some s' → R s s'.
Hypothesis R_nextUpdate : ∀ s qt update, R s (nextUpdate s qt update).
Hypothesis R_clearChildren : ∀ s p, R s (update_node s p (with_Children [])).
Hypothesis R_deleteFromRootIndex : ∀ s p, R s (deleteFromRootIndex s p).
Hypothesis R_removeFromParent : ∀ s p, R s (removeFromParent s p).
Hypothesis R_releaseArguments : ∀ s p, R s (releaseArguments s p).
Hypothesis R_print_error : ∀ s err, R s (print_error s err).
Hypothesis R_store : ∀ s vs, R s (set_store s vs).

Lemma putVariables_set_store variables : ∀ s,
  putVariables s variables = set_store s (store (putVariables s variables)).
Proof.
  unfold putVariables. induction variables as [|v l IH]; intros s; cbn.
  - by destruct s.
  - rewrite IH at 1. reflexivity.
Qed.

Lemma ApplyTreeMutation_steps fuel s qt mutation s' :
  final (ApplyTreeMutation fuel s qt mutation) = Some s' → R s s'.
Proof.
  unfold ApplyTreeMutation.
  destruct (heap s !! qt); [|intros [= <-]; reflexivity].
  set (s1 := putVariables s (proto.Variables mutation)).
  assert (H1 : R s s1).
  { unfold s1. rewrite putVariables_set_store. apply R_store. }
  pose proof (applyNodeMutations_steps R
                R_mintChild R_rollback R_nextUpdate R_clearChildren
                R_deleteFromRootIndex R_removeFromParent R_releaseArguments
                R_print_error fuel qt (proto.NodeMutation' mutation) s1)
    as Hops.
  destruct (applyNodeMutations _ _ _ _) as [[] s2|s2|]; cbn in *;
    try done; intros [= <-]; (transitivity s1; [exact H1|]).
  - transitivity s2; [by apply Hops | apply R_store].
  - by apply Hops.
Qed.

Hypothesis R_SubscribeChanges : ∀ s qt, R s (SubscribeChanges s qt).1.
Hypothesis R_removeSubscription : ∀ s qt id, R s (removeSubscription s qt id).

Lemma step_steps s s' : step s s' → R s s'.
Proof.
  destruct 1 as [fuel s qt mutation s' H|s qt data s' H|fuel s qt s' H|s qt|s qt id].
  - by apply ApplyTreeMutation_steps in H.
  - revert H. by apply (AddChild_steps R).
  - revert H. by apply (Dispose_steps R).
  - apply R_SubscribeChanges.
  - apply R_removeSubscription.
Qed.

Lemma rtc_steps s s' : rtc step s s' → R s s'.
Proof.
  induction 1 as [|s1 s2 s3 H12 _ IH]; [reflexivity|].
  transitivity s2; [by apply step_steps | exact IH].
Qed.

End Methods.

(** *** Properties of states that every method keeps *)

Lemma shrinks_refl n : shrinks n n.
Proof.
  split; [apply same_identity_refl|]. split; [done|].
  by destruct (RootNodeMap n).
Qed.

Lemma shrinks_subscribers c subs n : shrinks n (with_subscribers c subs n).
Proof.
  split; [by repeat split|]. split; [done|]. cbn. by destruct (RootNodeMap n).
Qed.

Lemma shrinks_arguments a n : shrinks n (with_Arguments a n).
Proof.
  split; [by repeat split|]. split; [done|]. cbn. by destruct (RootNodeMap n).
Qed.

Lemma shrinks_children cs n :
  sublist cs (Children n) → shrinks n (with_Children cs n).
Proof.
  intros H. split; [by repeat split|]. split; [done|]. cbn.
  by destruct (RootNodeMap n).
Qed.

Lemma shrinks_index id n :
  shrinks n (with_RootNodeMap (delete id <$> RootNodeMap n) n).
Proof.
  split; [by repeat split|]. split; [done|]. cbn.
  destruct (RootNodeMap n); cbn; [apply delete_subseteq | done].
Qed.

Section Invariant.

Variable P : State → Prop.

Hypothesis P_heap : ∀ s s', heap s' = heap s → keeps P s s'.
Hypothesis P_shrink : ∀ s p f,
  (∀ n, heap s !! p = Some n → shrinks n (f n)) →
  keeps P s (update_node s p f).
Hypothesis P_alloc : ∀ s qt n new,
  heap s !! qt = Some n →
  Root new = Root n → Parent new = Some qt → Children new = [] →
  RootNodeMap new = None →
  keeps P s
    (update_node (set_heap s (<[fresh (dom (heap s)) := new]> (heap s))) qt
       (λ q, with_Children (Children q ++ [fresh (dom (heap s))]) q)).
Hypothesis P_index : ∀ s root r m id nnod,
  heap s !! root = Some r → RootNodeMap r = Some m →
  id_of s nnod = Some id →
  keeps P s
    (update_node s root (with_RootNodeMap (Some (<[id := nnod]> m)))).

Lemma keeps_mint s qt n data c argMap s' :
  heap s !! qt = Some n →
  final (mint s qt n data c argMap) = Some s' → keeps P s s'.
Proof.
  intros Hq. unfold mint. set (a := fresh (dom (heap s))).
  assert (Haq : a ≠ qt).
  { intros E. apply (is_fresh (dom (heap s))). fold a. rewrite E.
    apply elem_of_dom. by eexists. }
  match goal with
  | |- final (match Root n with Some _ => _ | None => Panic ?s2 end) = _ → _ =>
      assert (H2 : keeps P s s2) by (subst a; apply (P_alloc s qt n); reflexivity || exact Hq);
      assert (Hid : id_of s2 a = Some (proto.Id' data))
  end.
  { unfold id_of. cbn. by rewrite lookup_alter_ne, lookup_insert_eq. }
  destruct (Root n) as [root|]; [|by intros [= <-]].
  destruct (heap _ !! root) as [r|] eqn:Hr; [|by intros [= <-]].
  destruct (RootNodeMap r) as [m|] eqn:Hm; intros [= <-]; [|done].
  etransitivity; [exact H2|]. by apply (P_index _ root r m).
Qed.

Lemma keeps_nextUpdate s qt update : keeps P s (nextUpdate s qt update).
Proof. apply P_shrink. intros n _. apply shrinks_subscribers. Qed.

Lemma keeps_removeChild s qt nod : keeps P s (removeChild s qt nod).
Proof.
  unfold removeChild. destruct (heap s !! qt) as [n|] eqn:Hq; [|reflexivity].
  destruct (list_find _ _) as [[i item]|]; [|reflexivity].
  etransitivity; [|apply keeps_nextUpdate].
  apply P_shrink. intros n0 Hn0. assert (n0 = n) as -> by congruence.
  apply shrinks_children, sublist_delete.
Qed.

Lemma keeps_rollback s qt nnod s' :
  final (rollback s qt nnod) = Some s' → keeps P s s'.
Proof.
  unfold rollback. pose proof (keeps_removeChild s qt nnod) as H1.
  destruct (heap _ !! qt) as [q|]; [|by intros [= <-]].
  destruct (heap _ !! nnod) as [nn|]; [|by intros [= <-]].
  destruct (Root q); intros [= <-]; [|done].
  etransitivity; [exact H1|]. apply P_shrink. intros r _. apply shrinks_index.
Qed.

Lemma keeps_mintChild s qt data s' :
  final (mintChild s qt data) = Some s' → keeps P s s'.
Proof.
  unfold mintChild.
  destruct (heap s !! qt) as [n|] eqn:Hq; [|intros [= <-]; reflexivity].
  destruct (validate s n data) as [s1 [err|[c argMap]]] eqn:Hv;
    apply validate_heap in Hv.
  - intros [= <-]. by apply P_heap.
  - assert (Hq1 : heap s1 !! qt = Some n) by by rewrite Hv.
    pose proof (keeps_mint s1 qt n data c argMap) as Hm.
    destruct (mint _ _ _ _ _ _) as [nnod s2|s2|]; cbn in *; try done;
      intros [= <-] H; apply Hm; try done; by apply (P_heap s).
Qed.

Lemma keeps_clearChildren s p : keeps P s (update_node s p (with_Children [])).
Proof.
  apply P_shrink. intros n _. apply shrinks_children, sublist_nil_l.
Qed.

Lemma keeps_deleteFromRootIndex s p : keeps P s (deleteFromRootIndex s p).
Proof.
  unfold deleteFromRootIndex. destruct (heap s !! p) as [q|]; [|reflexivity].
  destruct (Root q); [|reflexivity].
  apply P_shrink. intros r _. apply shrinks_index.
Qed.

Lemma keeps_removeFromParent s p : keeps P s (removeFromParent s p).
Proof.
  unfold removeFromParent. destruct (heap s !! p) as [q|]; [|reflexivity].
  destruct (Parent q); [apply keeps_removeChild | reflexivity].
Qed.

Lemma keeps_releaseArguments s p : keeps P s (releaseArguments s p).
Proof.
  unfold releaseArguments. destruct (heap s !! p) as [q|]; [|reflexivity].
  destruct (Arguments q); [|reflexivity].
  etransitivity; [|apply P_shrink; intros r _; apply shrinks_arguments].
  by apply P_heap.
Qed.

Lemma keeps_AddChild s qt data s' :
  final (AddChild s qt data) = Some s' → keeps P s s'.
Proof.
  apply (AddChild_steps (keeps P)).
  - apply keeps_mintChild.
  - apply keeps_rollback.
  - apply keeps_nextUpdate.
Qed.

Lemma keeps_applyChildren s nnod children s' :
  final (applyChildren s nnod children) = Some s' → keeps P s s'.
Proof.
  apply (applyChildren_steps (keeps P)).
  rewrite Forall_forall. intros data _ s0 qt s0'. apply keeps_AddChild.
Qed.

Lemma keeps_Dispose fuel s qt s' :
  final (Dispose fuel s qt) = Some s' → keeps P s s'.
Proof.
  apply (Dispose_steps (keeps P)).
  - apply keeps_nextUpdate.
  - apply keeps_clearChildren.
  - apply keeps_deleteFromRootIndex.
  - apply keeps_removeFromParent.
  - apply keeps_releaseArguments.
Qed.

Lemma keeps_rtc s s' : rtc step s s' → keeps P s s'.
Proof.
  apply (rtc_steps (keeps P)).
  - apply keeps_mintChild.
  - apply keeps_rollback.
  - apply keeps_nextUpdate.
  - apply keeps_clearChildren.
  - apply keeps_deleteFromRootIndex.
  - apply keeps_removeFromParent.
  - apply keeps_releaseArguments.
  - intros s0 err. by apply P_heap.
  - intros s0 vs. by apply P_heap.
  - intros s0 qt. unfold SubscribeChanges.
    destruct (heap s0 !! qt); [|reflexivity].
    apply P_shrink. intros n _. apply shrinks_subscribers.
  - intros s0 qt id. apply P_shrink. intros n _. apply shrinks_subscribers.
Qed.

End Invariant.

(** *** Children and parents *)

Lemma lookup_update_node s p f x :
  heap (update_node s p f) !! x
  = if decide (x = p) then f <$> heap s !! x else heap s !! x.
Proof.
  cbn. case_decide as E.
  - subst x. apply lookup_alter_eq.
  - by apply lookup_alter_ne.
Qed.

Lemma linked_update_node s p f :
  (∀ n, heap s !! p = Some n →
        Parent (f n) = Parent n ∧ sublist (Children (f n)) (Children n)) →
  keeps linked s (update_node s p f).
Proof.
  intros Hf L x n'. rewrite lookup_update_node.
  assert (Hpar : ∀ c cn q, heap s !! c = Some cn → Parent cn = Some q →
            ∃ cn', heap (update_node s p f) !! c = Some cn'
                   ∧ Parent cn' = Some q).
  { intros c cn q Hc Hq. rewrite lookup_update_node. case_decide as E.
    - subst c. exists (f cn). rewrite Hc. split; [done|].
      destruct (Hf cn Hc) as [-> _]. done.
    - by exists cn. }
  case_decide as E.
  - subst x. intros (n & Hp & ->)%fmap_Some.
    destruct (Hf n Hp) as [_ Hsub]. destruct (L p n Hp) as [Hnd Hch].
    split; [by eapply sublist_NoDup|].
    intros c Hc. destruct (Hch c) as (cn & Hcn & Hq);
      [by eapply elem_of_sublist|]. by eapply Hpar.
  - intros Hx. destruct (L x n' Hx) as [Hnd Hch]. split; [done|].
    intros c Hc. destruct (Hch c Hc) as (cn & Hcn & Hq). by eapply Hpar.
Qed.

Lemma linked_heap s s' : heap s' = heap s → keeps linked s s'.
Proof. intros E L p n. rewrite E. apply L. Qed.

Lemma linked_shrink s p f :
  (∀ n, heap s !! p = Some n → shrinks n (f n)) →
  keeps linked s (update_node s p f).
Proof.
  intros Hf. apply linked_update_node. intros n Hn.
  destruct (Hf n Hn) as (I & Hsub & _). unfold same_identity in I.
  by destruct_and!.
Qed.

Lemma linked_alloc s qt n new :
  heap s !! qt = Some n →
  Root new = Root n → Parent new = Some qt → Children new = [] →
  RootNodeMap new = None →
  keeps linked s
    (update_node (set_heap s (<[fresh (dom (heap s)) := new]> (heap s))) qt
       (λ q, with_Children (Children q ++ [fresh (dom (heap s))]) q)).
Proof.
  intros Hq _ Hpar Hch _ L. set (a := fresh (dom (heap s))).
  assert (Ha : heap s !! a = None) by apply not_elem_of_dom, is_fresh.
  assert (Haq : a ≠ qt) by congruence.
  assert (Hold : ∀ c cn q, heap s !! c = Some cn → Parent cn = Some q →
            ∃ cn', heap (update_node (set_heap s (<[a := new]> (heap s))) qt
                           (λ q, with_Children (Children q ++ [a]) q)) !! c
                   = Some cn' ∧ Parent cn' = Some q).
  { intros c cn q Hc Hp. rewrite lookup_update_node. cbn.
    rewrite lookup_insert_ne by congruence. rewrite Hc.
    case_decide; by eexists. }
  intros x n'. rewrite lookup_update_node. cbn. case_decide as E.
  - subst x. rewrite lookup_insert_ne, Hq by done. intros [= <-]. cbn.
    destruct (L qt n Hq) as [Hnd Hc].
    assert (Hnew : a ∉ Children n).
    { intros Hin. destruct (Hc a Hin) as (cn & Hcn & _). congruence. }
    split.
    + apply NoDup_app. split; [done|]. split; [|apply NoDup_singleton].
      intros c Hin ->%list_elem_of_singleton. done.
    + intros c [Hin| ->%list_elem_of_singleton]%elem_of_app.
      * destruct (Hc c Hin) as (cn & Hcn & Hp). by eapply Hold.
      * exists new. rewrite lookup_alter_ne, lookup_insert_eq by done. done.
  - destruct (decide (a = x)) as [<-|Hne].
    + rewrite lookup_insert_eq. intros [= <-]. rewrite Hch.
      split; [apply NoDup_nil_2|]. by intros c ?%elem_of_nil.
    + rewrite lookup_insert_ne by done. intros Hx.
      destruct (L x n' Hx) as [Hnd Hc]. split; [done|].
      intros c Hin. destruct (Hc c Hin) as (cn & Hcn & Hp). by eapply Hold.
Qed.

Lemma linked_index s root r m id nnod :
  heap s !! root = Some r → RootNodeMap r = Some m →
  id_of s nnod = Some id →
  keeps linked s
    (update_node s root (with_RootNodeMap (Some (<[id := nnod]> m)))).
Proof. intros _ _ _. apply linked_update_node. by intros n _. Qed.

Lemma linked_NewQueryTree rootName rootFields :
  linked (NewQueryTree rootName rootFields).1.
Proof.
  intros p n. cbn. intros [_ <-]%lookup_singleton_Some. cbn.
  split; [apply NoDup_nil_2|]. by intros c ?%elem_of_nil.
Qed.

Lemma reachable_linked s : reachable s → linked s.
Proof.
  intros (rootName & rootFields & H).
  eapply (keeps_rtc linked); [..|exact H|apply linked_NewQueryTree].
  - apply linked_heap.
  - apply linked_shrink.
  - apply linked_alloc.
  - apply linked_index.
Qed.

(** *** The root and its index *)

Lemma rooted_update_node root s p f :
  (∀ n, heap s !! p = Some n →
        Root (f n) = Root n
        ∧ (is_Some (RootNodeMap (f n)) ↔ is_Some (RootNodeMap n))) →
  keeps (rooted root) s (update_node s p f).
Proof.
  intros Hf [Hroot H]. split.
  - rewrite lookup_update_node. case_decide; [|done].
    by apply fmap_is_Some.
  - intros x n'. rewrite lookup_update_node. case_decide as E; [|apply H].
    subst x. intros (n & Hp & ->)%fmap_Some.
    destruct (Hf n Hp) as [-> ->]. by apply H.
Qed.

Lemma rooted_heap root s s' : heap s' = heap s → keeps (rooted root) s s'.
Proof. intros E [Hroot H]. split; [by rewrite E|]. intros p n. rewrite E. apply H. Qed.

Lemma rooted_shrink root s p f :
  (∀ n, heap s !! p = Some n → shrinks n (f n)) →
  keeps (rooted root) s (update_node s p f).
Proof.
  intros Hf. apply rooted_update_node. intros n Hn.
  destruct (Hf n Hn) as (I & _ & Hm). unfold same_identity in I.
  destruct_and!. split; [done|].
  destruct (RootNodeMap n), (RootNodeMap (f n));
    first [done | split; by eexists].
Qed.

Lemma rooted_alloc root s qt n new :
  heap s !! qt = Some n →
  Root new = Root n → Parent new = Some qt → Children new = [] →
  RootNodeMap new = None →
  keeps (rooted root) s
    (update_node (set_heap s (<[fresh (dom (heap s)) := new]> (heap s))) qt
       (λ q, with_Children (Children q ++ [fresh (dom (heap s))]) q)).
Proof.
  intros Hq HR _ _ Hm [Hroot H]. set (a := fresh (dom (heap s))).
  assert (Ha : heap s !! a = None) by apply not_elem_of_dom, is_fresh.
  assert (Har : a ≠ root). { intros <-. rewrite Ha in Hroot. by destruct Hroot. }
  apply rooted_update_node; [by intros q _|]. split.
  - cbn. by rewrite lookup_insert_ne.
  - intros x n'. cbn. destruct (decide (a = x)) as [<-|Hne].
    + rewrite lookup_insert_eq. intros [= <-]. rewrite HR, Hm.
      split; [by apply (H qt n)|]. split; [intros [? [=]] | done].
    + rewrite lookup_insert_ne by done. apply H.
Qed.

Lemma rooted_index root0 s root r m id nnod :
  heap s !! root = Some r → RootNodeMap r = Some m →
  id_of s nnod = Some id →
  keeps (rooted root0) s
    (update_node s root (with_RootNodeMap (Some (<[id := nnod]> m)))).
Proof.
  intros Hr Hm _. apply rooted_update_node. intros n Hn.
  assert (n = r) as -> by congruence. split; [done|]. cbn. rewrite Hm.
  split; by eexists.
Qed.

Lemma rooted_NewQueryTree rootName rootFields :
  rooted (NewQueryTree rootName rootFields).2
    (NewQueryTree rootName rootFields).1.
Proof.
  split; cbn.
  - rewrite lookup_singleton_eq. by eexists.
  - intros p n [<- <-]%lookup_singleton_Some. cbn. split; [done|].
    split; [done | by eexists].
Qed.

Lemma rooted_rtc root s s' : rtc step s s' → keeps (rooted root) s s'.
Proof.
  apply (keeps_rtc (rooted root)).
  - apply rooted_heap.
  - apply rooted_shrink.
  - apply rooted_alloc.
  - apply rooted_index.
Qed.

(** *** The index leads to nodes with the right id *)

Lemma id_of_update_node s p f x :
  (∀ n, heap s !! p = Some n → Id (f n) = Id n) →
  id_of (update_node s p f) x = id_of s x.
Proof.
  intros Hf. unfold id_of. rewrite lookup_update_node. case_decide; [|done].
  subst x. destruct (heap s !! p) as [n|] eqn:Hp; [|done]. cbn.
  by rewrite (Hf n eq_refl).
Qed.

Lemma index_sound_update_node s p f :
  (∀ n, heap s !! p = Some n →
        Id (f n) = Id n
        ∧ ∀ m', RootNodeMap (f n) = Some m' →
            ∃ m, RootNodeMap n = Some m ∧ m' ⊆ m) →
  keeps index_sound s (update_node s p f).
Proof.
  intros Hf S r rn' m' id x. rewrite lookup_update_node.
  rewrite id_of_update_node by (intros n Hn; by destruct (Hf n Hn)).
  case_decide as E.
  - subst r. intros (n & Hp & ->)%fmap_Some Hm'.
    destruct (Hf n Hp) as [_ Hsub]. destruct (Hsub m' Hm') as (m & Hm & Hle).
    intros Hx. apply (S p n m id x Hp Hm).
    by eapply lookup_weaken.
  - apply S.
Qed.

Lemma index_sound_heap s s' : heap s' = heap s → keeps index_sound s s'.
Proof. intros E S r rn m id p. unfold id_of. rewrite E. apply S. Qed.

Lemma index_sound_shrink s p f :
  (∀ n, heap s !! p = Some n → shrinks n (f n)) →
  keeps index_sound s (update_node s p f).
Proof.
  intros Hf. apply index_sound_update_node. intros n Hn.
  destruct (Hf n Hn) as (I & _ & Hm). unfold same_identity in I.
  destruct_and!. split; [done|]. intros m' Hm'. rewrite Hm' in Hm.
  destruct (RootNodeMap n) as [m|]; [|done]. by exists m.
Qed.

Lemma index_sound_alloc s qt n new :
  heap s !! qt = Some n →
  Root new = Root n → Parent new = Some qt → Children new = [] →
  RootNodeMap new = None →
  keeps index_sound s
    (update_node (set_heap s (<[fresh (dom (heap s)) := new]> (heap s))) qt
       (λ q, with_Children (Children q ++ [fresh (dom (heap s))]) q)).
Proof.
  intros Hq _ _ _ Hm S. set (a := fresh (dom (heap s))).
  assert (Ha : heap s !! a = None) by apply not_elem_of_dom, is_fresh.
  apply index_sound_update_node.
  { intros q _. split; [done|]. intros m' Hm'. by exists m'. }
  intros r rn m id x. unfold id_of. cbn.
  destruct (decide (a = r)) as [<-|Hne].
  - rewrite lookup_insert_eq. intros [= <-]. congruence.
  - rewrite lookup_insert_ne by done. intros Hr Hrm Hx.
    pose proof (S r rn m id x Hr Hrm Hx) as Hid. unfold id_of in Hid.
    rewrite lookup_insert_ne; [done|]. intros <-. by rewrite Ha in Hid.
Qed.

Lemma index_sound_index s root r m id nnod :
  heap s !! root = Some r → RootNodeMap r = Some m →
  id_of s nnod = Some id →
  keeps index_sound s
    (update_node s root (with_RootNodeMap (Some (<[id := nnod]> m)))).
Proof.
  intros Hr Hm Hid S r' rn' m' id' x. rewrite lookup_update_node.
  rewrite id_of_update_node by done. case_decide as E.
  - subst r'. rewrite Hr. intros [= <-] [= <-].
    intros [[<- <-]|[_ Hx]]%lookup_insert_Some; [done|].
    by apply (S root r m).
  - apply S.
Qed.

Lemma index_sound_NewQueryTree rootName rootFields :
  index_sound (NewQueryTree rootName rootFields).1.
Proof.
  intros r rn m id p. unfold id_of. cbn.
  intros [<- <-]%lookup_singleton_Some [= <-]. cbn.
  intros [<- <-]%lookup_singleton_Some. by rewrite lookup_singleton_eq.
Qed.

Lemma reachable_index_sound s : reachable s → index_sound s.
Proof.
  intros (rootName & rootFields & H).
  eapply (keeps_rtc index_sound); [..|exact H|apply index_sound_NewQueryTree].
  - apply index_sound_heap.
  - apply index_sound_shrink.
  - apply index_sound_alloc.
  - apply index_sound_index.
Qed.

(** *** The shape of a tree *)

(** X23: in a state of the tree a node lists no node twice; a node
    that it lists is there, is another node, and has it as its parent, so
    that no node is listed by two nodes. *)
Theorem reachable_children_point_back s p n c :
  reachable s → heap s !! p = Some n → c ∈ Children n →
  NoDup (Children n) ∧ c ≠ p
  ∧ (∃ cn, heap s !! c = Some cn ∧ Parent cn = Some p)
  ∧ ∀ p' n', heap s !! p' = Some n' → c ∈ Children n' → p' = p.
Proof.
  intros Hs Hp Hc. pose proof (reachable_linked s Hs) as L.
  destruct (reachable_forest s Hs) as [bound Hb].
  destruct (L p n Hp) as [Hnd Hch]. destruct (Hch c Hc) as (cn & Hcn & Hpar).
  split; [done|]. split; [specialize (Hb p n c Hp Hc); lia|].
  split; [by exists cn|].
  intros p' n' Hp' Hc'. destruct (L p' n' Hp') as [_ Hch'].
  destruct (Hch' c Hc') as (cn' & Hcn' & Hpar'). congruence.
Qed.

(** X24: in every state of the tree that [NewQueryTree] made, the
    root is there, every node points to it as its [Root] (line 160 copies
    the pointer), and it is the only node with a [RootNodeMap]. *)
Theorem reachable_root_pointer rootName rootFields s p n :
  rtc step (NewQueryTree rootName rootFields).1 s →
  heap s !! p = Some n →
  is_Some (heap s !! (NewQueryTree rootName rootFields).2)
  ∧ Root n = Some (NewQueryTree rootName rootFields).2
  ∧ (is_Some (RootNodeMap n) ↔ p = (NewQueryTree rootName rootFields).2).
Proof.
  intros Hs Hp.
  destruct (rooted_rtc _ _ _ Hs (rooted_NewQueryTree rootName rootFields))
    as [Hroot H].
  split; [done|]. by apply H.
Qed.

(** X25: in a state of the tree, an entry of the root index leads to
    a node that is there and has the id of the entry. *)
Theorem reachable_index_leads_to_id s root id p :
  reachable s → root_index s root !! id = Some p →
  ∃ n, heap s !! p = Some n ∧ Id n = id.
Proof.
  intros Hs. unfold root_index.
  destruct (heap s !! root) as [r|] eqn:Hr; [|by rewrite lookup_empty].
  destruct (RootNodeMap r) as [m|] eqn:Hm; cbn; [|by rewrite lookup_empty].
  intros Hp. pose proof (reachable_index_sound s Hs root r m id p Hr Hm Hp) as H.
  unfold id_of in H. destruct (heap s !! p) as [n|]; [|done].
  exists n. split; [done|]. cbn in H. congruence.
Qed.

(** *** [AddChild] does not panic *)

Lemma rooted_mintChild_Done root s qt data :
  rooted root s → is_Some (heap s !! qt) →
  ∃ r s', mintChild s qt data = Done r s'.
Proof.
  intros HR [n Hq]. unfold mintChild. rewrite Hq.
  destruct (validate s n data) as [s1 [err|[c argMap]]] eqn:Hv;
    [by eexists _, _|].
  apply validate_heap in Hv.
  assert (HR1 : rooted root s1) by by apply (rooted_heap root s).
  assert (Hq1 : heap s1 !! qt = Some n) by by rewrite Hv.
  unfold mint. cbv zeta.
  match goal with
  | |- context [match Root n with Some _ => _ | None => Panic ?s2 end] =>
      assert (H2 : rooted root s2)
        by (apply (rooted_alloc root s1 qt n); reflexivity || assumption)
  end.
  destruct HR1 as [_ HR1]. destruct (HR1 qt n Hq1) as [HRn _].
  destruct (Root n) as [root'|]; [|done]. injection HRn as ->.
  destruct H2 as [[r Hr] H2]. rewrite Hr.
  destruct (H2 root r Hr) as [_ [_ Hm]]. destruct (Hm eq_refl) as [m ->].
  by eexists _, _.
Qed.

Lemma rooted_rollback_Done root s qt nnod :
  rooted root s → is_Some (heap s !! qt) → is_Some (heap s !! nnod) →
  ∃ s', rollback s qt nnod = Done tt s'.
Proof.
  intros HR [q Hq] [nn Hnn]. unfold rollback.
  destruct (persists_removeChild s qt nnod qt q Hq) as (q' & Hq' & _).
  destruct (persists_removeChild s qt nnod nnod nn Hnn) as (nn' & Hnn' & _).
  destruct (keeps_removeChild (rooted root) (rooted_shrink root) s qt nnod HR)
    as [_ H1].
  destruct (H1 qt q' Hq') as [HRq _].
  rewrite Hq', Hnn', HRq. by eexists.
Qed.

Lemma rooted_AddChild_Done root data : ∀ s qt,
  rooted root s → is_Some (heap s !! qt) →
  ∃ r s', AddChild s qt data = Done r s'.
Proof.
  induction data as [id fieldName args children IH]
    using RGQLQueryTreeNode_ind.
  intros s qt HR Hq. rewrite AddChild_unfold.
  destruct (rooted_mintChild_Done root s qt
              (proto.Build_RGQLQueryTreeNode id fieldName args children)
              HR Hq) as ([err|nnod] & s1 & Hmint); rewrite Hmint;
    [by eexists _, _|].
  assert (HR1 : rooted root s1).
  { eapply (keeps_mintChild (rooted root) (rooted_heap root)
              (rooted_alloc root) (rooted_index root) s qt _ s1);
      [by rewrite Hmint | done]. }
  assert (Hp1 : persists s s1)
    by (eapply (persists_mintChild s qt _ s1); by rewrite Hmint).
  apply mintChild_inr in Hmint as (_ & _ & D1 & _).
  assert (Hnn1 : is_Some (heap s1 !! nnod)).
  { apply elem_of_dom. rewrite D1. apply elem_of_union. left.
    by apply elem_of_singleton. }
  cbn [proto.Children].
  assert (Hloop : ∀ s0, rooted root s0 → is_Some (heap s0 !! nnod) →
            ∃ r s', applyChildren s0 nnod children = Done r s').
  { clear -IH. induction IH as [|child rest Hchild _ IHrest];
      intros s0 HR0 Hn0; cbn; [by eexists _, _|].
    destruct (Hchild s0 nnod HR0 Hn0) as ([e|] & s' & Hc); rewrite Hc;
      [by eexists _, _|].
    apply IHrest.
    - apply (keeps_AddChild (rooted root) (rooted_heap root)
               (rooted_shrink root) (rooted_alloc root) (rooted_index root)
               s0 nnod child s'); [by rewrite Hc | done].
    - destruct Hn0 as [nn Hnn].
      destruct (persists_AddChild s0 nnod child s' ltac:(by rewrite Hc)
                  nnod nn Hnn) as (nn' & Hnn' & _). by eexists. }
  destruct (Hloop s1 HR1 Hnn1) as ([e|] & s2 & Hl).
  - rewrite Hl.
    assert (HR2 : rooted root s2).
    { apply (keeps_applyChildren (rooted root) (rooted_heap root)
               (rooted_shrink root) (rooted_alloc root) (rooted_index root)
               s1 nnod children s2); [by rewrite Hl | done]. }
    assert (Hp2 : persists s1 s2)
      by (apply (persists_applyChildren nnod children s1); by rewrite Hl).
    destruct Hq as [q Hq]. destruct Hnn1 as [nn Hnn].
    destruct (Hp1 qt q Hq) as (q1 & Hq1 & _).
    destruct (Hp2 qt q1 Hq1) as (q2 & Hq2 & _).
    destruct (Hp2 nnod nn Hnn) as (nn2 & Hnn2 & _).
    destruct (rooted_rollback_Done root s2 qt nnod HR2 ltac:(by eexists)
                ltac:(by eexists)) as (s3 & ->).
    by eexists _, _.
  - rewrite Hl. by eexists _, _.
Qed.


(** *** Checks that fail before the node is made *)

Lemma selectField_None fields fieldName :
  fieldName ∉ ast.Name <$> fields → selectField fields fieldName = None.
Proof.
  intros Hnot. unfold selectField.
  destruct (find _ fields) as [field|] eqn:Hfind; [|done].
  apply find_some in Hfind as [Hin Heq]. exfalso. apply Hnot.
  apply String.eqb_eq in Heq as <-. apply list_elem_of_fmap.
  exists field. split; [done|]. by apply list_elem_of_In.
Qed.

(** X2: on a node whose definition is an object type,
    [AddChild] with a field name that no field of the type has returns the
    invalid-field error for that name and that type, and changes nothing. *)
Theorem AddChild_unknown_field_refused s qt n odName odFields data :
  heap s !! qt = Some n →
  default ∅ (RootNodeMap n) !! proto.Id' data = None →
  AST n = Some (ast.ObjectDefinition odName odFields) →
  proto.FieldName data ∉ ast.Name <$> odFields →
  AddChild s qt data
  = Done (Some (ErrInvalidField (proto.FieldName data) odName)) s.
Proof.
  intros Hq Hid HAST Hnot. rewrite AddChild_unfold. unfold mintChild, validate.
  by rewrite Hq, Hid, HAST, selectField_None.
Qed.

Lemma resolveArgs_inl args : ∀ vs argMap vs' err,
  resolveArgs vs argMap args = (vs', inl err) →
  error_kind err = UnknownVariable.
Proof.
  induction args as [|arg rest IH]; intros vs argMap vs' err; cbn; [done|].
  destruct (vs_Get vs _) as [vs1 [vref|]]; [apply IH | by intros [= _ <-]].
Qed.

Lemma validate_inl s n data s' err :
  validate s n data = (s', inl err) →
  heap s' = heap s ∧ stdout s' = stdout s
  ∧ (error_kind err ≠ UnknownVariable → s' = s).
Proof.
  unfold validate.
  destruct (default ∅ (RootNodeMap n) !! _); [by intros [= <- _]|].
  destruct (AST n) as [[odName odFields| | | | |]|]; try by intros [= <- _].
  destruct (selectField _ _); [|by intros [= <- _]].
  destruct (classify _); [by intros [= <- _]|].
  destruct (resolveArgs _ _ _) as [vs [e|argMap]] eqn:Hargs; [|done].
  intros [= <- <-]. apply resolveArgs_inl in Hargs. done.
Qed.

(** X3: when [AddChild] with a descriptor that has no
    nested descriptors returns an error, no node has changed and nothing
    was printed; unless the error is that of an unknown variable, the
    Variable Store has not been called either: the state is the same. *)
Theorem AddChild_flat_failure_changes_no_node s qt data err s' :
  proto.Children data = [] →
  AddChild s qt data = Done (Some err) s' →
  heap s' = heap s ∧ stdout s' = stdout s
  ∧ (error_kind err ≠ UnknownVariable → s' = s).
Proof.
  intros Hflat. rewrite AddChild_unfold, Hflat. unfold mintChild.
  destruct (heap s !! qt) as [n|]; [|done].
  destruct (validate s n data) as [s1 [e|[c argMap]]] eqn:Hv.
  - intros [= <- <-]. by apply validate_inl in Hv.
  - by destruct (mint _ _ _ _ _ _) as [nnod s2|s2|].
Qed.

(** *** [removeChild] *)

Lemma list_find_first (nod : nat) pre post :
  nod ∉ pre →
  list_find (λ item, item = nod) (pre ++ nod :: post)
  = Some (length pre, nod).
Proof.
  intros Hnot. apply list_find_Some. split; [|split; [done|]].
  - by rewrite list_lookup_middle.
  - intros j y Hj Hlt ->. apply Hnot.
    rewrite lookup_app_l in Hj by done. by eapply list_elem_of_lookup_2.
Qed.

(** X10: [removeChild] with a node that [qt] does not list
    changes nothing and tells nobody; with a node that [qt] lists it cuts
    the first cell that holds the node out of the list, keeps the order of
    the others, tells the subscriptions of [qt], once, that the child was
    removed, and leaves every other node as it was. *)
Theorem removeChild_cuts_first_occurrence s qt n nod :
  heap s !! qt = Some n →
  (nod ∉ Children n → removeChild s qt nod = s)
  ∧ ∀ pre post, Children n = pre ++ nod :: post → nod ∉ pre →
      children_of (removeChild s qt nod) qt = pre ++ post
      ∧ subscriptions (removeChild s qt nod) qt
        = tell {| Operation := Operation_DelChild; Child := Some nod |}
            (subscriptions s qt)
      ∧ ∀ p, p ≠ qt → heap (removeChild s qt nod) !! p = heap s !! p.
Proof.
  intros Hq. split.
  - intros Hnot. unfold removeChild. rewrite Hq.
    destruct (list_find _ _) as [[i item]|] eqn:Hfind; [|done].
    apply list_find_Some in Hfind as (Hi & -> & _). exfalso. apply Hnot.
    by eapply list_elem_of_lookup_2.
  - intros pre post Hch Hnot.
    destruct (removeChild_frame s qt nod) as (_ & _ & _ & T).
    rewrite (children_of_lookup s qt n Hq), Hch in T.
    rewrite decide_True in T
      by (apply elem_of_app; right; apply elem_of_cons; by left).
    split; [|split; [exact T|]].
    + unfold removeChild. rewrite Hq, Hch, list_find_first by done.
      rewrite children_of_nextUpdate. unfold children_of.
      rewrite lookup_update_node, decide_True, Hq by done. cbn.
      by rewrite delete_middle.
    + intros p Hp. unfold removeChild. rewrite Hq, Hch, list_find_first by done.
      unfold nextUpdate. by rewrite !lookup_update_node, !decide_False.
Qed.

(** *** Subscriptions *)

Lemma subscriptions_foldl_nextUpdate qt updates : ∀ s,
  subscriptions (foldl (λ s0 update, nextUpdate s0 qt update) s updates) qt
  = told updates (subscriptions s qt).
Proof.
  induction updates as [|update rest IH]; intros s; cbn.
  - by rewrite told_nil.
  - rewrite IH, subscriptions_nextUpdate, decide_True by done.
    by rewrite tell_told, told_told.
Qed.

Lemma subscriptions_SubscribeChanges s qt n :
  heap s !! qt = Some n →
  subscriptions (SubscribeChanges s qt).1 qt
  = <[subCtr n := []]> (subscribers n).
Proof.
  intros Hq. unfold SubscribeChanges, subscriptions. rewrite Hq. cbn.
  by rewrite lookup_alter_eq, Hq.
Qed.

(** X11: the subscription that [SubscribeChanges]
    makes takes the counter of the node as its id and has received
    nothing; after any updates sent to the node it has received exactly
    these, in order, and every other subscription of the node has them
    after what it had received before. *)
Theorem SubscribeChanges_receives_later_updates s qt n updates :
  heap s !! qt = Some n →
  (SubscribeChanges s qt).2 = (qt, subCtr n)
  ∧ subscriptions (SubscribeChanges s qt).1 qt !! subCtr n = Some []
  ∧ subscriptions
      (foldl (λ s0 update, nextUpdate s0 qt update)
         (SubscribeChanges s qt).1 updates) qt !! subCtr n
    = Some updates
  ∧ ∀ id, id ≠ subCtr n →
      subscriptions
        (foldl (λ s0 update, nextUpdate s0 qt update)
           (SubscribeChanges s qt).1 updates) qt !! id
      = (λ received, received ++ updates) <$> subscriptions s qt !! id.
Proof.
  intros Hq. split; [unfold SubscribeChanges; by rewrite Hq|].
  rewrite subscriptions_foldl_nextUpdate,
    (subscriptions_SubscribeChanges s qt n Hq).
  split; [apply lookup_insert_eq|]. unfold told. split.
  - by rewrite lookup_fmap, lookup_insert_eq.
  - intros id Hid. rewrite lookup_fmap, lookup_insert_ne by done.
    unfold subscriptions. by rewrite Hq.
Qed.

(** X12: when the counter of the node is not the
    id of one of its subscriptions, [removeSubscription] with the handle
    that [SubscribeChanges] returned leaves the node with the subscriptions
    of before, the counter alone having moved on; the other nodes are as
    they were, and an update sent afterwards does not reach the removed
    subscription. *)
Theorem removeSubscription_undoes_SubscribeChanges s qt n :
  heap s !! qt = Some n →
  subscribers n !! subCtr n = None →
  let s2 := removeSubscription (SubscribeChanges s qt).1
              (SubscribeChanges s qt).2.1 (SubscribeChanges s qt).2.2 in
  heap s2 !! qt
  = Some (with_subscribers ((subCtr n + 1) mod 2 ^ 32) (subscribers n) n)
  ∧ (∀ p, p ≠ qt → heap s2 !! p = heap s !! p)
  ∧ ∀ update,
      subscriptions (nextUpdate s2 qt update) qt !! subCtr n = None.
Proof.
  intros Hq Hfree s2.
  assert (H2 : heap s2 !! qt
               = Some (with_subscribers ((subCtr n + 1) mod 2 ^ 32)
                         (subscribers n) n)).
  { unfold s2, SubscribeChanges. rewrite Hq. cbn.
    rewrite lookup_alter_eq, lookup_alter_eq, Hq. cbn.
    by rewrite delete_insert_id. }
  split; [exact H2|]. split.
  - intros p Hp. unfold s2, SubscribeChanges. rewrite Hq. cbn.
    by rewrite !lookup_alter_ne.
  - intros update. rewrite subscriptions_nextUpdate, decide_True by done.
    unfold tell, subscriptions. rewrite H2. cbn.
    by rewrite lookup_fmap, Hfree.
Qed.

(** X13: while the ids of the subscriptions of a node are below
    its counter and the counter, a 32-bit number, is not the largest one, the
    handle that [SubscribeChanges] returns has an id that no subscription
    of the node has, the node gains this one subscription, and the ids are
    again below the counter. *)
Theorem SubscribeChanges_fresh_id s qt n :
  heap s !! qt = Some n →
  (∀ id, is_Some (subscribers n !! id) → 0 ≤ id < subCtr n) →
  0 ≤ subCtr n < 2 ^ 32 - 1 →
  subscribers n !! (SubscribeChanges s qt).2.2 = None
  ∧ ∃ n', heap (SubscribeChanges s qt).1 !! qt = Some n'
      ∧ dom (subscribers n') = {[subCtr n]} ∪ dom (subscribers n)
      ∧ subCtr n' = subCtr n + 1
      ∧ ∀ id, is_Some (subscribers n' !! id) → 0 ≤ id < subCtr n'.
Proof.
  intros Hq Hbelow Hmax. unfold SubscribeChanges. rewrite Hq. cbn.
  split.
  - destruct (subscribers n !! subCtr n) as [x|] eqn:Hx; [|done].
    specialize (Hbelow (subCtr n) ltac:(by eexists)). lia.
  - eexists. rewrite lookup_alter_eq, Hq. split; [done|]. cbn.
    split; [apply dom_insert_L|].
    rewrite Z.mod_small by lia. split; [done|].
    intros id [x [[<- _]|[Hne Hx]]%lookup_insert_Some]; [lia|].
    specialize (Hbelow id ltac:(by eexists)). lia.
Qed.

(** X14: the counter is a 32-bit number.  On a node whose counter is
    the largest one, [SubscribeChanges] called twice returns the id 0 the
    second time; a subscription with the id 0 that the node still had is
    replaced: what it had received is no longer there. *)
Theorem SubscribeChanges_wraps s qt n :
  heap s !! qt = Some n →
  subCtr n = 2 ^ 32 - 1 →
  let s1 := (SubscribeChanges s qt).1 in
  (SubscribeChanges s1 qt).2 = (qt, 0)
  ∧ subscriptions (SubscribeChanges s1 qt).1 qt !! 0 = Some [].
Proof.
  intros Hq Hmax s1.
  assert (H1 : ∃ n1, heap s1 !! qt = Some n1 ∧ subCtr n1 = 0).
  { unfold s1, SubscribeChanges. rewrite Hq. cbn.
    rewrite lookup_alter_eq, Hq. eexists. split; [done|]. cbn.
    rewrite Hmax. reflexivity. }
  destruct H1 as (n1 & Hq1 & Hc1). split.
  - unfold SubscribeChanges at 1. by rewrite Hq1, Hc1.
  - rewrite (subscriptions_SubscribeChanges s1 qt n1 Hq1), Hc1.
    apply lookup_insert_eq.
Qed.

(** *** What the tree operations do to the subscriptions *)

#[local] Instance delivers_preorder : PreOrder delivers.
Proof.
  split.
  - intros s p. exists []. by rewrite told_nil.
  - intros s1 s2 s3 H12 H23 p. destruct (H12 p) as [us1 E1].
    destruct (H23 p) as [us2 E2]. exists (us1 ++ us2).
    by rewrite E2, E1, told_told.
Qed.

Lemma delivers_same s s' :
  (∀ p, subscriptions s' p = subscriptions s p) → delivers s s'.
Proof. intros H p. exists []. by rewrite told_nil. Qed.

Lemma delivers_heap s s' : heap s' = heap s → delivers s s'.
Proof. intros E. apply delivers_same. intros p. unfold subscriptions. by rewrite E. Qed.

Lemma delivers_update_node s p f :
  (∀ n, subscribers (f n) = subscribers n) → delivers s (update_node s p f).
Proof. intros Hf. apply delivers_same. intros x. by apply subscriptions_update_node. Qed.

Lemma delivers_nextUpdate s qt update : delivers s (nextUpdate s qt update).
Proof.
  intros p. rewrite subscriptions_nextUpdate. case_decide as E.
  - subst p. by exists [update].
  - exists []. by rewrite told_nil.
Qed.

Lemma delivers_removeChild s qt nod : delivers s (removeChild s qt nod).
Proof.
  destruct (removeChild_frame s qt nod) as (_ & S & _ & T). intros p.
  destruct (decide (p = qt)) as [->|Hne].
  - rewrite T. case_decide; [by eexists [_] | exists []; by rewrite told_nil].
  - exists []. rewrite told_nil. by apply S.
Qed.

Lemma mint_subscriptions s qt n data c argMap s' :
  final (mint s qt n data c argMap) = Some s' →
  ∀ p, subscriptions s' p = subscriptions s p.
Proof.
  unfold mint. cbv zeta.
  match goal with
  | |- final (match Root n with Some _ => _ | None => Panic ?s2 end) = _ → _ =>
      assert (H2 : ∀ p, subscriptions s2 p = subscriptions s p)
  end.
  { intros p. rewrite subscriptions_update_node by done.
    unfold subscriptions at 1. cbn.
    destruct (decide (fresh (dom (heap s)) = p)) as [<-|Hne].
    - rewrite lookup_insert_eq. cbn. symmetry. apply subscriptions_fresh.
      apply is_fresh.
    - by rewrite lookup_insert_ne. }
  destruct (Root n) as [root|]; [|by intros [= <-]].
  destruct (heap _ !! root) as [r|]; [|by intros [= <-]].
  destruct (RootNodeMap r); intros [= <-]; [|done].
  intros p. by rewrite subscriptions_update_node.
Qed.

Lemma delivers_mintChild s qt data s' :
  final (mintChild s qt data) = Some s' → delivers s s'.
Proof.
  unfold mintChild.
  destruct (heap s !! qt) as [n|]; [|intros [= <-]; reflexivity].
  destruct (validate s n data) as [s1 [err|[c argMap]]] eqn:Hv;
    apply validate_heap in Hv.
  - intros [= <-]. by apply delivers_heap.
  - pose proof (mint_subscriptions s1 qt n data c argMap) as Hm.
    destruct (mint _ _ _ _ _ _) as [nnod s2|s2|]; cbn in *; try done;
      intros [= <-]; (transitivity s1; [by apply delivers_heap|]);
      by apply delivers_same, Hm.
Qed.

Lemma delivers_rollback s qt nnod s' :
  final (rollback s qt nnod) = Some s' → delivers s s'.
Proof.
  unfold rollback. pose proof (delivers_removeChild s qt nnod) as H1.
  destruct (heap _ !! qt) as [q|]; [|by intros [= <-]].
  destruct (heap _ !! nnod) as [nn|]; [|by intros [= <-]].
  destruct (Root q); intros [= <-]; [|done].
  etransitivity; [exact H1|]. by apply delivers_update_node.
Qed.

Lemma delivers_deleteFromRootIndex s p : delivers s (deleteFromRootIndex s p).
Proof.
  unfold deleteFromRootIndex. destruct (heap s !! p) as [q|]; [|reflexivity].
  destruct (Root q); [|reflexivity]. by apply delivers_update_node.
Qed.

Lemma delivers_removeFromParent s p : delivers s (removeFromParent s p).
Proof.
  unfold removeFromParent. destruct (heap s !! p) as [q|]; [|reflexivity].
  destruct (Parent q); [apply delivers_removeChild | reflexivity].
Qed.

Lemma delivers_releaseArguments s p : delivers s (releaseArguments s p).
Proof.
  unfold releaseArguments. destruct (heap s !! p) as [q|]; [|reflexivity].
  destruct (Arguments q); [|reflexivity].
  etransitivity; [|by apply delivers_update_node]. by apply delivers_heap.
Qed.

(** X15: a call of [ApplyTreeMutation], [AddChild] or [Dispose],
    returning or panicking, adds no subscription and removes none; what a
    subscription had received it still has, and the subscriptions of one
    node have all received the same further updates, in the same order. *)
Theorem tree_operations_only_deliver s s' :
  (∃ fuel qt mutation,
     final (ApplyTreeMutation fuel s qt mutation) = Some s')
  ∨ (∃ qt data, final (AddChild s qt data) = Some s')
  ∨ (∃ fuel qt, final (Dispose fuel s qt) = Some s') →
  delivers s s'.
Proof.
  intros [(fuel & qt & mutation & H)|[(qt & data & H)|(fuel & qt & H)]];
    revert H.
  - apply (ApplyTreeMutation_steps delivers).
    + apply delivers_mintChild.
    + apply delivers_rollback.
    + apply delivers_nextUpdate.
    + intros. by apply delivers_update_node.
    + apply delivers_deleteFromRootIndex.
    + apply delivers_removeFromParent.
    + apply delivers_releaseArguments.
    + intros. by apply delivers_heap.
    + intros. by apply delivers_heap.
  - apply (AddChild_steps delivers).
    + apply delivers_mintChild.
    + apply delivers_rollback.
    + apply delivers_nextUpdate.
  - apply (Dispose_steps delivers).
    + apply delivers_nextUpdate.
    + intros. by apply delivers_update_node.
    + apply delivers_deleteFromRootIndex.
    + apply delivers_removeFromParent.
    + apply delivers_releaseArguments.
Qed.

(** *** What is printed *)

#[local] Instance quiet_preorder : PreOrder quiet.
Proof.
  split; [done|]. intros s1 s2 s3 H12 H23. unfold quiet in *. congruence.
Qed.

Lemma quiet_removeChild s qt nod : quiet s (removeChild s qt nod).
Proof.
  unfold removeChild. destruct (heap s !! qt) as [n|]; [|done].
  by destruct (list_find _ _) as [[i item]|].
Qed.

Lemma quiet_mintChild s qt data s' :
  final (mintChild s qt data) = Some s' → quiet s s'.
Proof.
  unfold mintChild. destruct (heap s !! qt) as [n|]; [|by intros [= <-]].
  assert (Hv : quiet s (validate s n data).1).
  { unfold validate.
    destruct (default ∅ (RootNodeMap n) !! _); [done|].
    destruct (AST n) as [[odName odFields| | | | |]|]; try done.
    destruct (selectField _ _); [|done]. destruct (classify _); [done|].
    by destruct (resolveArgs _ _ _) as [vs [e|argMap]]. }
  destruct (validate s n data) as [s1 [err|[c argMap]]]; cbn in Hv;
    [by intros [= <-]|].
  unfold mint. destruct (Root n) as [root|]; [|by intros [= <-]].
  destruct (heap _ !! root) as [r|]; [|by intros [= <-]].
  destruct (RootNodeMap r); by intros [= <-].
Qed.

Lemma quiet_rollback s qt nnod s' :
  final (rollback s qt nnod) = Some s' → quiet s s'.
Proof.
  unfold rollback. pose proof (quiet_removeChild s qt nnod) as H1.
  destruct (heap _ !! qt) as [q|]; [|by intros [= <-]].
  destruct (heap _ !! nnod) as [nn|]; [|by intros [= <-]].
  destruct (Root q); by intros [= <-].
Qed.

Lemma quiet_AddChild s qt data s' :
  final (AddChild s qt data) = Some s' → quiet s s'.
Proof.
  apply (AddChild_steps quiet).
  - apply quiet_mintChild.
  - apply quiet_rollback.
  - done.
Qed.

Lemma quiet_Dispose fuel s qt s' :
  final (Dispose fuel s qt) = Some s' → quiet s s'.
Proof.
  apply (Dispose_steps quiet); try done.
  - intros s0 p. unfold deleteFromRootIndex.
    destruct (heap s0 !! p) as [q|]; [|done]. by destruct (Root q).
  - intros s0 p. unfold removeFromParent.
    destruct (heap s0 !! p) as [q|]; [|done].
    destruct (Parent q); [apply quiet_removeChild | done].
  - intros s0 p. unfold releaseArguments.
    destruct (heap s0 !! p) as [q|]; [|done]. by destruct (Arguments q).
Qed.

Lemma applyNodeMutations_prints fuel qt ops : ∀ s s',
  final (applyNodeMutations fuel s qt ops) = Some s' →
  ∃ errs, stdout s' = stdout s ++ errs
    ∧ (length errs
       ≤ length (filter (λ aqn, proto.Operation aqn = proto.SUBTREE_ADD_CHILD)
                   ops))%nat.
Proof.
  induction ops as [|aqn rest IH]; intros s s'.
  { cbn. intros [= <-]. exists []. by rewrite app_nil_r. }
  assert (Hop : ∀ s1, final (applyNodeMutation fuel s qt aqn) = Some s1 →
            ∃ errs, stdout s1 = stdout s ++ errs
              ∧ (length errs
                 ≤ length (filter
                     (λ aqn, proto.Operation aqn = proto.SUBTREE_ADD_CHILD)
                     [aqn]))%nat).
  { intros s1. unfold applyNodeMutation.
    assert (Hnone : final (Done tt s) = Some s1 →
              ∃ errs, stdout s1 = stdout s ++ errs
                ∧ (length errs
                   ≤ length (filter
                       (λ aqn, proto.Operation aqn = proto.SUBTREE_ADD_CHILD)
                       [aqn]))%nat).
    { intros [= <-]. exists []. rewrite app_nil_r. split; [done|]. cbn. lia. }
    assert (Hpanic : final (Panic (A := unit) s) = Some s1 →
              ∃ errs, stdout s1 = stdout s ++ errs
                ∧ (length errs
                   ≤ length (filter
                       (λ aqn, proto.Operation aqn = proto.SUBTREE_ADD_CHILD)
                       [aqn]))%nat) by exact Hnone.
    destruct (heap s !! qt ≫= Root) as [root|]; [|done].
    destruct (heap s !! root) as [r|]; [|done].
    destruct (default ∅ (RootNodeMap r) !! proto.NodeId aqn) as [nod|];
      [|done].
    destruct (proto.Operation aqn) eqn:Hkind; [| |done].
    - pose proof (quiet_AddChild s nod (proto.Node aqn)) as Hadd.
      rewrite filter_cons_True by done.
      destruct (AddChild s nod _) as [[e|] s2|s2|]; cbn in *; try done;
        intros [= <-]; pose proof (Hadd s2 eq_refl) as Hq2;
        unfold quiet in Hq2; cbn.
      + exists [e]. rewrite Hq2. split; [done|]. cbn. lia.
      + exists []. rewrite app_nil_r, Hq2. split; [done|]. cbn. lia.
      + exists []. rewrite app_nil_r, Hq2. split; [done|]. cbn. lia.
    - destruct (_ && _); [|done]. intros Hd%quiet_Dispose.
      unfold quiet in Hd. exists []. rewrite app_nil_r. split; [done|].
      cbn. lia. }
  assert (Hlen : ∀ l : list proto.NodeMutation,
            length (filter (λ aqn, proto.Operation aqn
                                   = proto.SUBTREE_ADD_CHILD) (aqn :: l))
            = (length (filter (λ aqn, proto.Operation aqn
                                      = proto.SUBTREE_ADD_CHILD) [aqn])
               + length (filter (λ aqn, proto.Operation aqn
                                        = proto.SUBTREE_ADD_CHILD) l))%nat).
  { intros l. change (aqn :: l) with ([aqn] ++ l).
    by rewrite filter_app, length_app. }
  rewrite Hlen.
  remember (length (filter (λ aqn, proto.Operation aqn
                                   = proto.SUBTREE_ADD_CHILD) [aqn])) as k.
  clear Hlen Heqk. cbn.
  destruct (applyNodeMutation fuel s qt aqn) as [[] s1|s1|]; cbn in *;
    try done.
  - intros Hrest. destruct (Hop s1 eq_refl) as (errs1 & E1 & L1).
    destruct (IH s1 s' Hrest) as (errs2 & E2 & L2).
    exists (errs1 ++ errs2). rewrite E2, E1, <- app_assoc. split; [done|].
    rewrite length_app. lia.
  - intros [= <-]. destruct (Hop s1 eq_refl) as (errs1 & E1 & L1).
    exists errs1. split; [done|]. lia.
Qed.

(** X20: what a call of [ApplyTreeMutation] has printed when it
    returns or panics is what was there before, followed by errors of
    [AddChild]: one at most for each add operation of the batch.  The other
    operations, and the operations that are skipped, print nothing. *)
Theorem ApplyTreeMutation_prints_failed_adds fuel s qt mutation s' :
  final (ApplyTreeMutation fuel s qt mutation) = Some s' →
  ∃ errs, stdout s' = stdout s ++ errs
    ∧ (length errs
       ≤ length (filter (λ aqn, proto.Operation aqn = proto.SUBTREE_ADD_CHILD)
                   (proto.NodeMutation' mutation)))%nat.
Proof.
  unfold ApplyTreeMutation.
  destruct (heap s !! qt).
  2: { intros [= <-]. exists []. rewrite app_nil_r. split; [done|].
       cbn. lia. }
  pose proof (applyNodeMutations_prints fuel qt (proto.NodeMutation' mutation)
                (putVariables s (proto.Variables mutation))) as Hops.
  assert (Hput : stdout (putVariables s (proto.Variables mutation)) = stdout s)
    by by rewrite putVariables_set_store.
  rewrite Hput in Hops.
  destruct (applyNodeMutations _ _ _ _) as [[] s2|s2|]; cbn in *; try done;
    intros [= <-]; destruct (Hops s2 eq_refl) as (errs & E & L);
    by exists errs.
Qed.

(** *** A batch without delete operations *)



(** *** [Dispose] comes to an end *)

(** X19: in a state of the tree the children lists have
    no cycle, so [Dispose] on any node, or on nil, comes to an end: from
    some amount of fuel on its outcome is one and the same, a return or a
    panic. *)
Theorem Dispose_terminates s qt :
  reachable s →
  ∃ fuel0 o, o ≠ OutOfFuel
    ∧ ∀ fuel, (fuel0 ≤ fuel)%nat → Dispose fuel s qt = o.
Proof.
  intros Hs. destruct (reachable_forest s Hs) as [bound Hb].
  destruct qt as [p|].
  - exists (S bound), (Dispose (S bound) s (Some p)).
    assert (Ho : Dispose (S bound) s (Some p) ≠ OutOfFuel)
      by (apply (Dispose_enough_fuel bound); [done | lia]).
    split; [done|]. intros fuel Hle. by apply (Dispose_fuel_le (S bound)).
  - exists 0%nat, (Panic s). split; [done|]. intros fuel _. apply Dispose_nil.
Qed.

(** *** Nodes stay *)

(** X26: no method frees a node or changes what lines 157-169
    gave it: whatever is called, a node that was there is still there, with
    the same id, root, parent, field name, definition and classification. *)
Theorem nodes_stay_with_their_identity s s' p n :
  rtc step s s' → heap s !! p = Some n →
  ∃ n', heap s' !! p = Some n'
    ∧ Id n' = Id n ∧ Root n' = Root n ∧ Parent n' = Parent n
    ∧ FieldName n' = FieldName n ∧ AST n' = AST n
    ∧ IsPrimitive n' = IsPrimitive n ∧ PrimitiveName n' = PrimitiveName n.
Proof.
  intros Hs Hp. destruct (persists_rtc s s' Hs p n Hp) as (n' & Hp' & I).
  by exists n'.
Qed.

(** *** The tree that [AddChild] builds *)

Lemma mirrors_unfold old s parent p data :
  mirrors old s parent p data
  ↔ (p ∉ old)
    ∧ ∃ n, heap s !! p = Some n
        ∧ Id n = proto.Id' data ∧ FieldName n = proto.FieldName data
        ∧ Parent n = Some parent
        ∧ Forall2 (mirrors old s p) (Children n) (proto.Children data).
Proof.
  destruct data as [id fieldName args children]. cbn.
  assert (Hall : ∀ cs,
    (fix all (cs : list addr) (ds : list proto.RGQLQueryTreeNode)
         {struct ds} : Prop :=
       match ds, cs with
       | [], [] => True
       | d :: ds', c :: cs' => mirrors old s p c d ∧ all cs' ds'
       | _, _ => False
       end) cs children
    ↔ Forall2 (mirrors old s p) cs children).
  { induction children as [|d ds IH]; intros [|c cs]; cbn.
    - split; [constructor | done].
    - split; [done | by intros ?%Forall2_nil_inv_r].
    - split; [done | by intros ?%Forall2_nil_inv_l].
    - rewrite IH, Forall2_cons. done. }
  split.
  - intros (Hp & n & Hn & Hid & Hf & Hpar & Hc). split; [done|].
    exists n. by rewrite <- Hall.
  - intros (Hp & n & Hn & Hid & Hf & Hpar & Hc). split; [done|].
    exists n. by rewrite Hall.
Qed.

Lemma mirrors_weaken old old' s data : ∀ parent p,
  old' ⊆ old → mirrors old s parent p data → mirrors old' s parent p data.
Proof.
  induction data as [id fieldName args children IH]
    using RGQLQueryTreeNode_ind.
  intros parent p Hsub. rewrite !mirrors_unfold.
  intros (Hp & n & Hn & Hid & Hf & Hpar & Hc).
  split; [intros Hin; by apply Hp, Hsub|]. exists n.
  repeat (split; [done|]). cbn [proto.Children] in *.
  clear -IH Hc Hsub. induction Hc as [|c d cs ds Hcd _ IHc]; [constructor|].
  apply Forall_cons in IH as [Hd IH]. constructor; [by apply Hd | by apply IHc].
Qed.

(** A tree outside [old] is not touched by what leaves the children
    lists of the nodes other than [x] alone, when [x] is in [old]. *)
Lemma mirrors_stable old x s s' data : ∀ parent p,
  x ∈ old →
  (∀ q, q ≠ x → q ∈ dom (heap s) → children_of s' q = children_of s q) →
  persists s s' →
  mirrors old s parent p data → mirrors old s' parent p data.
Proof.
  induction data as [id fieldName args children IH]
    using RGQLQueryTreeNode_ind.
  intros parent p Hx Hframe Hpers. rewrite !mirrors_unfold.
  intros (Hp & n & Hn & Hid & Hf & Hpar & Hc). split; [done|].
  destruct (Hpers p n Hn) as (n' & Hn' & I). exists n'.
  unfold same_identity in I. destruct_and!.
  repeat (split; [congruence|]).
  assert (Hch : Children n' = Children n).
  { rewrite <- (children_of_lookup s' p n' Hn'),
      <- (children_of_lookup s p n Hn).
    apply Hframe; [by intros -> | apply elem_of_dom; by eexists]. }
  rewrite Hch. cbn [proto.Children] in *.
  clear -IH Hc Hx Hframe Hpers.
  induction Hc as [|c d cs ds Hcd _ IHc]; [constructor|].
  apply Forall_cons in IH as [Hd IH]. constructor; [by apply Hd | by apply IHc].
Qed.

(** The node that lines 157-169 make, as it is when line 172 is through. *)
Lemma mint_Done_node s qt n data c argMap nnod s' :
  heap s !! qt = Some n →
  mint s qt n data c argMap = Done nnod s' →
  heap s' !! nnod
  = Some {| Id := proto.Id' data; idCounter := 0; Root := Root n;
            Parent := Some qt; Children := []; RootNodeMap := None;
            FieldName := proto.FieldName data;
            AST := selectedTypeDef c; IsPrimitive := isPrimitive c;
            PrimitiveName := primitiveName c; Arguments := Some argMap;
            subCtr := 0; subscribers := ∅ |}.
Proof.
  intros Hq. unfold mint. cbv zeta. set (a := fresh (dom (heap s))).
  assert (Ha : heap s !! a = None) by apply not_elem_of_dom, is_fresh.
  assert (Haq : a ≠ qt) by congruence.
  match goal with
  | |- match Root n with Some _ => _ | None => Panic ?s2 end = _ → ?G =>
      match G with
      | _ = Some ?new => assert (Ha2 : heap s2 !! a = Some new)
      end
  end.
  { rewrite lookup_update_node, decide_False by done. cbn.
    apply lookup_insert_eq. }
  destruct (Root n) as [root|]; [|done].
  destruct (heap _ !! root) as [r|] eqn:Hr; [|done].
  destruct (RootNodeMap r) as [m|] eqn:Hm; [|done].
  intros [= <- <-]. rewrite lookup_update_node. case_decide as E; [|done].
  subst root. rewrite Ha2 in Hr. injection Hr as <-. done.
Qed.

Lemma mintChild_inr_node s qt data nnod s1 :
  mintChild s qt data = Done (inr nnod) s1 →
  ∃ nn, heap s1 !! nnod = Some nn
    ∧ Id nn = proto.Id' data ∧ FieldName nn = proto.FieldName data
    ∧ Parent nn = Some qt ∧ Children nn = [].
Proof.
  unfold mintChild. destruct (heap s !! qt) as [n|] eqn:Hq; [|done].
  destruct (validate s n data) as [s0 [err|[c argMap]]] eqn:Hv; [done|].
  apply validate_heap in Hv.
  destruct (mint _ _ _ _ _ _) as [a s2|s2|] eqn:Hm; try done.
  intros [= <- <-]. apply mint_Done_node in Hm; [|by rewrite Hv].
  eexists. split; [exact Hm|]. done.
Qed.

Lemma AddChild_Done_receiver s qt data r s' :
  AddChild s qt data = Done r s' → qt ∈ dom (heap s).
Proof.
  rewrite AddChild_unfold. unfold mintChild.
  destruct (heap s !! qt) as [n|] eqn:Hq; [|done]. intros _.
  apply elem_of_dom. by eexists.
Qed.

Lemma applyChildren_mirrors nnod children :
  Forall (λ data, ∀ s qt s', AddChild s qt data = Done None s' →
            ∃ c, children_of s' qt = children_of s qt ++ [c]
                 ∧ mirrors (dom (heap s)) s' qt c data) children →
  ∀ s s', applyChildren s nnod children = Done None s' →
    ∃ cs, children_of s' nnod = children_of s nnod ++ cs
          ∧ Forall2 (mirrors (dom (heap s)) s' nnod) cs children.
Proof.
  induction 1 as [|child rest Hchild Hrest IH]; intros s s'; cbn.
  - intros [= <-]. exists []. rewrite app_nil_r. split; [done | constructor].
  - destruct (AddChild s nnod child) as [[e|] s1|s1|] eqn:Hc; try done.
    intros Hloop. destruct (Hchild s nnod s1 Hc) as (c & Hc1 & M1).
    destruct (IH s1 s' Hloop) as (cs & Hcs & Ms).
    assert (Hframe : frame_at nnod s1 s').
    { apply (applyChildren_frame nnod rest) in Hloop; [done|].
      rewrite Forall_forall. intros d _ s0 q0 r0 s0' H0.
      by destruct (AddChild_frame d s0 q0 r0 s0' H0). }
    assert (Hdom : dom (heap s) ⊆ dom (heap s1)).
    { by destruct (AddChild_frame child s nnod None s1 Hc) as ((D & _) & _). }
    exists (c :: cs). split; [by rewrite Hcs, Hc1, <- app_assoc|].
    constructor.
    + apply (mirrors_stable _ nnod s1 s'); [| | |done].
      * by apply (AddChild_Done_receiver s nnod child None s1).
      * intros q Hq Hin. by apply Hframe.
      * apply (persists_applyChildren nnod rest). by rewrite Hloop.
    + clear -Ms Hdom. induction Ms as [|c d cs ds Hcd _ IHc]; [constructor|].
      constructor; [by apply (mirrors_weaken (dom (heap s1))) | exact IHc].
Qed.

Lemma AddChild_mirrors data : ∀ s qt s',
  AddChild s qt data = Done None s' →
  ∃ nnod, children_of s' qt = children_of s qt ++ [nnod]
          ∧ mirrors (dom (heap s)) s' qt nnod data.
Proof.
  induction data as [id fieldName args children IH]
    using RGQLQueryTreeNode_ind.
  intros s qt s'. rewrite AddChild_unfold.
  destruct (mintChild s qt _) as [[err|nnod] s1|s1|] eqn:Hmint; try done.
  destruct (mintChild_inr_node _ _ _ _ _ Hmint)
    as (nn & Hnn & Hid & Hf & Hpar & Hch).
  apply mintChild_inr in Hmint as (Hfresh & Hqt & D1 & _ & C1 & _).
  assert (Hnew : nnod ∉ dom (heap s)) by (rewrite Hfresh; apply is_fresh).
  assert (Hne : qt ≠ nnod) by (intros ->; done).
  cbn [proto.Children].
  destruct (applyChildren s1 nnod children) as [[e|] s2|s2|] eqn:Hloop;
    try done.
  { by destruct (rollback s2 qt nnod) as [[] s3|s3|]. }
  intros [= <-].
  destruct (applyChildren_mirrors nnod children IH s1 s2 Hloop)
    as (cs & Hcs & Ms).
  assert (Hframe : frame_at nnod s1 s2).
  { apply (applyChildren_frame nnod children) in Hloop; [done|].
    rewrite Forall_forall. intros d _ s0 q0 r0 s0' H0.
    by destruct (AddChild_frame d s0 q0 r0 s0' H0). }
  assert (Hpers : persists s1 s2)
    by (apply (persists_applyChildren nnod children); by rewrite Hloop).
  exists nnod. split.
  - rewrite children_of_nextUpdate.
    destruct Hframe as (_ & _ & C2 & _). rewrite C2, C1; [done..|].
    rewrite D1. apply elem_of_union. by right.
  - apply (mirrors_stable _ qt s2); [done| |apply persists_nextUpdate|].
    { intros q _ _. apply children_of_nextUpdate. }
    apply mirrors_unfold. split; [done|].
    destruct (Hpers nnod nn Hnn) as (n2 & Hn2 & I).
    unfold same_identity in I. destruct_and!. exists n2.
    repeat (split; [congruence|]). cbn [proto.Children].
    assert (Hch2 : Children n2 = cs).
    { rewrite <- (children_of_lookup s2 nnod n2 Hn2), Hcs,
        (children_of_lookup s1 nnod nn Hnn), Hch. done. }
    rewrite Hch2. clear -Ms D1.
    induction Ms as [|c d cs ds Hcd _ IHc]; [constructor|].
    constructor; [|exact IHc].
    apply (mirrors_weaken (dom (heap s1))); [|done].
    rewrite D1. intros x Hx. apply elem_of_union. by right.
Qed.

(** X5: when [AddChild] on [qt] returns no error, the children
    of [qt] are those of before followed by one new node, and the tree at
    that node has the shape of the descriptor: every node of it is at an
    address that held no node before the call and has the id and the field
    name of its descriptor, its parent is the node made for the enclosing
    descriptor ([qt] for the outermost), and its children are the nodes
    made for the nested descriptors, one for each, in their order. *)
Theorem AddChild_success_mirrors_descriptor s qt data s' :
  AddChild s qt data = Done None s' →
  ∃ nnod, children_of s' qt = children_of s qt ++ [nnod]
          ∧ mirrors (dom (heap s)) s' qt nnod data.
Proof. apply AddChild_mirrors. Qed.

(** *** What a failed [AddChild] leaves of the tree *)

Lemma children_of_removeChild s qt pre post nod :
  children_of s qt = pre ++ nod :: post → nod ∉ pre →
  children_of (removeChild s qt nod) qt = pre ++ post.
Proof.
  intros Hch Hnot. unfold removeChild.
  destruct (heap s !! qt) as [n|] eqn:Hq.
  2: { unfold children_of in Hch. rewrite Hq in Hch. by destruct pre. }
  rewrite (children_of_lookup s qt n Hq) in Hch.
  rewrite Hch, list_find_first by done.
  rewrite children_of_nextUpdate. unfold children_of.
  rewrite lookup_update_node, decide_True, Hq by done. cbn.
  by rewrite delete_middle.
Qed.

(** X6: in a state of the tree, when [AddChild]
    returns an error, every node that was there has the children of before
    the call, the node the call was made on included: the node made for the
    descriptor, if one was made, is listed nowhere in the old tree. *)
Theorem AddChild_failure_keeps_children s qt data err s' :
  reachable s →
  AddChild s qt data = Done (Some err) s' →
  ∀ p, p ∈ dom (heap s) → children_of s' p = children_of s p.
Proof.
  intros Hs Hadd p Hp.
  destruct (AddChild_frame data s qt (Some err) s' Hadd)
    as ((_ & _ & C & _) & H).
  destruct (decide (p = qt)) as [->|Hne]; [|by apply C].
  revert Hadd H. rewrite AddChild_unfold.
  destruct (mintChild s qt data) as [[e|nnod] s1|s1|] eqn:Hmint; try done.
  { intros _ E. unfold children_of. by rewrite E. }
  apply mintChild_inr in Hmint as (Hfresh & _ & D1 & _ & C1 & _).
  assert (Hnew : nnod ∉ dom (heap s)) by (rewrite Hfresh; apply is_fresh).
  destruct (applyChildren s1 nnod _) as [[e|] s2|s2|] eqn:Hloop; try done.
  assert (Hframe : frame_at nnod s1 s2).
  { apply (applyChildren_frame nnod (proto.Children data)) in Hloop; [done|].
    rewrite Forall_forall. intros d _ s0 q0 r0 s0' H0.
    by destruct (AddChild_frame d s0 q0 r0 s0' H0). }
  assert (Hc2 : children_of s2 qt = children_of s qt ++ [nnod]).
  { destruct Hframe as (_ & _ & C2 & _). rewrite C2, C1; [done| |].
    - by intros ->.
    - rewrite D1. apply elem_of_union. by right. }
  unfold rollback.
  destruct (heap (removeChild s2 qt nnod) !! qt) as [q|]; [|done].
  destruct (heap (removeChild s2 qt nnod) !! nnod) as [nn|]; [|done].
  destruct (Root q) as [root|]; [|done]. intros [= _ <-] _.
  rewrite children_of_update_node by done.
  transitivity (children_of s qt ++ []); [|apply app_nil_r].
  apply children_of_removeChild; [exact Hc2|].
  intros Hin. apply Hnew.
  apply elem_of_dom in Hp as [n Hn].
  rewrite (children_of_lookup s qt n Hn) in Hin.
  destruct (reachable_linked s Hs qt n Hn) as [_ Hch].
  destruct (Hch nnod Hin) as (cn & Hcn & _). apply elem_of_dom. by eexists.
Qed.

(** *** What a successful [AddChild] makes *)

Lemma root_index_update_node s p f root :
  (∀ n, RootNodeMap (f n) = RootNodeMap n) →
  root_index (update_node s p f) root = root_index s root.
Proof.
  intros Hf. unfold root_index. rewrite lookup_update_node.
  case_decide as E; [|done]. subst root.
  destruct (heap s !! p) as [n|]; cbn; [by rewrite Hf | done].
Qed.


(** *** [Dispose] and the nodes above *)

Lemma linked_Dispose fuel s qt s' :
  final (Dispose fuel s qt) = Some s' → keeps linked s s'.
Proof. apply (keeps_Dispose linked linked_heap linked_shrink). Qed.

Lemma persists_rangeChildren fuel qt rounds i s s' :
  final (rangeChildren (Dispose fuel) qt rounds i s) = Some s' →
  persists s s'.
Proof.
  apply (rangeChildren_steps persists). intros s0 child s0'.
  apply persists_Dispose.
Qed.

Lemma children_of_removeChild_ne s qt nod p :
  p ≠ qt → children_of (removeChild s qt nod) p = children_of s p.
Proof.
  intros Hne. destruct (removeChild_frame s qt nod) as (_ & _ & C & _).
  by apply C.
Qed.

Lemma children_of_deleteFromRootIndex s p x :
  children_of (deleteFromRootIndex s p) x = children_of s x.
Proof.
  unfold deleteFromRootIndex. destruct (heap s !! p) as [q|]; [|done].
  destruct (Root q); [|done]. by apply children_of_update_node.
Qed.

Lemma children_of_releaseArguments s p x :
  children_of (releaseArguments s p) x = children_of s x.
Proof.
  unfold releaseArguments. destruct (heap s !! p) as [q|]; [|done].
  destruct (Arguments q); [|done]. by rewrite children_of_update_node.
Qed.

Lemma children_of_removeFromParent_ne s p x :
  (∀ q, heap s !! p = Some q → Parent q ≠ Some x) →
  children_of (removeFromParent s p) x = children_of s x.
Proof.
  intros Hx. unfold removeFromParent.
  destruct (heap s !! p) as [q|] eqn:Hp; [|done].
  destruct (Parent q) as [parent|] eqn:Hpar; [|done].
  apply children_of_removeChild_ne. intros ->. by apply (Hx q).
Qed.

(** In a round of the range the child that is read is listed by [c]. *)
Lemma rangeChildren_cell s c i d :
  (heap s !! c ≫= λ q, Children q !! i) = Some d →
  ∃ q, heap s !! c = Some q ∧ Children q !! i = Some d ∧ d ∈ Children q.
Proof.
  destruct (heap s !! c) as [q|]; [|done]. cbn. intros Hd. exists q.
  split; [done|]. split; [done|]. by eapply list_elem_of_lookup_2.
Qed.

Lemma rangeChildren_frame_below bound fuel c :
  (∀ s d s', ranked bound s → linked s →
     final (Dispose fuel s (Some d)) = Some s' →
     ∀ x, (x < d)%nat →
       (∀ q, heap s !! d = Some q → Parent q ≠ Some x) →
       children_of s' x = children_of s x) →
  ∀ rounds i s s', ranked bound s → linked s →
    final (rangeChildren (Dispose fuel) c rounds i s) = Some s' →
    ∀ x, (x < c)%nat → children_of s' x = children_of s x.
Proof.
  intros IHd. induction rounds as [|rounds IH]; intros i s s' Hr Hl; cbn.
  { by intros [= <-]. }
  destruct (heap s !! c ≫= λ q, Children q !! i) as [d|] eqn:Hcell.
  2: { rewrite Dispose_nil. cbn. by intros [= <-]. }
  apply rangeChildren_cell in Hcell as (qc & Hc & _ & Hin).
  assert (Hcd : (c < d)%nat) by (specialize (Hr c qc d Hc Hin); lia).
  destruct (Hl c qc Hc) as [_ Hch].
  destruct (Hch d Hin) as (dn & Hdn & Hpar).
  pose proof (IHd s d) as Hd.
  pose proof (ranked_Dispose bound fuel s (Some d)) as Hr1.
  pose proof (linked_Dispose fuel s (Some d)) as Hl1.
  assert (Hx : ∀ x, (x < c)%nat →
            (x < d)%nat ∧ ∀ q, heap s !! d = Some q → Parent q ≠ Some x).
  { intros x Hlt. split; [lia|]. intros q Hq. rewrite Hdn in Hq.
    injection Hq as <-. rewrite Hpar. intros [= ->]. lia. }
  destruct (Dispose fuel s (Some d)) as [[] s1|s1|]; cbn in *; try done.
  - intros Hrest x Hlt. destruct (Hx x Hlt) as [H1 H2].
    rewrite (IH (S i) s1 s') by first [by apply Hr1 | by apply Hl1 | done].
    by apply Hd.
  - intros [= <-] x Hlt. destruct (Hx x Hlt) as [H1 H2]. by apply Hd.
Qed.

(** [Dispose] on [c] changes the children of no node allocated before
    [c], the parent of [c] apart. *)
Lemma Dispose_frame_below bound : ∀ fuel s c s',
  ranked bound s → linked s →
  final (Dispose fuel s (Some c)) = Some s' →
  ∀ x, (x < c)%nat →
    (∀ q, heap s !! c = Some q → Parent q ≠ Some x) →
    children_of s' x = children_of s x.
Proof.
  induction fuel as [|fuel IH]; intros s c s' Hr Hl; [done|].
  rewrite Dispose_S. destruct (heap s !! c) as [q|] eqn:Hc;
    [|by intros [= <-]].
  set (s0 := nextUpdate s c {| Operation := Operation_Delete; Child := None |}).
  assert (Hr0 : ranked bound s0) by by apply ranked_nextUpdate.
  assert (Hl0 : linked s0)
    by by apply (keeps_nextUpdate linked linked_shrink).
  pose proof (rangeChildren_frame_below bound fuel c IH
                (length (Children q)) 0%nat s0) as Hloop.
  pose proof (persists_rangeChildren fuel c (length (Children q)) 0%nat s0)
    as Hpers.
  destruct (rangeChildren _ _ _ _ _) as [[] s2|s2|]; cbn in *; try done.
  - intros [= <-] x Hlt Hx.
    rewrite children_of_releaseArguments.
    rewrite children_of_removeFromParent_ne.
    + rewrite children_of_deleteFromRootIndex.
      rewrite children_of_update_node_ne by lia.
      rewrite (Hloop s2) by done. apply children_of_nextUpdate.
    + intros q4 Hq4.
      assert (Hp4 : persists s (deleteFromRootIndex
                                  (update_node s2 c (with_Children [])) c)).
      { etransitivity; [apply (persists_nextUpdate s c)|].
        etransitivity; [by apply Hpers|].
        etransitivity; [|apply persists_deleteFromRootIndex].
        apply persists_update_node. intros ?. by repeat split. }
      destruct (Hp4 c q Hc) as (q4' & Hq4' & I). rewrite Hq4 in Hq4'.
      injection Hq4' as <-. unfold same_identity in I. destruct_and!.
      assert (Parent q4 = Parent q) as -> by done. by apply Hx.
  - intros [= <-] x Hlt Hx. rewrite (Hloop s2) by done.
    apply children_of_nextUpdate.
Qed.

(** When [Dispose] on a listed node returns, the node that listed it
    lists it no longer, and lists the others as before. *)
Lemma Dispose_Done_unlists bound fuel s c s' q p pre post :
  ranked bound s → linked s →
  Dispose fuel s (Some c) = Done tt s' →
  heap s !! c = Some q → Parent q = Some p → (p < c)%nat →
  children_of s p = pre ++ c :: post → c ∉ pre →
  children_of s' p = pre ++ post.
Proof.
  intros Hr Hl HD Hc Hpar Hlt Hch Hnot. destruct fuel as [|fuel]; [done|].
  rewrite Dispose_S, Hc in HD.
  set (s0 := nextUpdate s c {| Operation := Operation_Delete; Child := None |})
    in *.
  assert (Hr0 : ranked bound s0) by by apply ranked_nextUpdate.
  assert (Hl0 : linked s0)
    by by apply (keeps_nextUpdate linked linked_shrink).
  pose proof (rangeChildren_frame_below bound fuel c
                (Dispose_frame_below bound fuel)
                (length (Children q)) 0%nat s0) as Hloop.
  pose proof (persists_rangeChildren fuel c (length (Children q)) 0%nat s0)
    as Hpers.
  destruct (rangeChildren _ _ _ _ _) as [[] s2|s2|]; cbn in *; try done.
  injection HD as <-.
  set (s4 := deleteFromRootIndex (update_node s2 c (with_Children [])) c).
  assert (Hp4 : persists s s4).
  { etransitivity; [apply (persists_nextUpdate s c)|].
    etransitivity; [by apply Hpers|].
    etransitivity; [|apply persists_deleteFromRootIndex].
    apply persists_update_node. intros ?. by repeat split. }
  destruct (Hp4 c q Hc) as (q4 & Hq4 & I). unfold same_identity in I.
  destruct_and!.
  assert (Hch4 : children_of s4 p = pre ++ c :: post).
  { unfold s4. rewrite children_of_deleteFromRootIndex.
    rewrite children_of_update_node_ne by lia.
    rewrite (Hloop s2) by done. unfold s0.
    by rewrite children_of_nextUpdate. }
  rewrite children_of_releaseArguments. unfold removeFromParent.
  rewrite Hq4. assert (Parent q4 = Some p) as -> by congruence.
  by apply children_of_removeChild.
Qed.

(** *** [Dispose] on a node with two children or more *)

Lemma children_of_cell s p i :
  (heap s !! p ≫= λ q, Children q !! i) = children_of s p !! i.
Proof. unfold children_of. by destruct (heap s !! p). Qed.

(** The range over [rounds] children that starts at cell [i] reads past
    the end of the list: every round that returns shortens the list by one
    and moves on by one. *)
Lemma rangeChildren_runs_out bound fuel p : ∀ rounds i s,
  ranked bound s → linked s →
  length (children_of s p) = rounds →
  (1 ≤ rounds)%nat → (2 ≤ i + rounds)%nat →
  ∀ s', rangeChildren (Dispose fuel) p rounds i s ≠ Done tt s'.
Proof.
  induction rounds as [|rounds IH]; intros i s Hr Hl Hlen H1 H2 s'; [lia|].
  cbn. rewrite children_of_cell.
  destruct (children_of s p !! i) as [c|] eqn:Hcell;
    [|by rewrite Dispose_nil].
  assert (Hi : (i < S rounds)%nat)
    by (rewrite <- Hlen; by eapply lookup_lt_Some).
  destruct (heap s !! p) as [q|] eqn:Hp.
  2: { unfold children_of in Hcell. by rewrite Hp in Hcell. }
  rewrite (children_of_lookup s p q Hp) in Hcell, Hlen.
  assert (Hin : c ∈ Children q) by by eapply list_elem_of_lookup_2.
  destruct (Hl p q Hp) as [Hnd Hch].
  destruct (Hch c Hin) as (cn & Hcn & Hpar).
  assert (Hpc : (p < c)%nat) by (specialize (Hr p q c Hp Hin); lia).
  pose proof (ranked_Dispose bound fuel s (Some c)) as Hr1.
  pose proof (linked_Dispose fuel s (Some c)) as Hl1.
  destruct (Dispose fuel s (Some c)) as [[] s1|s1|] eqn:HD; try done.
  assert (Hsplit : Children q = take i (Children q) ++ c :: drop (S i) (Children q))
    by (symmetry; by apply take_drop_middle).
  assert (Hnot : c ∉ take i (Children q)).
  { rewrite Hsplit in Hnd. apply NoDup_app in Hnd as (_ & Hdis & _).
    intros Hc. apply (Hdis c Hc). apply elem_of_cons. by left. }
  pose proof (Dispose_Done_unlists bound fuel s c s1 cn p _ _ Hr Hl HD Hcn
                Hpar Hpc
                ltac:(rewrite (children_of_lookup s p q Hp); exact Hsplit)
                Hnot) as Hch1.
  apply IH; [by apply Hr1 | by apply Hl1 | | lia | lia].
  rewrite Hch1, length_app, length_take, length_drop. lia.
Qed.

(** X17: in a state of the tree, [Dispose] on a node with
    two children or more does not return.  Each child that is disposed is
    cut out of the slice that line 247 ranges over, so the range comes to a
    cell past the end of the list, which holds nil, and [Dispose] on nil
    panics: from some amount of fuel on the outcome is that panic. *)
Theorem Dispose_panics_on_two_children s p n :
  reachable s → heap s !! p = Some n →
  (2 ≤ length (Children n))%nat →
  ∃ fuel0 s', ∀ fuel, (fuel0 ≤ fuel)%nat →
    Dispose fuel s (Some p) = Panic s'.
Proof.
  intros Hs Hp Hlen. destruct (reachable_forest s Hs) as [bound Hb].
  pose proof (reachable_linked s Hs) as Hl.
  assert (Ho : Dispose (S bound) s (Some p) ≠ OutOfFuel)
    by (apply (Dispose_enough_fuel bound); [done | lia]).
  assert (Hpanic : ∃ s', Dispose (S bound) s (Some p) = Panic s').
  { revert Ho. rewrite Dispose_S, Hp.
    set (s0 := nextUpdate s p
                 {| Operation := Operation_Delete; Child := None |}).
    pose proof (rangeChildren_runs_out bound bound p (length (Children n))
                  0%nat s0 ltac:(by apply ranked_nextUpdate)
                  ltac:(by apply (keeps_nextUpdate linked linked_shrink)))
      as Hloop.
    destruct (rangeChildren _ _ _ _ _) as [[] s2|s2|]; [|by eexists|done].
    exfalso. apply (Hloop ltac:(unfold s0; by rewrite children_of_nextUpdate,
                                  (children_of_lookup s p n Hp))
                      ltac:(lia) ltac:(lia) s2). done. }
  destruct Hpanic as [s' Hpanic]. exists (S bound), s'. intros fuel Hle.
  by apply (Dispose_fuel_le (S bound)).
Qed.

(** *** [Dispose] on a node without children *)

#[local] Instance preserves_preorder {A} (proj : QueryTreeNode → A) :
  PreOrder (preserves proj).
Proof.
  split.
  - intros s p n Hp. by exists n.
  - intros s1 s2 s3 H12 H23 p n Hp. destruct (H12 p n Hp) as (n2 & Hp2 & E2).
    destruct (H23 p n2 Hp2) as (n3 & Hp3 & E3). exists n3.
    split; [done | congruence].
Qed.

Lemma preserves_update_node {A} (proj : QueryTreeNode → A) s p f :
  (∀ n, proj (f n) = proj n) → preserves proj s (update_node s p f).
Proof.
  intros Hf x n Hx. rewrite lookup_update_node, Hx. case_decide.
  - by exists (f n).
  - by exists n.
Qed.

Lemma preserves_removeChild {A} (proj : QueryTreeNode → A) s qt nod :
  (∀ cs n, proj (with_Children cs n) = proj n) →
  (∀ c subs n, proj (with_subscribers c subs n) = proj n) →
  preserves proj s (removeChild s qt nod).
Proof.
  intros Hc Hs. unfold removeChild.
  destruct (heap s !! qt) as [n|]; [|reflexivity].
  destruct (list_find _ _) as [[i item]|]; [|reflexivity].
  transitivity (update_node s qt (with_Children (delete i (Children n))));
    [by apply preserves_update_node|].
  unfold nextUpdate. by apply preserves_update_node.
Qed.

Lemma subscriptions_deleteFromRootIndex s p x :
  subscriptions (deleteFromRootIndex s p) x = subscriptions s x.
Proof.
  unfold deleteFromRootIndex. destruct (heap s !! p) as [q|]; [|done].
  destruct (Root q); [|done]. by apply subscriptions_update_node.
Qed.

Lemma subscriptions_releaseArguments s p x :
  subscriptions (releaseArguments s p) x = subscriptions s x.
Proof.
  unfold releaseArguments. destruct (heap s !! p) as [q|]; [|done].
  destruct (Arguments q); [|done]. by rewrite subscriptions_update_node.
Qed.

Lemma subscriptions_removeFromParent_ne s p x :
  (∀ q, heap s !! p = Some q → Parent q ≠ Some x) →
  subscriptions (removeFromParent s p) x = subscriptions s x.
Proof.
  intros Hx. unfold removeFromParent.
  destruct (heap s !! p) as [q|] eqn:Hp; [|done].
  destruct (Parent q) as [parent|] eqn:Hpar; [|done].
  destruct (removeChild_frame s parent p) as (_ & S & _). apply S.
  intros ->. by apply (Hx q).
Qed.

Lemma root_index_removeChild s qt nod root :
  root_index (removeChild s qt nod) root = root_index s root.
Proof.
  unfold removeChild. destruct (heap s !! qt) as [n|]; [|done].
  destruct (list_find _ _) as [[i item]|]; [|done].
  unfold nextUpdate. by rewrite !root_index_update_node.
Qed.

Lemma root_index_removeFromParent s p root :
  root_index (removeFromParent s p) root = root_index s root.
Proof.
  unfold removeFromParent. destruct (heap s !! p) as [q|]; [|done].
  destruct (Parent q); [apply root_index_removeChild | done].
Qed.

Lemma root_index_releaseArguments s p root :
  root_index (releaseArguments s p) root = root_index s root.
Proof.
  unfold releaseArguments. destruct (heap s !! p) as [q|]; [|done].
  destruct (Arguments q); [|done]. by rewrite root_index_update_node.
Qed.

Lemma root_index_delete s root id :
  root_index
    (update_node s root
       (λ r, with_RootNodeMap (delete id <$> RootNodeMap r) r)) root
  = delete id (root_index s root).
Proof.
  unfold root_index. rewrite lookup_update_node, decide_True by done.
  destruct (heap s !! root) as [r|]; cbn; [|by rewrite delete_empty].
  destruct (RootNodeMap r); cbn; [done | by rewrite delete_empty].
Qed.

Lemma held_empty : held ∅ = ∅.
Proof. unfold held. by rewrite map_to_list_empty. Qed.

Lemma removeFromParent_leaf s p :
  children_of s p = [] →
  subscriptions (removeFromParent s p) p = subscriptions s p
  ∧ children_of (removeFromParent s p) p = [].
Proof.
  intros Hc. unfold removeFromParent.
  destruct (heap s !! p) as [q|] eqn:Hp; [|by split].
  destruct (Parent q) as [parent|]; [|by split].
  destruct (decide (parent = p)) as [->|Hne].
  - assert (removeChild s p p = s) as ->; [|by split].
    unfold removeChild. rewrite Hp.
    rewrite (children_of_lookup s p q Hp) in Hc. by rewrite Hc.
  - destruct (removeChild_frame s parent p) as (_ & S & C & _).
    rewrite S, C by done. by split.
Qed.

(** X16: [Dispose] on a node that lists no children returns.
    The subscriptions of the node have been
    told of the deletion, once, and of nothing else; the id of the node has
    left the index of its root; its parent lists it no longer, the other
    children of the parent being listed as before; the node holds no
    arguments any more, and the references that it held have been released:
    the outstanding references are those of before without them. *)
Theorem Dispose_leaf fuel s p q :
  heap s !! p = Some q → Children q = [] →
  ∃ s', Dispose (S fuel) s (Some p) = Done tt s'
    ∧ subscriptions s' p
      = tell {| Operation := Operation_Delete; Child := None |}
          (subscriptions s p)
    ∧ (∀ root, Root q = Some root →
         root_index s' root = delete (Id q) (root_index s root))
    ∧ (∀ parent pre post, Parent q = Some parent →
         children_of s parent = pre ++ p :: post → p ∉ pre →
         children_of s' parent = pre ++ post)
    ∧ (∃ q', heap s' !! p = Some q' ∧ Children q' = []
             ∧ Arguments q' = None)
    ∧ vs_references (store s')
      = vs_references (store s) ∖ held (default ∅ (Arguments q)).
Proof.
  intros Hp Hleaf. rewrite Dispose_S, Hp, Hleaf. cbn [length rangeChildren].
  set (s0 := nextUpdate s p {| Operation := Operation_Delete; Child := None |}).
  set (s3 := update_node s0 p (with_Children [])).
  set (s4 := deleteFromRootIndex s3 p).
  set (s5 := removeFromParent s4 p).
  eexists. split; [reflexivity|].
  assert (P3 : persists s s3).
  { etransitivity; [apply (persists_nextUpdate s p)|].
    apply persists_update_node. intros ?. by repeat split. }
  assert (P4 : persists s s4).
  { etransitivity; [exact P3 | apply persists_deleteFromRootIndex]. }
  assert (A5 : preserves Arguments s s5).
  { transitivity s0; [by apply (preserves_update_node Arguments s p)|].
    transitivity s3; [by apply (preserves_update_node Arguments s0 p)|].
    transitivity s4.
    - unfold s4, deleteFromRootIndex. destruct (heap s3 !! p) as [q3|];
        [|reflexivity]. destruct (Root q3); [|reflexivity].
      by apply preserves_update_node.
    - unfold s5, removeFromParent. destruct (heap s4 !! p) as [q4|];
        [|reflexivity]. destruct (Parent q4); [|reflexivity].
      by apply preserves_removeChild. }
  destruct (P3 p q Hp) as (q3 & Hq3 & I3).
  destruct (P4 p q Hp) as (q4 & Hq4 & I4).
  unfold same_identity in I3, I4. destruct_and!.
  assert (C4 : children_of s4 p = []).
  { unfold s4. rewrite children_of_deleteFromRootIndex.
    unfold s3, children_of. rewrite lookup_update_node, decide_True by done.
    unfold s0, nextUpdate. rewrite lookup_update_node, decide_True by done.
    by rewrite Hp. }
  destruct (removeFromParent_leaf s4 p C4) as [S5 C5].
  split; [|split; [|split; [|split]]].
  - rewrite subscriptions_releaseArguments.
    unfold s5. rewrite S5.
    unfold s4. rewrite subscriptions_deleteFromRootIndex.
    unfold s3. rewrite subscriptions_update_node by done.
    unfold s0. by rewrite subscriptions_nextUpdate, decide_True.
  - intros root HR. rewrite root_index_releaseArguments.
    unfold s5. rewrite root_index_removeFromParent.
    unfold s4, deleteFromRootIndex. rewrite Hq3.
    assert (Root q3 = Some root) as -> by congruence.
    rewrite root_index_delete. unfold s3, s0, nextUpdate.
    rewrite !root_index_update_node by done. congruence.
  - intros parent pre post Hpar Hch Hnot.
    assert (Hne : p ≠ parent).
    { intros <-. rewrite (children_of_lookup s p q Hp), Hleaf in Hch.
      by destruct pre. }
    rewrite children_of_releaseArguments.
    unfold s5, removeFromParent. rewrite Hq4.
    assert (Parent q4 = Some parent) as -> by congruence.
    apply children_of_removeChild; [|done].
    unfold s4. rewrite children_of_deleteFromRootIndex.
    unfold s3. rewrite children_of_update_node_ne by done.
    unfold s0. by rewrite children_of_nextUpdate.
  - fold s5 in C5. destruct (A5 p q Hp) as (q5 & Hq5 & _).
    rewrite (children_of_lookup s5 p q5 Hq5) in C5.
    unfold releaseArguments. rewrite Hq5.
    destruct (Arguments q5) as [args|] eqn:Ha.
    + eexists. rewrite lookup_update_node, decide_True by done.
      cbn [heap set_store]. rewrite Hq5. split; [reflexivity | done].
    + by exists q5.
  - destruct (A5 p q Hp) as (q5 & Hq5 & Ha).
    assert (Hstore : store s5 = store s).
    { unfold s5. rewrite removeFromParent_store. unfold s4.
      by rewrite deleteFromRootIndex_store. }
    unfold releaseArguments. rewrite Hq5, Ha.
    destruct (Arguments q) as [args|]; cbn.
    + by rewrite unsubscribeAll_references, Hstore.
    + by rewrite held_empty, difference_empty_L, Hstore.
Qed.

(** *** [Dispose] on a chain *)

Lemma shrinks_trans n1 n2 n3 : shrinks n1 n2 → shrinks n2 n3 → shrinks n1 n3.
Proof.
  intros (I12 & C12 & M12) (I23 & C23 & M23). split; [|split].
  - unfold same_identity in *. destruct_and!. repeat split; congruence.
  - by transitivity (Children n2).
  - destruct (RootNodeMap n1), (RootNodeMap n2), (RootNodeMap n3);
      try done. by transitivity g0.
Qed.

#[local] Instance wanes_preorder : PreOrder wanes.
Proof.
  split.
  - intros s. split; [done|]. intros x n Hx. exists n.
    split; [done|]. split; [apply shrinks_refl | done].
  - intros s1 s2 s3 [D12 H12] [D23 H23]. split; [congruence|].
    intros x n Hx. destruct (H12 x n Hx) as (n2 & Hx2 & S2 & A2).
    destruct (H23 x n2 Hx2) as (n3 & Hx3 & S3 & A3). exists n3.
    split; [done|]. split; [by eapply shrinks_trans | auto].
Qed.

Lemma wanes_heap s s' : heap s' = heap s → wanes s s'.
Proof.
  intros E. split; [by rewrite E|]. intros x n Hx. exists n. rewrite E.
  split; [done|]. split; [apply shrinks_refl | done].
Qed.

Lemma wanes_update_node s p f :
  (∀ n, heap s !! p = Some n →
        shrinks n (f n) ∧ (Arguments n = None → Arguments (f n) = None)) →
  wanes s (update_node s p f).
Proof.
  intros Hf. split; [apply dom_update_node|]. intros x n Hx.
  rewrite lookup_update_node, Hx. case_decide as E.
  - subst x. exists (f n). split; [done|]. by apply Hf.
  - exists n. split; [done|]. split; [apply shrinks_refl | done].
Qed.

Lemma wanes_nextUpdate s qt update : wanes s (nextUpdate s qt update).
Proof.
  apply wanes_update_node. intros n _. split; [apply shrinks_subscribers|done].
Qed.

Lemma wanes_removeChild s qt nod : wanes s (removeChild s qt nod).
Proof.
  unfold removeChild. destruct (heap s !! qt) as [n|] eqn:Hq; [|reflexivity].
  destruct (list_find _ _) as [[i item]|]; [|reflexivity].
  etransitivity; [|apply wanes_nextUpdate].
  apply wanes_update_node. intros n0 Hn0. assert (n0 = n) as -> by congruence.
  split; [apply shrinks_children, sublist_delete | done].
Qed.

Lemma wanes_deleteFromRootIndex s p : wanes s (deleteFromRootIndex s p).
Proof.
  unfold deleteFromRootIndex. destruct (heap s !! p) as [q|]; [|reflexivity].
  destruct (Root q); [|reflexivity].
  apply wanes_update_node. intros r _. split; [apply shrinks_index | done].
Qed.

Lemma wanes_removeFromParent s p : wanes s (removeFromParent s p).
Proof.
  unfold removeFromParent. destruct (heap s !! p) as [q|]; [|reflexivity].
  destruct (Parent q); [apply wanes_removeChild | reflexivity].
Qed.

Lemma wanes_releaseArguments s p : wanes s (releaseArguments s p).
Proof.
  unfold releaseArguments. destruct (heap s !! p) as [q|]; [|reflexivity].
  destruct (Arguments q); [|reflexivity].
  etransitivity; [|apply wanes_update_node; intros r _;
                    split; [apply shrinks_arguments | done]].
  by apply wanes_heap.
Qed.

Lemma wanes_clearChildren s p : wanes s (update_node s p (with_Children [])).
Proof.
  apply wanes_update_node. intros n _.
  split; [apply shrinks_children, sublist_nil_l | done].
Qed.

Lemma wanes_Dispose fuel s qt s' :
  final (Dispose fuel s qt) = Some s' → wanes s s'.
Proof.
  apply (Dispose_steps wanes).
  - apply wanes_nextUpdate.
  - apply wanes_clearChildren.
  - apply wanes_deleteFromRootIndex.
  - apply wanes_removeFromParent.
  - apply wanes_releaseArguments.
Qed.

Lemma root_index_wanes s s' root :
  wanes s s' → root_index s' root ⊆ root_index s root.
Proof.
  intros [D H]. unfold root_index.
  destruct (heap s !! root) as [r|] eqn:Hr.
  - destruct (H root r Hr) as (r' & -> & (_ & _ & Hm) & _).
    destruct (RootNodeMap r), (RootNodeMap r'); cbn; try done.
  - assert (Hr' : heap s' !! root = None).
    { apply not_elem_of_dom. rewrite D. by apply not_elem_of_dom. }
    by rewrite Hr'.
Qed.

Lemma disposed_wanes s s' x : wanes s s' → disposed s x → disposed s' x.
Proof.
  intros Hw (n & Hx & Hc & Ha & Hi).
  destruct Hw as [D H]. destruct (H x n Hx) as (n' & Hx' & (I & Hsub & _) & Ha').
  exists n'. split; [done|]. rewrite Hc in Hsub.
  split; [by apply sublist_nil_r|]. split; [by apply Ha'|].
  unfold same_identity in I. destruct_and!.
  intros root HR. assert (Id n' = Id n) as -> by done.
  apply (lookup_weaken_None _ (root_index s root));
    [apply Hi; congruence | by apply root_index_wanes].
Qed.

Lemma releaseArguments_None s p n :
  heap (releaseArguments s p) !! p = Some n → Arguments n = None.
Proof.
  unfold releaseArguments. destruct (heap s !! p) as [q|] eqn:Hp;
    [|by rewrite Hp].
  destruct (Arguments q) as [args|] eqn:Ha.
  - rewrite lookup_update_node, decide_True by done. cbn [heap set_store].
    rewrite Hp. by intros [= <-].
  - rewrite Hp. by intros [= <-].
Qed.

(** What lines 250-262 make of the node, once the range is through. *)
Lemma Dispose_tail_disposed s2 p :
  is_Some (heap s2 !! p) →
  disposed
    (releaseArguments
       (removeFromParent
          (deleteFromRootIndex (update_node s2 p (with_Children [])) p) p) p)
    p.
Proof.
  intros [q2 Hq2].
  set (s3 := update_node s2 p (with_Children [])).
  set (s4 := deleteFromRootIndex s3 p).
  set (s6 := releaseArguments (removeFromParent s4 p) p).
  assert (Hq3 : ∃ q3, heap s3 !! p = Some q3 ∧ Children q3 = []
                       ∧ Id q3 = Id q2 ∧ Root q3 = Root q2).
  { exists (with_Children [] q2). unfold s3.
    by rewrite lookup_update_node, decide_True, Hq2. }
  destruct Hq3 as (q3 & Hq3 & C3 & Hid3 & HR3).
  assert (W34 : wanes s3 s4) by apply wanes_deleteFromRootIndex.
  assert (W46 : wanes s4 s6).
  { etransitivity; [apply wanes_removeFromParent|].
    apply wanes_releaseArguments. }
  destruct W34 as [_ H34].
  destruct (H34 p q3 Hq3) as (q4 & Hq4 & (I4 & C4 & _) & _).
  pose proof W46 as [_ H46].
  destruct (H46 p q4 Hq4) as (q6 & Hq6 & (I6 & C6 & _) & _).
  exists q6. split; [done|].
  rewrite C3 in C4. apply sublist_nil_r in C4. rewrite C4 in C6.
  split; [by apply sublist_nil_r|].
  split; [by apply (releaseArguments_None (removeFromParent s4 p) p)|].
  unfold same_identity in I4, I6. destruct_and!.
  intros root HR.
  apply (lookup_weaken_None _ (root_index s4 root));
    [|by apply root_index_wanes].
  unfold s4, deleteFromRootIndex. rewrite Hq3.
  assert (Root q3 = Some root) as -> by congruence.
  rewrite root_index_delete.
  assert (Id q6 = Id q3) as -> by congruence. apply lookup_delete_eq.
Qed.

Lemma rtc_children_ext s s' a b :
  (∀ x, children_of s' x = children_of s x) →
  rtc (λ a b, b ∈ children_of s' a) a b →
  rtc (λ a b, b ∈ children_of s a) a b.
Proof.
  intros E. apply rtc_subrel. intros x y. by rewrite E.
Qed.

Lemma Dispose_chain bound : ∀ fuel s p,
  ranked bound s → linked s → is_Some (heap s !! p) →
  (bound - p < fuel)%nat →
  (∀ x, rtc (λ a b, b ∈ children_of s a) p x →
        (length (children_of s x) ≤ 1)%nat) →
  ∃ s', Dispose fuel s (Some p) = Done tt s'
        ∧ ∀ x, rtc (λ a b, b ∈ children_of s a) p x → disposed s' x.
Proof.
  induction fuel as [|fuel IH]; intros s p Hr Hl [q Hp] Hfuel Hchain; [lia|].
  rewrite Dispose_S, Hp.
  set (s0 := nextUpdate s p {| Operation := Operation_Delete; Child := None |}).
  assert (Hr0 : ranked bound s0) by by apply ranked_nextUpdate.
  assert (Hl0 : linked s0)
    by by apply (keeps_nextUpdate linked linked_shrink).
  assert (Hc0 : ∀ x, children_of s0 x = children_of s x)
    by (intros x; apply children_of_nextUpdate).
  pose proof (Hchain p ltac:(reflexivity)) as Hlen.
  rewrite (children_of_lookup s p q Hp) in Hlen.
  assert (Hloop : ∃ s2,
    rangeChildren (Dispose fuel) p (length (Children q)) 0%nat s0 = Done tt s2
    ∧ wanes s0 s2
    ∧ ∀ c x, c ∈ Children q → rtc (λ a b, b ∈ children_of s a) c x →
        disposed s2 x).
  { destruct (Children q) as [|c [|c' cs]] eqn:Hcs; [| |cbn in Hlen; lia].
    - exists s0. split; [done|]. split; [reflexivity|].
      by intros c x ?%elem_of_nil.
    - cbn [length rangeChildren]. rewrite children_of_cell, Hc0.
      rewrite (children_of_lookup s p q Hp), Hcs. cbn [lookup list_lookup].
      assert (Hin : c ∈ Children q) by (rewrite Hcs; apply elem_of_cons; by left).
      destruct (Hl p q Hp) as [_ Hch]. destruct (Hch c Hin) as (cn & Hcn & _).
      assert (Hpc : (p < c < bound)%nat) by by apply (Hr p q c Hp Hin).
      destruct (IH s0 c Hr0 Hl0) as (s1 & HD & Hdis).
      + destruct (persists_nextUpdate s p
                    {| Operation := Operation_Delete; Child := None |}
                    c cn Hcn) as (cn0 & Hcn0 & _). by eexists.
      + lia.
      + intros x Hx. rewrite Hc0. apply Hchain.
        eapply rtc_l; [|by apply (rtc_children_ext s s0)].
        cbn. by rewrite (children_of_lookup s p q Hp).
      + rewrite HD. exists s1. split; [done|].
        split; [apply (wanes_Dispose fuel s0 (Some c)); by rewrite HD|].
        intros c0 x [->|?%elem_of_nil]%elem_of_cons Hx; [|done].
        apply Hdis. apply rtc_subrel with (R1 := λ a b, b ∈ children_of s a);
          [|done]. intros a b. by rewrite Hc0. }
  destruct Hloop as (s2 & -> & W02 & Hbelow). eexists. split; [reflexivity|].
  intros x [<-|(c & Hc & Hx)]%rtc_inv.
  - apply Dispose_tail_disposed.
    destruct W02 as [_ H02].
    destruct (persists_nextUpdate s p
                {| Operation := Operation_Delete; Child := None |} p q Hp)
      as (q0 & Hq0 & _).
    destruct (H02 p q0 Hq0) as (q2 & Hq2 & _). by eexists.
  - cbn in Hc. rewrite (children_of_lookup s p q Hp) in Hc.
    eapply disposed_wanes; [|by apply (Hbelow c x)].
    etransitivity; [apply wanes_clearChildren|].
    etransitivity; [apply wanes_deleteFromRootIndex|].
    etransitivity; [apply wanes_removeFromParent|].
    apply wanes_releaseArguments.
Qed.

(** X18: in a state of the tree, when the node and every
    node below it lists one child at most, [Dispose] on the node returns,
    and the node and every node below it have been disposed of: none lists
    children or holds arguments any more, and the root index has no entry
    for the id of any of them.  A node that listed the disposed node lists
    it no longer. *)
Theorem Dispose_returns_on_chain s p :
  reachable s → is_Some (heap s !! p) →
  (∀ x, rtc (λ a b, b ∈ children_of s a) p x →
        (length (children_of s x) ≤ 1)%nat) →
  ∃ fuel0 s',
    (∀ fuel, (fuel0 ≤ fuel)%nat → Dispose fuel s (Some p) = Done tt s')
    ∧ (∀ x, rtc (λ a b, b ∈ children_of s a) p x → disposed s' x)
    ∧ ∀ parent, p ∈ children_of s parent → p ∉ children_of s' parent.
Proof.
  intros Hs Hp Hchain. destruct (reachable_forest s Hs) as [bound Hb].
  pose proof (reachable_linked s Hs) as Hl.
  destruct (Dispose_chain bound (S bound) s p Hb Hl Hp ltac:(lia) Hchain)
    as (s' & HD & Hdis).
  exists (S bound), s'. split; [|split; [done|]].
  - intros fuel Hle. by apply (Dispose_fuel_le (S bound)).
  - intros parent Hin.
    destruct (heap s !! parent) as [pn|] eqn:Hpn.
    2: { unfold children_of in Hin. rewrite Hpn in Hin.
         by apply elem_of_nil in Hin. }
    rewrite (children_of_lookup s parent pn Hpn) in Hin.
    destruct (Hl parent pn Hpn) as [Hnd Hch].
    destruct (Hch p Hin) as (q & Hq & Hpar).
    assert (Hlt : (parent < p)%nat) by (specialize (Hb parent pn p Hpn Hin); lia).
    apply list_elem_of_split in Hin as (pre & post & Hsplit).
    rewrite Hsplit in Hnd. apply NoDup_app in Hnd as (_ & Hdis1 & Hnd2).
    apply NoDup_cons in Hnd2 as [Hpost _].
    rewrite (Dispose_Done_unlists bound (S bound) s p s' q parent pre post
               Hb Hl HD Hq Hpar Hlt
               ltac:(by rewrite (children_of_lookup s parent pn Hpn))).
    + intros [Hin|Hin]%elem_of_app; [|done].
      apply (Hdis1 p Hin). apply elem_of_cons. by left.
    + intros Hin. apply (Hdis1 p Hin). apply elem_of_cons. by left.
Qed.

(** *** Where the check of line 88 finds a duplicate *)

Lemma classify_inl selectedField err :
  classify selectedField = inl err → error_kind err = UnresolvedType.
Proof.
  unfold classify.
  destruct (unwrapNonNull _) as [name|t|t];
    repeat match goal with
           | |- context [types_IsPrimitive ?x] => destruct (types_IsPrimitive x)
           | |- context [LookupType ?t] => destruct (LookupType t)
           end; by intros [= <-].
Qed.

Lemma validate_duplicate s n data s' err :
  validate s n data = (s', inl err) → error_kind err = DuplicateNodeId →
  s' = s ∧ err = ErrInvalidNodeID (proto.Id' data)
  ∧ is_Some (default ∅ (RootNodeMap n) !! proto.Id' data).
Proof.
  unfold validate.
  destruct (default ∅ (RootNodeMap n) !! _) as [nod|];
    [intros [= <- <-] _; by eauto|].
  destruct (AST n) as [[odName odFields| | | | |]|];
    try by intros [= <- <-].
  destruct (selectField _ _); [|by intros [= <- <-]].
  destruct (classify _) as [e|c] eqn:Hc.
  { intros [= <- <-] Hk. apply classify_inl in Hc. congruence. }
  destruct (resolveArgs _ _ _) as [vs [e|argMap]] eqn:Hargs; [|done].
  intros [= <- <-] Hk. apply resolveArgs_inl in Hargs. congruence.
Qed.

Lemma rooted_AddChild_duplicate root data : ∀ s qt err s',
  rooted root s → AddChild s qt data = Done (Some err) s' →
  error_kind err = DuplicateNodeId →
  qt = root ∧ s' = s ∧ is_Some (root_index s root !! proto.Id' data).
Proof.
  induction data as [id fieldName args children IH]
    using RGQLQueryTreeNode_ind.
  intros s qt err s' HR. rewrite AddChild_unfold.
  destruct (mintChild s qt _) as [[e|nnod] s1|s1|] eqn:Hmint; try done.
  - intros [= <- <-] Hk. revert Hmint. unfold mintChild.
    destruct (heap s !! qt) as [n|] eqn:Hq; [|done].
    destruct (validate s n _) as [s0 [e0|[c argMap]]] eqn:Hv.
    2: { by destruct (mint _ _ _ _ _ _). }
    intros [= <- <-]. destruct (validate_duplicate _ _ _ _ _ Hv Hk)
      as (-> & _ & Hin).
    assert (Hm : is_Some (RootNodeMap n)).
    { destruct (RootNodeMap n); [by eexists|].
      cbn in Hin. rewrite lookup_empty in Hin. by destruct Hin. }
    destruct HR as [_ HR]. destruct (HR qt n Hq) as [_ Hroot].
    apply Hroot in Hm as ->. split; [done|]. split; [done|].
    unfold root_index. by rewrite Hq.
  - assert (HR1 : rooted root s1).
    { eapply (keeps_mintChild (rooted root) (rooted_heap root)
                (rooted_alloc root) (rooted_index root) s qt _ s1);
        [by rewrite Hmint | done]. }
    apply mintChild_inr in Hmint as (Hfresh & _).
    assert (Hne : nnod ≠ root).
    { intros ->. destruct HR as [[r Hr] _].
      apply (is_fresh (dom (heap s))). rewrite <- Hfresh.
      apply elem_of_dom. by eexists. }
    cbn [proto.Children].
    assert (Hloop : ∀ s0 e s0', rooted root s0 →
              applyChildren s0 nnod children = Done (Some e) s0' →
              error_kind e ≠ DuplicateNodeId).
    { clear -IH Hne. induction IH as [|child rest Hchild _ IHrest];
        intros s0 e s0' HR0; cbn; [done|].
      destruct (AddChild s0 nnod child) as [[e0|] s'|s'|] eqn:Hc; try done.
      - intros [= <- <-] Hk.
        by destruct (Hchild s0 nnod e0 s' HR0 Hc Hk) as (? & _).
      - apply IHrest.
        apply (keeps_AddChild (rooted root) (rooted_heap root)
                 (rooted_shrink root) (rooted_alloc root) (rooted_index root)
                 s0 nnod child s'); [by rewrite Hc | done]. }
    specialize (Hloop s1).
    destruct (applyChildren s1 nnod children) as [[e|] s2|s2|]; try done.
    destruct (rollback s2 qt nnod) as [[] s3|s3|]; try done.
    intros [= <- <-] Hk. by destruct (Hloop e s2 HR1 eq_refl).
Qed.

(** X7: in a state of the tree, [AddChild] reports a
    duplicate node id in one case only: the call is on the root and the id
    of the outermost descriptor is in the root index; the state is then
    unchanged.  On every other node the check of line 88 reads a nil map
    and finds nothing, and neither do the checks of the nested calls, which
    run on new nodes. *)
Theorem AddChild_duplicate_only_at_root rootName rootFields s qt data s' :
  rtc step (NewQueryTree rootName rootFields).1 s →
  (∃ err, AddChild s qt data = Done (Some err) s'
          ∧ error_kind err = DuplicateNodeId)
  ↔ qt = (NewQueryTree rootName rootFields).2 ∧ s' = s
    ∧ is_Some (root_index s (NewQueryTree rootName rootFields).2
               !! proto.Id' data).
Proof.
  intros Hs.
  pose proof (rooted_rtc _ _ _ Hs (rooted_NewQueryTree rootName rootFields))
    as HR.
  split.
  - intros (err & Hadd & Hk).
    by apply (rooted_AddChild_duplicate _ data s qt err s').
  - intros (-> & -> & Hin). unfold root_index in Hin.
    destruct (heap s !! _) as [r|] eqn:Hr;
      [|rewrite lookup_empty in Hin; by destruct Hin].
    destruct (RootNodeMap r) as [m|] eqn:Hm;
      [|cbn in Hin; rewrite lookup_empty in Hin; by destruct Hin].
    exists (ErrInvalidNodeID (proto.Id' data)). split; [|done].
    by apply (AddChild_duplicate_id_refused s _ r m).
Qed.

(** *** The root is not disposed of by a batch *)

#[local] Instance spared_preorder p : PreOrder (spared p).
Proof.
  split.
  - intros s. exists []. by rewrite told_nil.
  - intros s1 s2 s3 (us1 & E1 & F1) (us2 & E2 & F2). exists (us1 ++ us2).
    rewrite E2, E1, told_told. split; [done | by apply Forall_app].
Qed.

Lemma spared_same p s s' :
  subscriptions s' p = subscriptions s p → spared p s s'.
Proof. intros E. exists []. by rewrite told_nil. Qed.

Lemma spared_removeChild x s qt nod : spared x s (removeChild s qt nod).
Proof.
  destruct (removeChild_frame s qt nod) as (_ & S & _ & T).
  destruct (decide (x = qt)) as [->|Hne]; [|by apply spared_same, S].
  rewrite decide_bool_decide in T. destruct (bool_decide _).
  - eexists [_]. split; [exact T|]. by repeat constructor.
  - by apply spared_same.
Qed.

Lemma spared_Dispose_tail x s p :
  x ≠ p →
  spared x (update_node s p (with_Children []))
    (releaseArguments
       (removeFromParent
          (deleteFromRootIndex (update_node s p (with_Children [])) p) p) p).
Proof.
  intros Hne.
  etransitivity; [apply spared_same, subscriptions_deleteFromRootIndex|].
  etransitivity; [|apply spared_same, subscriptions_releaseArguments].
  unfold removeFromParent. destruct (heap _ !! p) as [q|]; [|reflexivity].
  destruct (Parent q); [apply spared_removeChild | reflexivity].
Qed.

Lemma rangeChildren_spares bound fuel c :
  (∀ s d s', ranked bound s → linked s →
     final (Dispose fuel s (Some d)) = Some s' →
     ∀ x, (x < d)%nat → spared x s s') →
  ∀ rounds i s s', ranked bound s → linked s →
    final (rangeChildren (Dispose fuel) c rounds i s) = Some s' →
    ∀ x, (x < c)%nat → spared x s s'.
Proof.
  intros IHd. induction rounds as [|rounds IH]; intros i s s' Hr Hl; cbn.
  { intros [= <-] x _. reflexivity. }
  destruct (heap s !! c ≫= λ q, Children q !! i) as [d|] eqn:Hcell.
  2: { rewrite Dispose_nil. cbn. intros [= <-] x _. reflexivity. }
  apply rangeChildren_cell in Hcell as (qc & Hc & _ & Hin).
  assert (Hcd : (c < d)%nat) by (specialize (Hr c qc d Hc Hin); lia).
  pose proof (IHd s d) as Hd.
  pose proof (ranked_Dispose bound fuel s (Some d)) as Hr1.
  pose proof (linked_Dispose fuel s (Some d)) as Hl1.
  destruct (Dispose fuel s (Some d)) as [[] s1|s1|]; cbn in *; try done.
  - intros Hrest x Hlt. transitivity s1; [apply Hd; [done..|lia]|].
    apply (IH (S i) s1 s'); first [by apply Hr1 | by apply Hl1 | done].
  - intros [= <-] x Hlt. apply Hd; [done..|lia].
Qed.

(** [Dispose] on [c] tells no node allocated before [c] that it is
    deleted. *)
Lemma Dispose_spares bound : ∀ fuel s c s',
  ranked bound s → linked s →
  final (Dispose fuel s (Some c)) = Some s' →
  ∀ x, (x < c)%nat → spared x s s'.
Proof.
  induction fuel as [|fuel IH]; intros s c s' Hr Hl; [done|].
  rewrite Dispose_S. destruct (heap s !! c) as [q|] eqn:Hc.
  2: { intros [= <-] x _. reflexivity. }
  set (s0 := nextUpdate s c {| Operation := Operation_Delete; Child := None |}).
  assert (Hr0 : ranked bound s0) by by apply ranked_nextUpdate.
  assert (Hl0 : linked s0)
    by by apply (keeps_nextUpdate linked linked_shrink).
  assert (H0 : ∀ x, (x < c)%nat → spared x s s0).
  { intros x Hlt. apply spared_same. unfold s0.
    rewrite subscriptions_nextUpdate, decide_False; [done | lia]. }
  pose proof (rangeChildren_spares bound fuel c IH
                (length (Children q)) 0%nat s0) as Hloop.
  destruct (rangeChildren _ _ _ _ _) as [[] s2|s2|]; cbn in *; try done.
  - intros [= <-] x Hlt. transitivity s0; [by apply H0|].
    transitivity s2; [by apply Hloop|].
    transitivity (update_node s2 c (with_Children [])).
    + by apply spared_same, subscriptions_update_node.
    + apply spared_Dispose_tail. lia.
  - intros [= <-] x Hlt. transitivity s0; [by apply H0 | by apply Hloop].
Qed.

Lemma AddChild_spares x s qt data r s' :
  AddChild s qt data = Done r s' → spared x s s'.
Proof.
  intros Hadd.
  destruct (AddChild_frame data s qt r s' Hadd) as ((_ & S & _ & _) & H).
  destruct (decide (x = qt)) as [->|Hne]; [|by apply spared_same, S].
  destruct (mintChild s qt data) as [[e|nnod] s1|s1|]; try done.
  - apply spared_same. unfold subscriptions. by rewrite H.
  - destruct H as [T _]. eexists [_]. split; [exact T|].
    repeat constructor. by destruct r.
Qed.

Section Loop.

Variable P : State → Prop.

Hypothesis P_heap : ∀ s s', heap s' = heap s → keeps P s s'.
Hypothesis P_shrink : ∀ s p f,
  (∀ n, heap s !! p = Some n → shrinks n (f n)) →
  keeps P s (update_node s p f).
Hypothesis P_alloc : ∀ s qt n new,
  heap s !! qt = Some n →
  Root new = Root n → Parent new = Some qt → Children new = [] →
  RootNodeMap new = None →
  keeps P s
    (update_node (set_heap s (<[fresh (dom (heap s)) := new]> (heap s))) qt
       (λ q, with_Children (Children q ++ [fresh (dom (heap s))]) q)).
Hypothesis P_index : ∀ s root r m id nnod,
  heap s !! root = Some r → RootNodeMap r = Some m →
  id_of s nnod = Some id →
  keeps P s
    (update_node s root (with_RootNodeMap (Some (<[id := nnod]> m)))).

Lemma keeps_applyNodeMutation fuel s qt aqn s' :
  final (applyNodeMutation fuel s qt aqn) = Some s' → keeps P s s'.
Proof.
  apply (applyNodeMutation_steps (keeps P)).
  - by apply keeps_mintChild.
  - by apply keeps_rollback.
  - by apply keeps_nextUpdate.
  - by apply keeps_clearChildren.
  - by apply keeps_deleteFromRootIndex.
  - by apply keeps_removeFromParent.
  - by apply keeps_releaseArguments.
  - intros s0 err. by apply P_heap.
Qed.

End Loop.

Lemma applyNodeMutation_spares_root fuel s qt aqn s' :
  rooted 0%nat s → index_sound s → linked s → forest s →
  final (applyNodeMutation fuel s qt aqn) = Some s' →
  spared 0%nat s s'.
Proof.
  intros HR HS HL [bound HB]. unfold applyNodeMutation.
  destruct (heap s !! qt) as [q|] eqn:Hq; cbn; [|intros [= <-]; reflexivity].
  pose proof HR as [[r Hr] HR']. destruct (HR' qt q Hq) as [-> _].
  rewrite Hr.
  destruct (default ∅ (RootNodeMap r) !! proto.NodeId aqn) as [nod|] eqn:Hn;
    [|intros [= <-]; reflexivity].
  destruct (proto.Operation aqn); [| |intros [= <-]; reflexivity].
  - assert (Hnod : is_Some (heap s !! nod)).
    { destruct (RootNodeMap r) as [m|] eqn:Hm; cbn in Hn;
        [|by rewrite lookup_empty in Hn].
      pose proof (HS 0%nat r m _ nod Hr Hm Hn) as Hid. unfold id_of in Hid.
      destruct (heap s !! nod); [by eexists | done]. }
    destruct (rooted_AddChild_Done 0%nat (proto.Node aqn) s nod HR Hnod)
      as (e & s1 & Hadd).
    pose proof (AddChild_spares 0%nat s nod _ e s1 Hadd) as Hsp.
    rewrite Hadd. destruct e as [err|]; intros [= <-]; [|done].
    etransitivity; [exact Hsp|]. by apply spared_same.
  - destruct (_ && _) eqn:Hguard; [|intros [= <-]; reflexivity].
    apply andb_prop in Hguard as [_ Hne]. apply bool_decide_eq_true in Hne.
    intros HD. apply (Dispose_spares bound fuel s nod s'); try done. lia.
Qed.

Lemma applyNodeMutations_spare_root fuel qt ops : ∀ s s',
  rooted 0%nat s → index_sound s → linked s → forest s →
  final (applyNodeMutations fuel s qt ops) = Some s' →
  spared 0%nat s s'.
Proof.
  induction ops as [|aqn rest IH]; intros s s' HR HS HL HF; cbn.
  { intros [= <-]. reflexivity. }
  pose proof (applyNodeMutation_spares_root fuel s qt aqn) as Hop.
  pose proof (keeps_applyNodeMutation (rooted 0%nat) (rooted_heap _)
                (rooted_shrink _) (rooted_alloc _) (rooted_index _)
                fuel s qt aqn) as HR1.
  pose proof (keeps_applyNodeMutation index_sound index_sound_heap
                index_sound_shrink index_sound_alloc index_sound_index
                fuel s qt aqn) as HS1.
  pose proof (keeps_applyNodeMutation linked linked_heap linked_shrink
                linked_alloc linked_index fuel s qt aqn) as HL1.
  pose proof (forest_applyNodeMutation fuel s qt aqn) as HF1.
  destruct (applyNodeMutation fuel s qt aqn) as [[] s1|s1|]; cbn in *;
    try done.
  - intros Hrest. transitivity s1; [by apply Hop|].
    apply IH; [by apply HR1 | by apply HS1 | by apply HL1 | by apply HF1
              | done].
  - intros [= <-]. by apply Hop.
Qed.

(** X22: in a state of the tree, whatever the batch, the
    subscriptions of the root are not told by [ApplyTreeMutation] that the
    root is deleted: they are the same ones when the call returns or
    panics, and the updates they have received since tell of children added
    and removed only.  [Dispose] is not called on the root, by line 71, nor
    does it come to the root from another node, the root being nobody's
    child. *)
Theorem ApplyTreeMutation_spares_root rootName rootFields fuel s qt mutation
    s' :
  rtc step (NewQueryTree rootName rootFields).1 s →
  final (ApplyTreeMutation fuel s qt mutation) = Some s' →
  spared (NewQueryTree rootName rootFields).2 s s'.
Proof.
  intros Hs.
  assert (Hreach : reachable s) by by exists rootName, rootFields.
  pose proof (rooted_rtc _ _ _ Hs (rooted_NewQueryTree rootName rootFields))
    as HR.
  pose proof (reachable_index_sound s Hreach) as HS.
  pose proof (reachable_linked s Hreach) as HL.
  pose proof (reachable_forest s Hreach) as HF.
  change (NewQueryTree rootName rootFields).2 with 0%nat in *.
  unfold ApplyTreeMutation.
  destruct (heap s !! qt); [|intros [= <-]; reflexivity].
  set (s1 := putVariables s (proto.Variables mutation)).
  assert (Hheap : heap s1 = heap s) by apply putVariables_heap.
  pose proof (applyNodeMutations_spare_root fuel qt
                (proto.NodeMutation' mutation) s1) as Hops.
  assert (H1 : spared 0%nat s s1).
  { apply spared_same. unfold subscriptions. by rewrite Hheap. }
  assert (Hinv : ∀ s2, final (applyNodeMutations fuel s1 qt
                                (proto.NodeMutation' mutation)) = Some s2 →
                       spared 0%nat s1 s2).
  { intros s2. apply Hops.
    - by apply (rooted_heap _ s).
    - by apply (index_sound_heap s).
    - by apply (linked_heap s).
    - destruct HF as [bound Hb]. exists bound. by apply (ranked_heap bound s). }
  destruct (applyNodeMutations _ _ _ _) as [[] s2|s2|]; cbn in *; try done;
    intros [= <-]; (transitivity s1; [exact H1|]).
  - transitivity s2; [by apply Hinv | by apply spared_same].
  - by apply Hinv.
Qed.

(** *** Adding a leaf and disposing of it *)

Lemma mintChild_inr_index s qt data nnod s1 :
  mintChild s qt data = Done (inr nnod) s1 →
  ∃ n nn root, heap s !! qt = Some n ∧ Root n = Some root
    ∧ heap s1 !! nnod = Some nn ∧ Root nn = Some root
    ∧ root_index s1 root = <[proto.Id' data := nnod]> (root_index s root).
Proof.
  unfold mintChild. destruct (heap s !! qt) as [n|] eqn:Hq; [|done].
  destruct (validate s n data) as [s0 [err|[c argMap]]] eqn:Hv; [done|].
  apply validate_heap in Hv.
  destruct (mint _ _ _ _ _ _) as [a s2|s2|] eqn:Hm; try done.
  intros [= <- <-].
  assert (Hq0 : heap s0 !! qt = Some n) by by rewrite Hv.
  pose proof (mint_Done_node _ _ _ _ _ _ _ _ Hq0 Hm) as Hnode.
  assert (Hidx : root_index s0 = root_index s)
    by (unfold root_index; by rewrite Hv).
  rewrite <- Hidx. clear Hidx Hv Hq.
  revert Hm Hnode. unfold mint. cbv zeta. set (b := fresh (dom (heap s0))).
  assert (Hb : heap s0 !! b = None) by apply not_elem_of_dom, is_fresh.
  assert (Hbq : b ≠ qt) by congruence.
  destruct (Root n) as [root|] eqn:HR; [|done].
  destruct (heap _ !! root) as [r|] eqn:Hr; [|done].
  destruct (RootNodeMap r) as [m|] eqn:Hmap; [|done].
  intros [= <- <-] Hnode. eexists n, _, root.
  split; [done|]. split; [done|]. split; [exact Hnode|]. split; [done|].
  unfold root_index at 1.
  rewrite lookup_update_node, decide_True, Hr by done. cbn. f_equal.
  revert Hr. rewrite lookup_update_node. cbn [heap set_heap].
  destruct (decide (root = b)) as [->|Hne].
  - rewrite decide_False, lookup_insert_eq by done. intros [= <-]. done.
  - unfold root_index. rewrite lookup_insert_ne by done.
    case_decide; destruct (heap s0 !! root); cbn; intros [= <-];
      cbn in Hmap; by rewrite Hmap.
Qed.

(** X27: in a reachable state, [AddChild] with a descriptor
    without nested descriptors, whose id the index of the root does not
    have, followed by [Dispose] on the node it has made, restores the
    tree: [Dispose] returns, every node that was there lists its children
    as before, and the index of the root is the one of before.  The
    subscriptions of [qt] have been told of the new child and then of its
    removal; those of the other nodes have been told nothing. *)
Theorem AddChild_then_Dispose_restores fuel s qt n root data s1 :
  reachable s →
  heap s !! qt = Some n → Root n = Some root →
  root_index s root !! proto.Id' data = None →
  proto.Children data = [] →
  AddChild s qt data = Done None s1 →
  ∃ nnod s2,
    children_of s1 qt = children_of s qt ++ [nnod]
    ∧ Dispose (S fuel) s1 (Some nnod) = Done tt s2
    ∧ (∀ p, p ∈ dom (heap s) → children_of s2 p = children_of s p)
    ∧ root_index s2 root = root_index s root
    ∧ subscriptions s2 qt
      = told [ {| Operation := Operation_AddChild; Child := Some nnod |};
               {| Operation := Operation_DelChild; Child := Some nnod |} ]
          (subscriptions s qt)
    ∧ (∀ p, p ∈ dom (heap s) → p ≠ qt →
         subscriptions s2 p = subscriptions s p).
Proof.
  intros Hs Hq HR Hid Hflat. rewrite AddChild_unfold, Hflat.
  destruct (mintChild s qt data) as [[err|nnod] s0| |] eqn:Hm; try done.
  cbn [applyChildren]. intros [= <-].
  destruct (mintChild_inr _ _ _ _ _ Hm) as (Hfresh & Hqd & D1 & S1 & C1 & C1' & _).
  destruct (mintChild_inr_node _ _ _ _ _ Hm)
    as (nn & Hnn & Hidn & _ & Hpar & Hleaf).
  destruct (mintChild_inr_index _ _ _ _ _ Hm)
    as (n' & nn' & root' & Hq' & HR' & Hnn' & HRn & Hindex).
  assert (n' = n) as -> by congruence.
  assert (nn' = nn) as -> by congruence.
  assert (root' = root) as -> by congruence. clear Hq' HR' Hnn'.
  assert (Hnew : nnod ∉ dom (heap s)) by (rewrite Hfresh; apply is_fresh).
  assert (Hnq : nnod ≠ qt) by (intros ->; done).
  assert (Hold : nnod ∉ children_of s qt).
  { rewrite (children_of_lookup s qt n Hq). intros Hin.
    destruct (reachable_linked s Hs qt n Hq) as [_ Hch].
    destruct (Hch nnod Hin) as (cn & Hcn & _). apply Hnew, elem_of_dom.
    by eexists. }
  set (s1 := nextUpdate s0 qt
               {| Operation := Operation_AddChild; Child := Some nnod |}).
  assert (Hnn1 : heap s1 !! nnod = Some nn).
  { unfold s1, nextUpdate. by rewrite lookup_update_node, decide_False. }
  exists nnod. rewrite Dispose_S, Hnn1, Hleaf. cbn [length rangeChildren].
  set (sa := nextUpdate s1 nnod
               {| Operation := Operation_Delete; Child := None |}).
  set (sb := update_node sa nnod (with_Children [])).
  set (sc := deleteFromRootIndex sb nnod).
  eexists. split; [unfold s1; by rewrite children_of_nextUpdate|].
  split; [reflexivity|].
  assert (Pb : persists s1 sb).
  { etransitivity; [apply (persists_nextUpdate s1 nnod)|].
    apply persists_update_node. intros ?. by repeat split. }
  assert (Pc : persists s1 sc).
  { etransitivity; [exact Pb | apply persists_deleteFromRootIndex]. }
  destruct (Pb nnod nn Hnn1) as (qb & Hqb & Ib).
  destruct (Pc nnod nn Hnn1) as (qc & Hqc & Ic).
  unfold same_identity in Ib, Ic. destruct_and!.
  assert (Hparc : ∀ q0 p, heap sc !! nnod = Some q0 → p ≠ qt →
            Parent q0 ≠ Some p).
  { intros q0 p Hq0 Hp. assert (q0 = qc) as -> by congruence. congruence. }
  assert (Cc : ∀ p, p ≠ nnod → children_of sc p = children_of s0 p).
  { intros p Hp. unfold sc. rewrite children_of_deleteFromRootIndex.
    unfold sb. rewrite children_of_update_node_ne by done.
    unfold sa, s1. by rewrite !children_of_nextUpdate. }
  assert (Sc : ∀ p, p ≠ nnod →
            subscriptions sc p
            = if decide (p = qt)
              then tell {| Operation := Operation_AddChild;
                           Child := Some nnod |} (subscriptions s qt)
              else subscriptions s p).
  { intros p Hp. unfold sc. rewrite subscriptions_deleteFromRootIndex.
    unfold sb. rewrite subscriptions_update_node by done.
    unfold sa. rewrite subscriptions_nextUpdate, decide_False by done.
    unfold s1. rewrite subscriptions_nextUpdate. by rewrite !S1. }
  split; [|split; [|split]].
  - intros p Hp. rewrite children_of_releaseArguments.
    assert (Hpn : p ≠ nnod) by (intros ->; done).
    destruct (decide (p = qt)) as [->|Hpq].
    + unfold removeFromParent. rewrite Hqc.
      assert (Parent qc = Some qt) as -> by congruence.
      transitivity (children_of s qt ++ []); [|apply app_nil_r].
      apply children_of_removeChild; [|done]. by rewrite Cc, C1.
    + rewrite children_of_removeFromParent_ne by (intros q0 Hq0; by eapply Hparc).
      rewrite Cc by done. by apply C1'.
  - rewrite root_index_releaseArguments, root_index_removeFromParent.
    unfold sc, deleteFromRootIndex. rewrite Hqb.
    assert (Root qb = Some root) as -> by congruence.
    rewrite root_index_delete. unfold sb, sa, s1, nextUpdate.
    rewrite !root_index_update_node by done.
    assert (Id qb = proto.Id' data) as -> by congruence.
    rewrite Hindex. rewrite delete_insert_eq. by apply delete_id.
  - rewrite subscriptions_releaseArguments.
    unfold removeFromParent. rewrite Hqc.
    assert (Parent qc = Some qt) as -> by congruence.
    destruct (removeChild_frame sc qt nnod) as (_ & _ & _ & T). rewrite T.
    rewrite decide_True.
    + rewrite Sc, decide_True by done. by rewrite !tell_told, told_told.
    + rewrite Cc, C1 by done. apply elem_of_app. right. by apply list_elem_of_singleton.
  - intros p Hp Hpq. assert (Hpn : p ≠ nnod) by (intros ->; done).
    rewrite subscriptions_releaseArguments.
    rewrite subscriptions_removeFromParent_ne by (intros q0 Hq0; by eapply Hparc).
    by rewrite Sc, decide_False.
Qed.

(** *** Deleting a leaf through [ApplyTreeMutation] *)

Lemma filter_ne_absent (p : addr) (l : list addr) :
  p ∉ l → filter (λ c, c ≠ p) l = l.
Proof.
  induction l as [|a l IH]; [done|].
  intros [Hne Hl]%not_elem_of_cons.
  rewrite filter_cons_True by done. f_equal. by apply IH.
Qed.

Lemma delete_NoDup_filter (l : list addr) : ∀ i x,
  NoDup l → l !! i = Some x → delete i l = filter (λ c, c ≠ x) l.
Proof.
  induction l as [|a l IH]; intros [|i] x Hnd Hi; try done; cbn in Hi.
  - injection Hi as ->. apply NoDup_cons in Hnd as [Hx _].
    rewrite filter_cons_False by (intros H; by apply H).
    symmetry. by apply filter_ne_absent.
  - apply NoDup_cons in Hnd as [Ha Hnd].
    rewrite filter_cons_True.
    + cbn. f_equal. by apply IH.
    + intros ->. apply Ha. by eapply list_elem_of_lookup_2.
Qed.

Lemma children_of_removeChild_NoDup s qt nod :
  NoDup (children_of s qt) →
  children_of (removeChild s qt nod) qt
  = filter (λ c, c ≠ nod) (children_of s qt).
Proof.
  unfold removeChild. destruct (heap s !! qt) as [n|] eqn:Hq.
  - rewrite (children_of_lookup s qt n Hq). intros Hnd.
    destruct (list_find _ _) as [[i item]|] eqn:Hf.
    + apply list_find_Some in Hf as (Hi & -> & _).
      rewrite children_of_nextUpdate. unfold children_of.
      rewrite lookup_update_node, decide_True, Hq by done. cbn.
      by apply delete_NoDup_filter.
    + apply list_find_None in Hf.
      rewrite (children_of_lookup s qt n Hq). symmetry.
      apply filter_ne_absent. intros Hin.
      rewrite Forall_forall in Hf. by apply (Hf nod).
  - intros _. unfold children_of. by rewrite Hq.
Qed.

Lemma linked_NoDup s x : linked s → NoDup (children_of s x).
Proof.
  intros L. unfold children_of. destruct (heap s !! x) as [n|] eqn:Hx; cbn.
  - by destruct (L x n Hx).
  - apply NoDup_nil_2.
Qed.

Lemma linked_parent s x p q :
  linked s → p ∈ children_of s x → heap s !! p = Some q → Parent q = Some x.
Proof.
  intros L. unfold children_of. destruct (heap s !! x) as [n|] eqn:Hx; cbn.
  - intros Hin Hp. destruct (L x n Hx) as [_ Hch].
    destruct (Hch p Hin) as (cn & Hcn & Hpar). congruence.
  - by intros ?%elem_of_nil.
Qed.

Lemma Dispose_leaf_tree fuel s p q :
  linked s → heap s !! p = Some q → Children q = [] →
  ∃ s', Dispose (S fuel) s (Some p) = Done tt s'
    ∧ (∀ root, Root q = Some root →
         root_index s' root = delete (Id q) (root_index s root))
    ∧ (∀ x, children_of s' x = filter (λ c, c ≠ p) (children_of s x)).
Proof.
  intros L Hp Hleaf. rewrite Dispose_S, Hp, Hleaf. cbn [length rangeChildren].
  set (s0 := nextUpdate s p {| Operation := Operation_Delete; Child := None |}).
  set (s3 := update_node s0 p (with_Children [])).
  set (s4 := deleteFromRootIndex s3 p).
  eexists. split; [reflexivity|].
  assert (P3 : persists s s3).
  { etransitivity; [apply (persists_nextUpdate s p)|].
    apply persists_update_node. intros ?. by repeat split. }
  assert (P4 : persists s s4).
  { etransitivity; [exact P3 | apply persists_deleteFromRootIndex]. }
  destruct (P3 p q Hp) as (q3 & Hq3 & I3).
  destruct (P4 p q Hp) as (q4 & Hq4 & I4).
  unfold same_identity in I3, I4. destruct_and!.
  assert (C4 : ∀ x, children_of s4 x = children_of s x).
  { intros x. unfold s4. rewrite children_of_deleteFromRootIndex.
    destruct (decide (p = x)) as [<-|Hne].
    - unfold s3, children_of. rewrite lookup_update_node, decide_True by done.
      unfold s0, nextUpdate. rewrite lookup_update_node, decide_True by done.
      by rewrite Hp.
    - unfold s3. rewrite children_of_update_node_ne by done.
      unfold s0. by rewrite children_of_nextUpdate. }
  split.
  - intros root HR. rewrite root_index_releaseArguments.
    rewrite root_index_removeFromParent.
    unfold s4, deleteFromRootIndex. rewrite Hq3.
    assert (Root q3 = Some root) as -> by congruence.
    rewrite root_index_delete. unfold s3, s0, nextUpdate.
    rewrite !root_index_update_node by done. congruence.
  - intros x. rewrite children_of_releaseArguments.
    unfold removeFromParent. rewrite Hq4.
    destruct (Parent q4) as [parent|] eqn:Hpar.
    + destruct (decide (x = parent)) as [->|Hx].
      * rewrite children_of_removeChild_NoDup; rewrite C4; [done|].
        by apply linked_NoDup.
      * rewrite children_of_removeChild_ne, C4 by done.
        symmetry. apply filter_ne_absent. intros Hin.
        pose proof (linked_parent s x p q L Hin Hp). congruence.
    + rewrite C4. symmetry. apply filter_ne_absent. intros Hin.
      pose proof (linked_parent s x p q L Hin Hp). congruence.
Qed.

(** X28: in a state of the tree, [ApplyTreeMutation] with one
    mutation that deletes an id other than 0, when the index of the root
    leads from the id to a node that is not the root and lists no
    children, returns.  The id has left the index, which has its other
    entries as before, and every node lists the children it listed, in
    the same order, without the deleted node. *)
Theorem ApplyTreeMutation_deletes_leaf fuel s qt n root mutation aqn p :
  reachable s →
  heap s !! qt = Some n → Root n = Some root →
  proto.NodeMutation' mutation = [aqn] →
  proto.Operation aqn = proto.SUBTREE_DELETE →
  proto.NodeId aqn ≠ 0 →
  root_index s root !! proto.NodeId aqn = Some p →
  p ≠ root → children_of s p = [] →
  ∃ s', ApplyTreeMutation (S fuel) s qt mutation = Done tt s'
    ∧ root_index s' root = delete (proto.NodeId aqn) (root_index s root)
    ∧ (∀ x, children_of s' x = filter (λ c, c ≠ p) (children_of s x)).
Proof.
  intros Hs Hqt HR Hops Hop Hid Hidx Hpr Hleaf.
  pose proof (reachable_linked s Hs) as L.
  pose proof (reachable_index_sound s Hs) as IS.
  assert (HRall : ∀ x nx, heap s !! x = Some nx → Root nx = Some root).
  { destruct Hs as (rootName & rootFields & Hrtc).
    destruct (rooted_rtc _ _ _ Hrtc (rooted_NewQueryTree rootName rootFields))
      as [_ HRt].
    intros x nx Hx. destruct (HRt x nx Hx) as [-> _].
    destruct (HRt qt n Hqt) as [<- _]. done. }
  assert (Hr : ∃ r m, heap s !! root = Some r ∧ RootNodeMap r = Some m
                 ∧ m !! proto.NodeId aqn = Some p).
  { revert Hidx. unfold root_index.
    destruct (heap s !! root) as [r|]; [|by rewrite lookup_empty].
    destruct (RootNodeMap r) as [m|] eqn:Hm; cbn; [|by rewrite lookup_empty].
    intros Hmp. by exists r, m. }
  destruct Hr as (r & m & Hr & Hm & Hmp).
  pose proof (IS root r m _ p Hr Hm Hmp) as Hidp. unfold id_of in Hidp.
  destruct (heap s !! p) as [q|] eqn:Hp; [|done]. cbn in Hidp.
  rewrite (children_of_lookup s p q Hp) in Hleaf.
  set (s1 := putVariables s (proto.Variables mutation)).
  assert (H1 : heap s1 = heap s) by apply putVariables_heap.
  assert (Hp1 : heap s1 !! p = Some q) by by rewrite H1.
  destruct (Dispose_leaf_tree fuel s1 p q (linked_heap s s1 H1 L) Hp1 Hleaf)
    as (s2 & HD & Hindex & Hch).
  exists (set_store s2 (vs_GarbageCollect (store s2))).
  split; [|split].
  - unfold ApplyTreeMutation. rewrite Hqt. cbv zeta. fold s1. rewrite Hops.
    cbn [applyNodeMutations]. unfold applyNodeMutation.
    rewrite H1, Hqt. cbn [mbind option_bind]. rewrite HR, Hr, Hm. cbn [default from_option id].
    rewrite Hmp, Hop.
    rewrite !bool_decide_eq_true_2 by done. cbn [andb]. by rewrite HD.
  - transitivity (root_index s2 root); [done|].
    rewrite (Hindex root (HRall p q Hp)).
    unfold root_index. rewrite H1. congruence.
  - intros x. transitivity (children_of s2 x); [done|].
    rewrite Hch. unfold children_of. by rewrite H1.
Qed.

End Properties.

(** ** The code on concrete trees *)

Section Runs.
Import Example.

Example tree_user_shape :
  children_of tree_user root = [1%nat]
  ∧ map_to_list (root_index tree_user root) = [(1, 1%nat); (0, 0%nat)]
  ∧ (AST <$> heap tree_user !! 1%nat)
    = Some (Some (ast.ObjectDefinition "User" User)).
Proof. vm_compute. done. Qed.

Example tree_user2_shape :
  children_of tree_user2 root = [1%nat]
  ∧ children_of tree_user2 1%nat = [2%nat; 3%nat]
  ∧ map_to_list (root_index tree_user2 root)
    = [(3, 3%nat); (2, 2%nat); (1, 1%nat); (0, 0%nat)]
  ∧ elements (vs_references (store tree_user2))
    = [{| vr_variable := 1; vr_id := 0 |}].
Proof. vm_compute. done. Qed.

(** The example trees are states of a tree: each is what one batch makes
    of the new tree. *)
Lemma reachable_after_batch fuel mutation :
  final (apply fuel tree mutation) = Some (after (apply fuel tree mutation)) →
  reachable types_IsPrimitive LookupType (after (apply fuel tree mutation)).
Proof.
  intros H. exists "Query", Query. eapply rtc_l; [|apply rtc_refl].
  by apply (step_ApplyTreeMutation _ _ fuel tree root mutation).
Qed.

Lemma reachable_tree : reachable types_IsPrimitive LookupType tree.
Proof. exists "Query", Query. apply rtc_refl. Qed.

Lemma reachable_tree_user : reachable types_IsPrimitive LookupType tree_user.
Proof. apply reachable_after_batch. vm_compute. reflexivity. Qed.

Lemma reachable_tree_user2 : reachable types_IsPrimitive LookupType tree_user2.
Proof. apply reachable_after_batch. vm_compute. reflexivity. Qed.

Lemma reachable_tree_count : reachable types_IsPrimitive LookupType tree_count.
Proof. apply reachable_after_batch. vm_compute. reflexivity. Qed.

(** C1, on the code: [AddChild] on node 1, which is not the root, with
    the proposed id 1, an id that the root index holds.  The check of
    line 88 reads [qt.RootNodeMap], nil on every node but the root, so the
    call returns no error: a second node with id 1 is inserted under
    node 1, and the entry of id 1 in the root index now leads to it. *)
Theorem AddChild_duplicate_id_below_root :
  root_index tree_user root !! 1 = Some 1%nat
  ∧ match AddChild types_IsPrimitive LookupType tree_user 1%nat
            (descriptor 1 "friends" [] []) with
    | Done None s =>
        children_of s root = [1%nat]
        ∧ children_of s 1%nat = [2%nat]
        ∧ id_of s 1%nat = Some 1
        ∧ id_of s 2%nat = Some 1
        ∧ root_index s root !! 1 = Some 2%nat
    | _ => False
    end.
Proof. vm_compute. done. Qed.

(** C2, on the code: [AddChild] on the root with a descriptor for node 5
    ([user], one argument bound to variable 1) whose nested descriptors
    are node 6 ([name], valid) and node 7 ([nope], no such field).  The
    call returns the error of node 7 and the children of the root are as
    before, but the root index keeps the id 6 of the nested child inserted
    before the failure, and the reference to variable 1 acquired for node
    5 is still outstanding.  In the batch that carries this operation the
    sweep therefore cannot reclaim variable 1, which no node refers to. *)
Theorem AddChild_rollback_leaves_nested_id_and_reference :
  children_of tree_vars root = []
  ∧ map_to_list (root_index tree_vars root) = [(0, 0%nat)]
  ∧ vs_references (store tree_vars) = ∅
  ∧ match AddChild types_IsPrimitive LookupType tree_vars root
            (descriptor 5 "user" [arg "a" 1]
               [descriptor 6 "name" [] []; descriptor 7 "nope" [] []]) with
    | Done (Some err) s =>
        err = ErrInvalidField "nope" "User"
        ∧ children_of s root = []
        ∧ map_to_list (root_index s root) = [(6, 2%nat); (0, 0%nat)]
        ∧ elements (vs_references (store s))
          = [{| vr_variable := 1; vr_id := 0 |}]
        ∧ vs_refcount (store s) 1 = 1%nat
    | _ => False
    end
  ∧ match apply 0 tree
            (batch [alice; bob]
               [add 0 (descriptor 5 "user" [arg "a" 1]
                         [descriptor 6 "name" [] [];
                          descriptor 7 "nope" [] []])]) with
    | Done _ s =>
        children_of s root = []
        ∧ map_to_list (root_index s root) = [(6, 2%nat); (0, 0%nat)]
        ∧ map_to_list (vs_variables (store s)) = [(1, "alice"%string)]
    | _ => False
    end.
Proof. vm_compute. done. Qed.

Lemma Dispose_two_children_outcome :
  Dispose 3 tree_user2 (Some 1%nat)
  = Panic (after (Dispose 3 tree_user2 (Some 1%nat))).
Proof. vm_compute. reflexivity. Qed.

(** C3, on the code: [Dispose] on node 1, whose children are node 2 and
    node 3, with any fuel from 3 on.  Disposing node 2 moves node 3 down to
    cell 0 and sets cell 1 to nil; the second round of the range reads cell
    1 and calls [Dispose] on nil, which panics.  Node 3 is never disposed:
    it is still a child of node 1, the ids 1 and 3 are still in the root
    index, and the reference that node 3 holds to variable 1 is still
    outstanding. *)
Theorem Dispose_two_children_panics (fuel : nat) :
  match Dispose (3 + fuel) tree_user2 (Some 1%nat) with
  | Panic s =>
      children_of s 1%nat = [3%nat]
      ∧ map_to_list (root_index s root)
        = [(3, 3%nat); (1, 1%nat); (0, 0%nat)]
      ∧ elements (vs_references (store s))
        = [{| vr_variable := 1; vr_id := 0 |}]
  | _ => False
  end.
Proof.
  rewrite (Dispose_fuel_le 3 (3 + fuel) _ _ _ ltac:(lia)
             Dispose_two_children_outcome ltac:(done)).
  vm_compute. done.
Qed.

(** C4, on the code: a batch that adds node 1 ([user]) under the root and
    then a node with the proposed id 0 under node 1; a second batch that
    also deletes node 1.  The second operation passes the check of line
    88 (see C1) and takes the entry of id 0 in the root index away from
    the root; the deletion of node 1 disposes its child and deletes the
    entry of id 0.  Both calls return, and the root is no longer in the
    root index under id 0. *)
Theorem ApplyTreeMutation_root_leaves_index :
  root_index tree root !! 0 = Some root
  ∧ match apply 3 tree
            (batch [] [add 0 (descriptor 1 "user" [] []);
                       add 1 (descriptor 0 "name" [] [])]) with
    | Done _ s => root_index s root !! 0 = Some 2%nat ∧ stdout s = []
    | _ => False
    end
  ∧ match apply 3 tree
            (batch [] [add 0 (descriptor 1 "user" [] []);
                       add 1 (descriptor 0 "name" [] []);
                       del 1]) with
    | Done _ s => map_to_list (root_index s root) = [] ∧ stdout s = []
    | _ => False
    end.
Proof. vm_compute. done. Qed.

(** The guard of line 71 by itself does what it says: a delete operation
    with the target id 0 changes nothing. *)
Lemma applyNodeMutation_delete_root fuel s qt node :
  match applyNodeMutation types_IsPrimitive LookupType fuel s qt
          {| proto.NodeId := 0; proto.Operation := proto.SUBTREE_DELETE;
             proto.Node := node |} with
  | Done _ s' | Panic s' => s' = s
  | OutOfFuel => False
  end.
Proof.
  unfold applyNodeMutation. destruct (heap s !! qt ≫= Root) as [r|]; [|done].
  destruct (heap s !! r) as [rn|]; [|done]. cbn.
  by destruct (default ∅ (RootNodeMap rn) !! 0).
Qed.

(** C6, on the code: [AddChild] on the root with the arguments [a] bound
    to variable 1, [a] again bound to variable 2, and [b] bound to
    variable 99, which the store does not have.  The call fails on
    variable 99 and no node is created, but line 153 has overwritten the
    reference to variable 1 in [argMap], so the cleanup of lines 148-150
    releases the reference to variable 2 only.  In the batch that carries
    this operation the sweep therefore cannot reclaim variable 1. *)
Theorem AddChild_unknown_variable_leaks_overwritten_reference :
  vs_references (store tree_vars) = ∅
  ∧ match AddChild types_IsPrimitive LookupType tree_vars root
            (descriptor 5 "user" [arg "a" 1; arg "a" 2; arg "b" 99] []) with
    | Done (Some err) s =>
        err = ErrVariableNotFound 99 "b"
        ∧ heap s = heap tree_vars
        ∧ elements (vs_references (store s))
          = [{| vr_variable := 1; vr_id := 0 |}]
        ∧ vs_calls (store s)
          = vs_calls (store tree_vars)
            ++ [CallGet 1 (Some {| vr_variable := 1; vr_id := 0 |});
                CallGet 2 (Some {| vr_variable := 2; vr_id := 1 |});
                CallGet 99 None;
                CallUnsubscribe {| vr_variable := 2; vr_id := 1 |}]
    | _ => False
    end
  ∧ match apply 0 tree
            (batch [alice; bob]
               [add 0 (descriptor 5 "user"
                         [arg "a" 1; arg "a" 2; arg "b" 99] [])]) with
    | Done _ s =>
        heap s = heap tree
        ∧ map_to_list (vs_variables (store s)) = [(1, "alice"%string)]
    | _ => False
    end.
Proof. vm_compute. done. Qed.

(** C5 at work: node 1 of [tree_count] selects an [Int]. *)
Lemma AddChild_primitive_not_selectable_witness :
  (IsPrimitive <$> heap tree_count !! 1%nat) = Some true
  ∧ AddChild types_IsPrimitive LookupType tree_count 1%nat
      (descriptor 9 "digits" [] [])
    = Done (Some (ErrNotSelectable 9 None)) tree_count.
Proof.
  assert (Hn : ∃ n, heap tree_count !! 1%nat = Some n ∧ IsPrimitive n = true).
  { vm_compute. eexists. split; reflexivity. }
  destruct Hn as (n & Hn & Hp). split; [by rewrite Hn, <- Hp|].
  exact (proj1 (AddChild_primitive_not_selectable types_IsPrimitive LookupType
                  tree_count 1%nat n (descriptor 9 "digits" [] [])
                  reachable_tree_count Hn Hp)).
Defined.



Example ApplyTreeMutation_calls_run :
  match apply 1 tree
          (batch [alice] [add 0 (descriptor 1 "user" [arg "a" 1] [])]) with
  | Done _ s' =>
      vs_calls (store s')
      = [CallPut alice;
         CallGet 1 (Some {| vr_variable := 1; vr_id := 0 |});
         CallGarbageCollect]
  | _ => False
  end.
Proof. vm_compute. done. Qed.

(** C9 at work: node 2 is added under node 1 while the root and node 1
    are watched. *)
Lemma AddChild_success_tells_parent_once_witness :
  AddChild types_IsPrimitive LookupType watched 1%nat name2 = Done None added
  ∧ subscriptions added 1%nat
    = tell {| Operation := Operation_AddChild;
              Child := Some (fresh (dom (heap watched))) |}
        (subscriptions watched 1%nat)
  ∧ subscriptions added root = subscriptions watched root.
Proof.
  assert (Hadd : AddChild types_IsPrimitive LookupType watched 1%nat name2
                 = Done None added) by (vm_compute; reflexivity).
  split; [exact Hadd|].
  destruct (AddChild_success_tells_parent_once types_IsPrimitive LookupType
              watched 1%nat name2 added Hadd) as (_ & _ & _ & T & S).
  split; [exact T|]. apply S. discriminate.
Defined.

Example AddChild_success_run :
  map_to_list (subscriptions watched root) = [(0, [])]
  ∧ map_to_list (subscriptions watched 1%nat) = [(0, [])]
  ∧ map_to_list (subscriptions added root) = [(0, [])]
  ∧ map_to_list (subscriptions added 1%nat)
    = [(0, [{| Operation := Operation_AddChild; Child := Some 2%nat |}])]
  ∧ children_of added 1%nat = [2%nat].
Proof. vm_compute. done. Qed.

(** C10 at work: the node for [friends] is made under node 1, the nested
    descriptor has a field that [User] does not have. *)
Lemma AddChild_rollback_tells_parent_of_removal_witness :
  mintChild types_IsPrimitive LookupType watched 1%nat friends2
  = Done (inr 2%nat) minted
  ∧ AddChild types_IsPrimitive LookupType watched 1%nat friends2
    = Done (Some (ErrInvalidField "nope" "User")) rolled_back
  ∧ subscriptions rolled_back 1%nat
    = tell {| Operation := Operation_DelChild; Child := Some 2%nat |}
        (subscriptions watched 1%nat)
  ∧ subscriptions rolled_back root = subscriptions watched root.
Proof.
  assert (Hmint : mintChild types_IsPrimitive LookupType watched 1%nat
                    friends2 = Done (inr 2%nat) minted)
    by (vm_compute; reflexivity).
  assert (Hadd : AddChild types_IsPrimitive LookupType watched 1%nat friends2
                 = Done (Some (ErrInvalidField "nope" "User")) rolled_back)
    by (vm_compute; reflexivity).
  split; [exact Hmint|]. split; [exact Hadd|].
  destruct (AddChild_rollback_tells_parent_of_removal types_IsPrimitive
              LookupType watched 1%nat friends2 2%nat minted _ rolled_back
              Hmint Hadd) as (_ & T & S & _).
  split; [exact T|]. apply S. discriminate.
Defined.

Example AddChild_rollback_run :
  map_to_list (subscriptions rolled_back root) = [(0, [])]
  ∧ map_to_list (subscriptions rolled_back 1%nat)
    = [(0, [{| Operation := Operation_DelChild; Child := Some 2%nat |}])]
  ∧ children_of rolled_back 1%nat = []
  ∧ map_to_list (root_index rolled_back root) = [(1, 1%nat); (0, 0%nat)].
Proof. vm_compute. done. Qed.

(** *** The further properties at work *)

Lemma rtc_tree_user : rtc (step types_IsPrimitive LookupType) tree tree_user.
Proof.
  eapply rtc_l; [|apply rtc_refl].
  apply (step_ApplyTreeMutation _ _ 1 tree root
           (batch [] [add 0 (descriptor 1 "user" [] [])])).
  vm_compute. reflexivity.
Qed.

Lemma reachable_tree_chain : reachable types_IsPrimitive LookupType tree_chain.
Proof. apply reachable_after_batch. vm_compute. reflexivity. Qed.

Lemma reachable_children_point_back_witness :
  2%nat ∈ Children (node_at tree_user2 1%nat)
  ∧ ∃ cn, heap tree_user2 !! 2%nat = Some cn ∧ Parent cn = Some 1%nat.
Proof.
  assert (Hn : heap tree_user2 !! 1%nat = Some (node_at tree_user2 1%nat))
    by (vm_compute; reflexivity).
  assert (Hc : 2%nat ∈ Children (node_at tree_user2 1%nat)).
  { assert (E : Children (node_at tree_user2 1%nat) = [2%nat; 3%nat])
      by (vm_compute; reflexivity).
    rewrite E. apply elem_of_cons. by left. }
  split; [exact Hc|].
  exact (proj1 (proj2 (proj2
           (reachable_children_point_back types_IsPrimitive LookupType
              tree_user2 1%nat _ 2%nat reachable_tree_user2 Hn Hc)))).
Defined.

Lemma reachable_root_pointer_witness :
  heap tree_user !! 1%nat = Some (node_at tree_user 1%nat)
  ∧ Root (node_at tree_user 1%nat) = Some root.
Proof.
  assert (Hn : heap tree_user !! 1%nat = Some (node_at tree_user 1%nat))
    by (vm_compute; reflexivity).
  split; [exact Hn|].
  exact (proj1 (proj2
           (reachable_root_pointer types_IsPrimitive LookupType "Query" Query
              tree_user 1%nat _ rtc_tree_user Hn))).
Defined.

Lemma reachable_index_leads_to_id_witness :
  root_index tree_user2 root !! 3 = Some 3%nat
  ∧ ∃ n, heap tree_user2 !! 3%nat = Some n ∧ Id n = 3.
Proof.
  assert (Hi : root_index tree_user2 root !! 3 = Some 3%nat)
    by (vm_compute; reflexivity).
  split; [exact Hi|].
  exact (reachable_index_leads_to_id types_IsPrimitive LookupType tree_user2
           root 3 3%nat reachable_tree_user2 Hi).
Defined.


Lemma AddChild_unknown_field_refused_witness :
  AddChild types_IsPrimitive LookupType tree root (descriptor 5 "nope" [] [])
  = Done (Some (ErrInvalidField "nope" "Query")) tree.
Proof.
  apply (AddChild_unknown_field_refused types_IsPrimitive LookupType tree root
           (node_at tree root) "Query" Query (descriptor 5 "nope" [] [])).
  - vm_compute. reflexivity.
  - vm_compute. reflexivity.
  - vm_compute. reflexivity.
  - cbn. rewrite !not_elem_of_cons. repeat split; try discriminate.
    apply not_elem_of_nil.
Defined.

Lemma AddChild_flat_failure_changes_no_node_witness :
  AddChild types_IsPrimitive LookupType tree_vars root flat_unknown
  = Done (Some (ErrVariableNotFound 99 "a"))
      (after (AddChild types_IsPrimitive LookupType tree_vars root
                flat_unknown))
  ∧ heap (after (AddChild types_IsPrimitive LookupType tree_vars root
                   flat_unknown))
    = heap tree_vars.
Proof.
  assert (Hadd : AddChild types_IsPrimitive LookupType tree_vars root
                   flat_unknown
                 = Done (Some (ErrVariableNotFound 99 "a"))
                     (after (AddChild types_IsPrimitive LookupType tree_vars
                               root flat_unknown)))
    by (vm_compute; reflexivity).
  split; [exact Hadd|].
  exact (proj1 (AddChild_flat_failure_changes_no_node types_IsPrimitive
                  LookupType tree_vars root flat_unknown _ _ eq_refl Hadd)).
Defined.

Lemma removeChild_cuts_first_occurrence_witness :
  children_of tree_user2 1%nat = [2%nat; 3%nat]
  ∧ children_of (removeChild tree_user2 1%nat 2%nat) 1%nat = [3%nat].
Proof.
  assert (Hn : heap tree_user2 !! 1%nat = Some (node_at tree_user2 1%nat))
    by (vm_compute; reflexivity).
  assert (Hc : Children (node_at tree_user2 1%nat) = [] ++ 2%nat :: [3%nat])
    by (vm_compute; reflexivity).
  split; [vm_compute; reflexivity|].
  exact (proj1 (proj2 (removeChild_cuts_first_occurrence tree_user2 1%nat _
                         2%nat Hn) [] [3%nat] Hc (not_elem_of_nil _))).
Defined.

Lemma SubscribeChanges_receives_later_updates_witness :
  heap tree_user !! root = Some (node_at tree_user root)
  ∧ subscriptions
      (nextUpdate (SubscribeChanges tree_user root).1 root
         {| Operation := Operation_AddChild; Child := Some 7%nat |})
      root !! 0
    = Some [{| Operation := Operation_AddChild; Child := Some 7%nat |}].
Proof.
  assert (Hn : heap tree_user !! root = Some (node_at tree_user root))
    by (vm_compute; reflexivity).
  split; [exact Hn|].
  exact (proj1 (proj2 (proj2
           (SubscribeChanges_receives_later_updates tree_user root _
              [{| Operation := Operation_AddChild; Child := Some 7%nat |}]
              Hn)))).
Defined.

Lemma removeSubscription_undoes_SubscribeChanges_witness :
  subscribers (node_at tree_user root) !! subCtr (node_at tree_user root)
  = None
  ∧ subscriptions
      (nextUpdate
         (removeSubscription (SubscribeChanges tree_user root).1 root 0)
         root {| Operation := Operation_AddChild; Child := Some 7%nat |})
      root !! 0
    = None.
Proof.
  assert (Hn : heap tree_user !! root = Some (node_at tree_user root))
    by (vm_compute; reflexivity).
  assert (Hfree : subscribers (node_at tree_user root)
                  !! subCtr (node_at tree_user root) = None)
    by (vm_compute; reflexivity).
  split; [exact Hfree|].
  exact (proj2 (proj2
           (removeSubscription_undoes_SubscribeChanges tree_user root _
              Hn Hfree))
           {| Operation := Operation_AddChild; Child := Some 7%nat |}).
Defined.

Lemma SubscribeChanges_fresh_id_witness :
  subscribers (node_at watched root) = {[ 0 := [] ]}
  ∧ subCtr (node_at watched root) = 1
  ∧ subscribers (node_at watched root) !! (SubscribeChanges watched root).2.2
    = None.
Proof.
  assert (Hn : heap watched !! root = Some (node_at watched root))
    by (vm_compute; reflexivity).
  assert (Hsubs : subscribers (node_at watched root) = {[ 0 := [] ]})
    by (vm_compute; reflexivity).
  assert (Hctr : subCtr (node_at watched root) = 1)
    by (vm_compute; reflexivity).
  split; [exact Hsubs|]. split; [exact Hctr|].
  refine (proj1 (SubscribeChanges_fresh_id watched root _ Hn _ _)).
  - intros id [x Hx]. rewrite Hsubs in Hx.
    apply lookup_singleton_Some in Hx as [<- _]. rewrite Hctr. lia.
  - rewrite Hctr. lia.
Defined.

Lemma SubscribeChanges_wraps_witness :
  subCtr (node_at crowded root) = 2 ^ 32 - 1
  ∧ (SubscribeChanges (SubscribeChanges crowded root).1 root).2 = (root, 0)
  ∧ subscriptions (SubscribeChanges (SubscribeChanges crowded root).1 root).1
      root !! 0
    = Some [].
Proof.
  assert (Hn : heap crowded !! root = Some (node_at crowded root))
    by (vm_compute; reflexivity).
  assert (Hctr : subCtr (node_at crowded root) = 2 ^ 32 - 1)
    by (vm_compute; reflexivity).
  split; [exact Hctr|].
  exact (SubscribeChanges_wraps crowded root _ Hn Hctr).
Defined.

Lemma tree_operations_only_deliver_witness :
  final (AddChild types_IsPrimitive LookupType watched 1%nat name2)
  = Some added
  ∧ delivers watched added.
Proof.
  assert (Hadd : final (AddChild types_IsPrimitive LookupType watched 1%nat
                          name2) = Some added) by (vm_compute; reflexivity).
  split; [exact Hadd|].
  apply (tree_operations_only_deliver types_IsPrimitive LookupType).
  right. left. exists 1%nat, name2. exact Hadd.
Defined.

Lemma ApplyTreeMutation_prints_failed_adds_witness :
  stdout (after (apply 1 tree one_failing_add))
  = [ErrInvalidField "nope" "Query"]
  ∧ ∃ errs, stdout (after (apply 1 tree one_failing_add))
            = stdout tree ++ errs
      ∧ (length errs
         ≤ length (filter (λ aqn, proto.Operation aqn
                                  = proto.SUBTREE_ADD_CHILD)
                     (proto.NodeMutation' one_failing_add)))%nat.
Proof.
  split; [vm_compute; reflexivity|].
  apply (ApplyTreeMutation_prints_failed_adds types_IsPrimitive LookupType 1
           tree root one_failing_add).
  vm_compute. reflexivity.
Defined.


Lemma Dispose_terminates_witness :
  ∃ fuel0 o, o ≠ OutOfFuel
    ∧ ∀ fuel, (fuel0 ≤ fuel)%nat → Dispose fuel tree_user2 (Some 1%nat) = o.
Proof.
  exact (Dispose_terminates types_IsPrimitive LookupType tree_user2
           (Some 1%nat) reachable_tree_user2).
Defined.

Lemma nodes_stay_with_their_identity_witness :
  heap tree !! root = Some (node_at tree root)
  ∧ ∃ n', heap tree_user !! root = Some n'
          ∧ Id n' = Id (node_at tree root)
          ∧ Parent n' = Parent (node_at tree root).
Proof.
  assert (Hn : heap tree !! root = Some (node_at tree root))
    by (vm_compute; reflexivity).
  split; [exact Hn|].
  destruct (nodes_stay_with_their_identity types_IsPrimitive LookupType tree
              tree_user root _ rtc_tree_user Hn)
    as (n' & Hn' & Hid & _ & Hpar & _).
  exists n'. split; [exact Hn'|]. split; [exact Hid | exact Hpar].
Defined.

Lemma AddChild_success_mirrors_descriptor_witness :
  AddChild types_IsPrimitive LookupType tree root user_name
  = Done None tree_grown
  ∧ ∃ nnod, children_of tree_grown root = children_of tree root ++ [nnod]
            ∧ mirrors (dom (heap tree)) tree_grown root nnod user_name.
Proof.
  assert (Hadd : AddChild types_IsPrimitive LookupType tree root user_name
                 = Done None tree_grown) by (vm_compute; reflexivity).
  split; [exact Hadd|].
  exact (AddChild_success_mirrors_descriptor types_IsPrimitive LookupType
           tree root user_name tree_grown Hadd).
Defined.

Lemma AddChild_failure_keeps_children_witness :
  AddChild types_IsPrimitive LookupType tree_user 1%nat friends2
  = Done (Some (ErrInvalidField "nope" "User"))
      (after (AddChild types_IsPrimitive LookupType tree_user 1%nat friends2))
  ∧ children_of
      (after (AddChild types_IsPrimitive LookupType tree_user 1%nat friends2))
      1%nat
    = children_of tree_user 1%nat.
Proof.
  assert (Hadd : AddChild types_IsPrimitive LookupType tree_user 1%nat
                   friends2
                 = Done (Some (ErrInvalidField "nope" "User"))
                     (after (AddChild types_IsPrimitive LookupType tree_user
                               1%nat friends2)))
    by (vm_compute; reflexivity).
  split; [exact Hadd|].
  apply (AddChild_failure_keeps_children types_IsPrimitive LookupType
           tree_user 1%nat friends2 _ _ reachable_tree_user Hadd).
  apply elem_of_dom. vm_compute. by eexists.
Defined.


Lemma Dispose_panics_on_two_children_witness :
  length (Children (node_at tree_user2 1%nat)) = 2%nat
  ∧ ∃ fuel0 s', ∀ fuel, (fuel0 ≤ fuel)%nat →
      Dispose fuel tree_user2 (Some 1%nat) = Panic s'.
Proof.
  assert (Hn : heap tree_user2 !! 1%nat = Some (node_at tree_user2 1%nat))
    by (vm_compute; reflexivity).
  assert (Hlen : length (Children (node_at tree_user2 1%nat)) = 2%nat)
    by (vm_compute; reflexivity).
  split; [exact Hlen|].
  apply (Dispose_panics_on_two_children types_IsPrimitive LookupType
           tree_user2 1%nat _ reachable_tree_user2 Hn).
  rewrite Hlen. lia.
Defined.

Lemma Dispose_leaf_witness :
  Children (node_at tree_user2 3%nat) = []
  ∧ ∃ s', Dispose 1 tree_user2 (Some 3%nat) = Done tt s'
      ∧ vs_references (store s')
        = vs_references (store tree_user2)
          ∖ held (default ∅ (Arguments (node_at tree_user2 3%nat))).
Proof.
  assert (Hn : heap tree_user2 !! 3%nat = Some (node_at tree_user2 3%nat))
    by (vm_compute; reflexivity).
  assert (Hleaf : Children (node_at tree_user2 3%nat) = [])
    by (vm_compute; reflexivity).
  split; [exact Hleaf|].
  destruct (Dispose_leaf 0 tree_user2 3%nat _ Hn Hleaf)
    as (s' & HD & _ & _ & _ & _ & Hrefs).
  exists s'. split; [exact HD | exact Hrefs].
Defined.

Lemma Dispose_returns_on_chain_witness :
  children_of tree_chain 1%nat = [2%nat]
  ∧ ∃ fuel0 s',
      (∀ fuel, (fuel0 ≤ fuel)%nat →
         Dispose fuel tree_chain (Some 1%nat) = Done tt s')
      ∧ disposed s' 2%nat.
Proof.
  assert (C1 : children_of tree_chain 1%nat = [2%nat])
    by (vm_compute; reflexivity).
  assert (C2 : children_of tree_chain 2%nat = [])
    by (vm_compute; reflexivity).
  split; [exact C1|].
  destruct (Dispose_returns_on_chain types_IsPrimitive LookupType tree_chain
              1%nat reachable_tree_chain)
    as (fuel0 & s' & HD & Hdis & _).
  - vm_compute. by eexists.
  - intros x [<-|(y & Hy & Hx)]%rtc_inv; [rewrite C1; cbn; lia|].
    cbn in Hy. rewrite C1 in Hy. apply list_elem_of_singleton in Hy as ->.
    apply rtc_inv in Hx as [<-|(z & Hz & _)]; [rewrite C2; cbn; lia|].
    cbn in Hz. rewrite C2 in Hz. by apply elem_of_nil in Hz.
  - exists fuel0, s'. split; [exact HD|]. apply Hdis.
    eapply rtc_l; [|apply rtc_refl]. cbn. rewrite C1.
    by apply list_elem_of_singleton.
Defined.

Lemma AddChild_duplicate_only_at_root_witness :
  is_Some (root_index tree_user root !! 1)
  ∧ ∃ err, AddChild types_IsPrimitive LookupType tree_user root
             (descriptor 1 "count" [] []) = Done (Some err) tree_user
           ∧ error_kind err = DuplicateNodeId.
Proof.
  assert (Hin : is_Some (root_index tree_user root !! 1))
    by (vm_compute; by eexists).
  split; [exact Hin|].
  apply (AddChild_duplicate_only_at_root types_IsPrimitive LookupType "Query"
           Query tree_user root (descriptor 1 "count" [] []) tree_user
           rtc_tree_user).
  split; [reflexivity|]. split; [reflexivity | exact Hin].
Defined.

Lemma ApplyTreeMutation_spares_root_witness :
  final (apply 3 tree_user (batch [] [del 1]))
  = Some (after (apply 3 tree_user (batch [] [del 1])))
  ∧ spared root tree_user (after (apply 3 tree_user (batch [] [del 1]))).
Proof.
  assert (Hrun : final (apply 3 tree_user (batch [] [del 1]))
                 = Some (after (apply 3 tree_user (batch [] [del 1]))))
    by (vm_compute; reflexivity).
  split; [exact Hrun|].
  exact (ApplyTreeMutation_spares_root types_IsPrimitive LookupType "Query"
           Query 3 tree_user root (batch [] [del 1]) _ rtc_tree_user Hrun).
Defined.

Lemma resolveArgs_failure_releases_witness :
  (resolveArgs (store tree_vars) ∅ [arg "a" 1; arg "b" 99]).2
  = inl (ErrVariableNotFound 99 "b")
  ∧ vs_references
      (resolveArgs (store tree_vars) ∅ [arg "a" 1; arg "b" 99]).1
    = vs_references (store tree_vars) ∖ held ∅.
Proof.
  split; [vm_compute; reflexivity|].
  apply (resolveArgs_failure_releases [arg "a" 1; arg "b" 99]
           (store tree_vars) ∅ _ (ErrVariableNotFound 99 "b")).
  - intros ref Hin. assert (E : vs_references (store tree_vars) = ∅)
      by (vm_compute; reflexivity).
    rewrite E in Hin. by apply elem_of_empty in Hin.
  - cbn. apply NoDup_cons. split.
    + intros Hin. apply list_elem_of_singleton in Hin. discriminate.
    + apply NoDup_singleton.
  - intros a _. apply lookup_empty.
  - vm_compute. reflexivity.
Defined.

Lemma AddChild_then_Dispose_restores_witness :
  ∃ nnod s2,
    Dispose 1
      (after (AddChild types_IsPrimitive LookupType tree root
                (descriptor 1 "count" [] []))) (Some nnod) = Done tt s2
    ∧ (∀ p, p ∈ dom (heap tree) → children_of s2 p = children_of tree p)
    ∧ root_index s2 root = root_index tree root.
Proof.
  destruct (AddChild_then_Dispose_restores types_IsPrimitive LookupType
              0 tree root (node_at tree root) root
              (descriptor 1 "count" [] [])
              (after (AddChild types_IsPrimitive LookupType tree root
                        (descriptor 1 "count" [] [])))
              reachable_tree)
    as (nnod & s2 & _ & HD & Hch & Hidx & _);
    try (vm_compute; reflexivity).
  by exists nnod, s2.
Defined.

Lemma ApplyTreeMutation_deletes_leaf_witness :
  ∃ s', apply 1 tree_user (batch [] [del 1]) = Done tt s'
    ∧ root_index s' root = delete 1 (root_index tree_user root)
    ∧ children_of s' root
      = filter (λ c, c ≠ 1%nat) (children_of tree_user root).
Proof.
  destruct (ApplyTreeMutation_deletes_leaf types_IsPrimitive LookupType
              0 tree_user root (node_at tree_user root) root
              (batch [] [del 1]) (del 1) 1%nat reachable_tree_user)
    as (s' & Happly & Hindex & Hch);
    try (vm_compute; reflexivity); try (vm_compute; discriminate).
  exists s'. split; [exact Happly|]. split; [exact Hindex | apply Hch].
Defined.

End Runs.
